(** * LetsMarkdown: document tree, membership and publish pipeline

    A shallow embedding of the parts of the repository that carry the
    tree, membership and publishing rules:

    - [src/store/documentStore.ts]: [buildDocumentTree] and the store
      actions [createDocument], [updateDocument], [deleteDocument],
      [moveDocument], [togglePublished];
    - the project store ([updateMemberRole], [removeMember],
      [leaveProject], [addMember]);
    - the SQL schema (tables, [has_project_access], the
      [handle_new_project] trigger and the row level security policies
      of [project_members]);
    - the [publish] edge function ([markdownToHtml], slug generation,
      bundle upload and the Publish record).

    Calls to the hosted database and object store are asynchronous
    requests whose answer the code inspects; an action below receives
    that answer as an argument, and the database itself is modelled
    where a property depends on what it stores. The regular expression
    matcher of the runtime is a parameter of [markdownToHtml]. Ids,
    titles and contents are strings of code units below 256. *)

From stdpp Require Import base option list strings gmap relations pretty.
From Stdlib Require Import ZArith Lia Ascii.


(** The line feed and the double quote, for the string templates. *)
Definition nl : string := String (ascii_of_nat 10) "".
Definition quote : string := String (ascii_of_nat 34) "".

(** * Rows of the [documents] table ([types/database.ts]) *)

(** [id] is spelled [doc_id] here: three tables have an [id] column. *)
Record Document := mkDocument {
  doc_id : string;
  project_id : string;
  parent_id : option string;
  title : string;
  content : string;
  is_folder : bool;
  is_published : bool;
  sort_order : Z;
  created_by : string;
  created_at : string;
  updated_at : string
}.

#[global] Instance Document_eq_dec : EqDecision Document.
Proof. solve_decision. Defined.

(** [DocumentUpdate]: every column optional; a field that is absent
    keeps the old value under the object spread [{ ...d, ...updates }]. *)
Record DocumentUpdate := mkDocumentUpdate {
  upd_parent_id : option (option string);
  upd_title : option string;
  upd_content : option string;
  upd_is_folder : option bool;
  upd_is_published : option bool;
  upd_sort_order : option Z
}.

Definition spread (d : Document) (u : DocumentUpdate) : Document :=
  {| doc_id := doc_id d;
     project_id := project_id d;
     parent_id := default (parent_id d) (upd_parent_id u);
     title := default (title d) (upd_title u);
     content := default (content d) (upd_content u);
     is_folder := default (is_folder d) (upd_is_folder u);
     is_published := default (is_published d) (upd_is_published u);
     sort_order := default (sort_order d) (upd_sort_order u);
     created_by := created_by d;
     created_at := created_at d;
     updated_at := updated_at d |}.

(** [interface DocumentTreeNode extends Document { children }] *)
#[warnings="-register-all"]
Inductive DocumentTreeNode := TreeNode {
  tn_doc : Document;
  children : list DocumentTreeNode
}.

(** The flattening that [DocumentTree.tsx] applies to the forest:
    [[n, ...n.children.flatMap(flatten)]]. *)
Fixpoint flatten (n : DocumentTreeNode) : list Document :=
  tn_doc n :: (children n ≫= flatten).

Definition flatten_forest (f : list DocumentTreeNode) : list Document :=
  f ≫= flatten.

(** * [buildDocumentTree] *)

(** A cell of the [Map<string, DocumentTreeNode>]: the node object made
    in the first pass. Its [children] array holds references to other
    node objects of the same map; a reference is the key of the cell. *)
Record Node := mkNode {
  node_doc : Document;
  node_children : list string
}.

Definition push (r : string) (n : Node) : Node :=
  mkNode (node_doc n) (node_children n ++ [r]).

(** First pass: [map.set(doc.id, { ...doc, children: [] })]; a later
    document with the same id replaces the earlier cell. *)
Definition first_pass (documents : list Document) : gmap string Node :=
  foldl (fun m d => <[doc_id d := mkNode d []]> m) ∅ documents.

(** [doc.parent_id && map.has(doc.parent_id)]: [null] and the empty
    string are falsy. *)
Definition attachable (m : gmap string Node) (d : Document) : bool :=
  match parent_id d with
  | Some p => negb (String.eqb p "") && bool_decide (is_Some (m !! p))
  | None => false
  end.

(** One step of the second pass, on the map and the [roots] array. *)
Definition attach (st : gmap string Node * list string) (d : Document)
  : gmap string Node * list string :=
  if attachable st.1 d
  then (alter (push (doc_id d)) (default "" (parent_id d)) st.1, st.2)
  else (st.1, st.2 ++ [doc_id d]).

Definition second_pass (m : gmap string Node) (documents : list Document)
  : gmap string Node * list string :=
  foldl attach (m, []) documents.

(** [nodes.sort((a, b) => a.sort_order - b.sort_order)]: the sort is
    stable, equal keys keep their order. *)
Fixpoint insert_sorted {A} (key : A -> Z) (x : A) (l : list A) : list A :=
  match l with
  | [] => [x]
  | y :: l' => if (key x <=? key y)%Z then x :: l else y :: insert_sorted key x l'
  end.

Definition sort_by {A} (key : A -> Z) (l : list A) : list A :=
  foldr (insert_sorted key) [] l.

Definition ref_order (m : gmap string Node) (r : string) : Z :=
  from_option (fun n => sort_order (node_doc n)) 0%Z (m !! r).

(** [sortNodes]: sorts the array, then the children array of each of its
    nodes. The arrays are sorted in place; what is returned here is the
    object graph read from [nodes] afterwards. [fuel] bounds the depth of
    the recursion: [None] is a recursion that does not come back (the
    engine ends it with a RangeError). *)
Fixpoint sortNodes (fuel : nat) (m : gmap string Node) (nodes : list string)
  : option (list DocumentTreeNode) :=
  match fuel with
  | O => None
  | S fuel' =>
      mapM (fun r =>
              n ← m !! r;
              cs ← sortNodes fuel' m (node_children n);
              Some (TreeNode (node_doc n) cs))
           (sort_by (ref_order m) nodes)
  end.

(** A chain of children longer than the number of documents repeats a
    node, so it never ends: that much fuel is enough for every forest. *)
Definition buildDocumentTree (documents : list Document)
  : option (list DocumentTreeNode) :=
  let st := second_pass (first_pass documents) documents in
  sortNodes (S (length documents)) st.1 st.2.

(** * The document store ([useDocumentStore]) *)

Record DocumentState := mkState {
  documents : list Document;
  documentTree : list DocumentTreeNode;
  currentDocument : option Document;
  loading : bool;
  saving : bool;
  error : option string
}.

Definition initial_state : DocumentState :=
  mkState [] [] None false false None.

(** The answer of a database request: [None] when it carries no error. *)
Definition db_error := option string.

Definition range_error : string := "Maximum call stack size exceeded".

(** [updateDocument] *)
Definition updateDocument (resp : db_error) (documentId : string)
    (updates : DocumentUpdate) (s : DocumentState) : DocumentState * bool :=
  let s := mkState (documents s) (documentTree s) (currentDocument s)
                   (loading s) true None in
  let failed msg :=
    (mkState (documents s) (documentTree s) (currentDocument s)
             (loading s) false (Some msg), false) in
  match resp with
  | Some msg => failed msg
  | None =>
      let newDocuments :=
        (fun d => if String.eqb (doc_id d) documentId then spread d updates else d)
          <$> documents s in
      match buildDocumentTree newDocuments with
      | None => failed range_error
      | Some tree =>
          (mkState newDocuments tree
                   (match currentDocument s with
                    | Some c => if String.eqb (doc_id c) documentId
                                then Some (spread c updates) else Some c
                    | None => None
                    end)
                   (loading s) false (error s), true)
      end
  end.

(** [togglePublished] *)
Definition togglePublished (resp : db_error) (documentId : string)
    (s : DocumentState) : DocumentState * bool :=
  match find (fun d => String.eqb (doc_id d) documentId) (documents s) with
  | None => (s, false)
  | Some doc =>
      updateDocument resp documentId
        (mkDocumentUpdate None None None None (Some (negb (is_published doc))) None) s
  end.

(** The row menu of [TreeItem] in [DocumentTree.tsx]: the
    Publish/Unpublish entry is rendered under [!node.is_folder] only. *)
Inductive MenuAction := Rename | TogglePublish | Delete.

#[global] Instance MenuAction_eq_dec : EqDecision MenuAction.
Proof. solve_decision. Defined.

Definition menu_items (node : Document) : list MenuAction :=
  [Rename] ++ (if negb (is_folder node) then [TogglePublish] else []) ++ [Delete].

(** The documents after a successful update of [documentId]. *)
Definition updated (documentId : string) (updates : DocumentUpdate)
    (docs : list Document) : list Document :=
  (fun d => if String.eqb (doc_id d) documentId then spread d updates else d) <$> docs.

Definition publish_flag (b : bool) : DocumentUpdate :=
  mkDocumentUpdate None None None None (Some b) None.

(** What the specification asks of a toggle on a folder: no change. *)
Definition toggle_spares_folders (resp : db_error) (documentId : string)
    (s : DocumentState) : Prop :=
  forall d, d ∈ documents s -> doc_id d = documentId -> is_folder d = true ->
    documents (togglePublished resp documentId s).1 = documents s.

(** A document row for examples. *)
Definition sample_doc (i : string) (parent : option string) (order : Z)
    (folder published : bool) : Document :=
  mkDocument i "p1" parent i "" folder published order "u1" "" "".


(** * [deleteDocument] and [moveDocument] *)

(** [collectIds]: adds [id] to [idsToRemove], then visits every document
    whose [parent_id] is [id]. [fuel] bounds the depth of the recursion;
    [None] is a recursion that never returns. *)
Fixpoint collectIds (fuel : nat) (docs : list Document)
    (idsToRemove : gset string) (id : string) : option (gset string) :=
  match fuel with
  | O => None
  | S fuel' =>
      foldl (fun acc d => acc ≫= fun ids => collectIds fuel' docs ids (doc_id d))
            (Some ({[id]} ∪ idsToRemove))
            (filter (fun d => parent_id d = Some id) docs)
  end.

(** [deleteDocument]. A chain of nested calls of [collectIds] that is
    longer than the number of documents plus one visits some document
    twice and so goes on for ever; the same holds for [sortNodes]. *)
Definition deleteDocument (resp : db_error) (documentId : string)
    (s : DocumentState) : DocumentState * bool :=
  let s := mkState (documents s) (documentTree s) (currentDocument s)
                   true (saving s) None in
  let failed msg :=
    (mkState (documents s) (documentTree s) (currentDocument s)
             false (saving s) (Some msg), false) in
  match resp with
  | Some msg => failed msg
  | None =>
      match collectIds (S (length (documents s))) (documents s) ∅ documentId with
      | None => failed range_error
      | Some idsToRemove =>
          let newDocuments :=
            filter (fun d => doc_id d ∉ idsToRemove) (documents s) in
          match buildDocumentTree newDocuments with
          | None => failed range_error
          | Some tree =>
              (mkState newDocuments tree
                       (if bool_decide
                             (from_option doc_id "" (currentDocument s) ∈ idsToRemove)
                        then None else currentDocument s)
                       false (saving s) (error s), true)
          end
      end
  end.

(** [{ ...d, parent_id: newParentId, sort_order: newSortOrder }] *)
Definition reparent (newParentId : option string) (newSortOrder : Z)
  : DocumentUpdate :=
  mkDocumentUpdate (Some newParentId) None None None None (Some newSortOrder).

(** [moveDocument]: the update request, then the same rewrite of the
    local list. The action sets no error; a failure only returns
    [false]. *)
Definition moveDocument (resp : db_error) (documentId : string)
    (newParentId : option string) (newSortOrder : Z) (s : DocumentState)
  : DocumentState * bool :=
  match resp with
  | Some _ => (s, false)
  | None =>
      let newDocuments :=
        (fun d => if String.eqb (doc_id d) documentId
                  then spread d (reparent newParentId newSortOrder) else d)
          <$> documents s in
      match buildDocumentTree newDocuments with
      | None => (s, false)
      | Some tree =>
          (mkState newDocuments tree (currentDocument s)
                   (loading s) (saving s) (error s), true)
      end
  end.

(** * The forest of a document list *)

(** The row of [c] names [p] as its parent. *)
Definition parent_edge (docs : list Document) (c p : string) : Prop :=
  exists d, d ∈ docs /\ doc_id d = c /\ parent_id d = Some p.

(** [a] is a proper ancestor of [x], that is, [x] is a descendant of [a]. *)
Definition ancestor (docs : list Document) (a x : string) : Prop :=
  tc (parent_edge docs) x a.

(** No document is its own ancestor. *)
Definition acyclic (docs : list Document) : Prop :=
  forall x, ~ ancestor docs x x.

Definition find_doc (docs : list Document) (i : string) : option Document :=
  find (fun d => String.eqb (doc_id d) i) docs.

(** Walking up the [parent_id] links from [i] for [k] steps: [None] when
    the walk has left the list or met a root before. *)
Fixpoint walk_up (docs : list Document) (k : nat) (i : string) : option string :=
  match k with
  | O => Some i
  | S k' =>
      d ← find_doc docs i;
      p ← parent_id d;
      walk_up docs k' p
  end.

(** A test for [acyclic]: from every document the walk ends within as
    many steps as there are documents. *)
Definition acyclicb (docs : list Document) : bool :=
  forallb (fun d => bool_decide (walk_up docs (length docs) (doc_id d) = None)) docs.

(** The parent that [buildDocumentTree] attaches a document to, if any. *)
Definition tree_parent (docs : list Document) (d : Document) : option string :=
  if attachable (first_pass docs) d then parent_id d else None.

Definition children_of (docs : list Document) (i : string) : list Document :=
  filter (fun d => tree_parent docs d = Some i) docs.

Definition roots_of (docs : list Document) : list Document :=
  filter (fun d => tree_parent docs d = None) docs.

(** All nodes of a tree, the tree itself first. *)
Fixpoint subtrees (t : DocumentTreeNode) : list DocumentTreeNode :=
  t :: (children t ≫= subtrees).

Definition forest_nodes (f : list DocumentTreeNode) : list DocumentTreeNode :=
  f ≫= subtrees.

(** What the specification asks of a move: it is refused when the new
    parent is the document or one of its descendants, and after a move
    that went through no document is its own ancestor. *)
Definition move_rejects_cycles (resp : db_error) (documentId : string)
    (newParentId : option string) (newSortOrder : Z) (s : DocumentState) : Prop :=
  let r := moveDocument resp documentId newParentId newSortOrder s in
  (forall p, newParentId = Some p ->
     p = documentId \/ ancestor (documents s) documentId p -> r.2 = false) /\
  (r.2 = true -> acyclic (documents r.1)).

(** What the specification asks of a delete of a document of the list. *)
Definition delete_removes_subtree (resp : db_error) (documentId : string)
    (s : DocumentState) : Prop :=
  let r := deleteDocument resp documentId s in
  forall d, d ∈ documents s ->
    (d ∈ documents r.1 <->
     ~ (doc_id d = documentId \/ ancestor (documents s) documentId (doc_id d))).

(** What the specification asks of the forest of any list. *)
Definition tree_has_each_once (docs : list Document) : Prop :=
  exists forest, buildDocumentTree docs = Some forest /\
                 flatten_forest forest ≡ₚ docs.

Definition tree_keeps_projects_apart (docs : list Document) : Prop :=
  forall forest t c, buildDocumentTree docs = Some forest ->
    t ∈ forest_nodes forest -> c ∈ children t ->
    project_id (tn_doc c) = project_id (tn_doc t).

(** ** Levels of the forest

    [parent_doc] is the document that [d] hangs under in the tree, [up k]
    its [k]-th ancestor there, [level k x] the documents whose [k]-th
    ancestor is [x], and [levels n x] those of the first [n] levels
    below and including [x]. *)
Definition parent_doc (docs : list Document) (d : Document) : option Document :=
  tree_parent docs d ≫= find_doc docs.

Fixpoint up (docs : list Document) (k : nat) (d : Document) : option Document :=
  match k with
  | O => Some d
  | S k' => up docs k' d ≫= parent_doc docs
  end.

Definition level (docs : list Document) (k : nat) (x : Document) : list Document :=
  filter (fun d => up docs k d = Some x) docs.

Fixpoint levels (docs : list Document) (n : nat) (x : Document) : list Document :=
  match n with
  | O => []
  | S n' => levels docs n' x ++ level docs n' x
  end.

#[global] Instance from_option_dec {A} (P : A -> Prop) (Q : Prop)
    `{!forall x, Decision (P x)} `{!Decision Q} (o : option A) :
  Decision (from_option P Q o).
Proof. destruct o; cbn; apply _. Defined.

(** The documents at depth [k], those at a depth below [n], and those
    that have a [k]-th ancestor. *)
Definition depth_level (docs : list Document) (k : nat) : list Document :=
  filter (fun d => from_option (fun r => tree_parent docs r = None) False (up docs k d))
         docs.

Fixpoint depth_levels (docs : list Document) (n : nat) : list Document :=
  match n with
  | O => []
  | S n' => depth_levels docs n' ++ depth_level docs n'
  end.

Definition alive (docs : list Document) (k : nat) : list Document :=
  filter (fun d => is_Some (up docs k d)) docs.

(** A node of the forest is in place when it carries a document of the
    list and its children are the documents attached to it. *)
Definition node_ok (docs : list Document) (t : DocumentTreeNode) : Prop :=
  tn_doc t ∈ docs /\
  tn_doc <$> children t ≡ₚ children_of docs (doc_id (tn_doc t)).

(** The map after the second pass. *)
Definition tree_store (docs : list Document) : gmap string Node :=
  (second_pass (first_pass docs) docs).1.

(** A forest of four documents for examples: [a] over [b] over [c], and
    the root [d]. *)
Definition sample_forest : list Document :=
  [sample_doc "a" None 0 true false;
   sample_doc "b" (Some "a") 0 true false;
   sample_doc "c" (Some "b") 0 false false;
   sample_doc "d" None 1 false false].

(** * Slugs of the publish function ([functions/publish/index.ts])

    A title is a string of code units below 256. [toLowerCase] is
    modelled on the letters [A]-[Z]; any other code unit is kept as it
    is: its lower case is outside [[a-z0-9]] as it is itself, and the
    next step turns either into a separator. *)

Definition is_upper (c : ascii) : bool :=
  let n := N_of_ascii c in ((65 <=? n) && (n <=? 90))%N.

Definition lower_char (c : ascii) : ascii :=
  if is_upper c then ascii_of_N (N_of_ascii c + 32) else c.

Definition toLowerCase (s : list ascii) : list ascii := lower_char <$> s.

(** The character class [[a-z0-9]]. *)
Definition is_slug_char (c : ascii) : bool :=
  let n := N_of_ascii c in
  (((97 <=? n) && (n <=? 122)) || ((48 <=? n) && (n <=? 57)))%N.

Definition dash : ascii := "-"%char.

(** [.replace(/[^a-z0-9]+/g, "-")]: each maximal run of characters
    outside the class becomes one separator. [in_run] tells that the
    character before belonged to the run being replaced. *)
Fixpoint replace_runs (in_run : bool) (s : list ascii) : list ascii :=
  match s with
  | [] => []
  | c :: s' =>
      if is_slug_char c then c :: replace_runs false s'
      else if in_run then replace_runs true s'
      else dash :: replace_runs true s'
  end.

(** [.replace(/^-|-$/g, "")]: one separator at the start and one at the
    end are removed. *)
Definition strip_start (s : list ascii) : list ascii :=
  match s with
  | c :: s' => if Ascii.eqb c dash then s' else s
  | [] => []
  end.

Fixpoint strip_end (s : list ascii) : list ascii :=
  match s with
  | [] => []
  | c :: s' =>
      match s' with
      | [] => if Ascii.eqb c dash then [] else [c]
      | _ :: _ => c :: strip_end s'
      end
  end.

Definition slug_text (title : string) : string :=
  String.string_of_list_ascii
    (strip_end (strip_start
       (replace_runs false (toLowerCase (String.list_ascii_of_string title))))).

(** [slug: ... || `document-${index}`]: the empty string is falsy. *)
Definition slug_of (index : nat) (title : string) : string :=
  let s := slug_text title in
  if String.eqb s "" then "document-" +:+ pretty index else s.

(** [documents.map((doc, index) => ({ ...doc, slug }))], on the titles. *)
Definition slugs (titles : list string) : list string := imap slug_of titles.

(** ** The slug as the specification words it

    The lowercased title is cut into its maximal runs of characters of
    [[a-z0-9]]; the runs are joined by single separators, so nothing
    stands before the first or after the last. *)
Fixpoint runs_from (cur : list ascii) (s : list ascii) : list (list ascii) :=
  match s with
  | [] => match cur with [] => [] | _ :: _ => [cur] end
  | c :: s' =>
      if is_slug_char c then runs_from (cur ++ [c]) s'
      else match cur with
           | [] => runs_from [] s'
           | _ :: _ => cur :: runs_from [] s'
           end
  end.

Definition alnum_runs (s : list ascii) : list (list ascii) := runs_from [] s.

Definition join_dash (ws : list (list ascii)) : list ascii :=
  match ws with
  | [] => []
  | w :: ws' => w ++ List.concat ((fun w' => dash :: w') <$> ws')
  end.

Definition slug_spec (index : nat) (title : string) : string :=
  match alnum_runs (toLowerCase (String.list_ascii_of_string title)) with
  | [] => "document-" +:+ pretty index
  | ws => String.string_of_list_ascii (join_dash ws)
  end.

(** * [markdownToHtml] of the publish function *)

(** [s.replace(/c/g, rep)] for a single character [c]. *)
Definition replace_char (c : ascii) (rep : list ascii) (s : list ascii)
  : list ascii :=
  s ≫= (fun x => if Ascii.eqb x c then rep else [x]).

Definition text (s : string) : list ascii := String.list_ascii_of_string s.

(** The first statement of the function body:
    [html.replace(/&/g, "&amp;").replace(/</g, "&lt;").replace(/>/g, "&gt;")]. *)
Definition escape_html (html : list ascii) : list ascii :=
  replace_char ">" (text "&gt;")
    (replace_char "<" (text "&lt;")
       (replace_char "&" (text "&amp;") html)).

(** ** The markdown replacements

    Each of them is a call [html.replace(/source/flags, replacement)].
    The replacement is a template ([$1], [$2], [$&]) or a function of
    the match and its groups. *)
Inductive Replacement :=
  | Template (t : string)
  | Function (f : list (list ascii) -> list ascii).

(** [String.prototype.replace] for a regular expression given by its
    source and flags: the matcher of the runtime. *)
Definition RegexReplace : Type :=
  string -> string -> Replacement -> list ascii -> list ascii.

(** [String.prototype.trim] *)
Definition is_space (c : ascii) : bool :=
  let n := N_of_ascii c in
  (((9 <=? n) && (n <=? 13)) || (n =? 32) || (n =? 160))%N.

Fixpoint trim_start (s : list ascii) : list ascii :=
  match s with
  | c :: s' => if is_space c then trim_start s' else s
  | [] => []
  end.

Definition trim (s : list ascii) : list ascii :=
  reverse (trim_start (reverse (trim_start s))).

(** The group that captures the rest of a line, written in two pieces. *)
Definition any_group : string := "(.*" +:+ ")".

(** The code block replacement:
    [<pre><code class="language-${lang || 'text'}">${code.trim()}</code></pre>] *)
Definition code_block (args : list (list ascii)) : list ascii :=
  match args with
  | [_; lang; code] =>
      text ("<pre><code class=" +:+ quote +:+ "language-")
      ++ (match lang with [] => text "text" | _ :: _ => lang end)
      ++ text (quote +:+ ">") ++ trim code ++ text "</code></pre>"
  | _ => []
  end.

(** The replacements after the escape, in their order. *)
Definition markdown_steps : list (string * string * Replacement) :=
  [ (* headers *)
    ("^###### " +:+ any_group +:+ "$", "gm", Template "<h6>$1</h6>");
    ("^##### " +:+ any_group +:+ "$", "gm", Template "<h5>$1</h5>");
    ("^#### " +:+ any_group +:+ "$", "gm", Template "<h4>$1</h4>");
    ("^### " +:+ any_group +:+ "$", "gm", Template "<h3>$1</h3>");
    ("^## " +:+ any_group +:+ "$", "gm", Template "<h2>$1</h2>");
    ("^# " +:+ any_group +:+ "$", "gm", Template "<h1>$1</h1>");
    (* bold and italic *)
    ("\*\*\*(.*?)\*\*\*", "g", Template "<strong><em>$1</em></strong>");
    ("\*\*(.*?)\*\*", "g", Template "<strong>$1</strong>");
    ("\*(.*?)\*", "g", Template "<em>$1</em>");
    ("___(.*?)___", "g", Template "<strong><em>$1</em></strong>");
    ("__(.*?)__", "g", Template "<strong>$1</strong>");
    ("_(.*?)_", "g", Template "<em>$1</em>");
    (* code blocks, inline code *)
    ("```(\w*" +:+ ")\n([\s\S]*?)```", "g", Function code_block);
    ("`([^`]+)`", "g", Template "<code>$1</code>");
    (* links, images *)
    ("\[([^\]]+)\]\(([^)]+)\)", "g",
     Template ("<a href=" +:+ quote +:+ "$2" +:+ quote +:+ ">$1</a>"));
    ("!\[([^\]]*" +:+ ")\]\(([^)]+)\)", "g",
     Template ("<img src=" +:+ quote +:+ "$2" +:+ quote +:+ " alt=" +:+ quote
               +:+ "$1" +:+ quote +:+ " />"));
    (* blockquotes, horizontal rules *)
    ("^> " +:+ any_group +:+ "$", "gm", Template "<blockquote>$1</blockquote>");
    ("^---$", "gm", Template "<hr />");
    ("^\*\*\*$", "gm", Template "<hr />");
    (* lists *)
    ("^\* " +:+ any_group +:+ "$", "gm", Template "<li>$1</li>");
    ("^- " +:+ any_group +:+ "$", "gm", Template "<li>$1</li>");
    ("(<li>.*<\/li>\n?)+", "g", Template "<ul>$&</ul>");
    ("^\d+\. " +:+ any_group +:+ "$", "gm", Template "<li>$1</li>");
    (* paragraphs, line breaks *)
    ("\n\n([^<].*?)(?=\n\n|$)", "g", Template (nl +:+ nl +:+ "<p>$1</p>"));
    ("\n", "g", Template ("<br />" +:+ nl));
    (* breaks around block elements *)
    ("<br \/>\n(<\/?(h[1-6]|p|ul|ol|li|blockquote|pre|hr))", "g",
     Template (nl +:+ "$1"));
    ("(<(h[1-6]|p|ul|ol|li|blockquote|pre|hr)[^>]*>)<br \/>\n", "g",
     Template ("$1" +:+ nl)) ].

Section markdown.

Variable regex_replace : RegexReplace.

Definition markdown_rules (html : list ascii) : list ascii :=
  foldl (fun html step => regex_replace step.1.1 step.1.2 step.2 html)
        html markdown_steps.

(** [markdownToHtml]: the escape, then the replacements. *)
Definition markdownToHtml (markdown : string) : string :=
  let html := text markdown in
  let html := escape_html html in
  String.string_of_list_ascii (markdown_rules html).

End markdown.

(** A text is escaped when it has no angle bracket and each of its
    ampersands opens one of the three entities. *)
Fixpoint starts_with (p s : list ascii) : bool :=
  match p, s with
  | [], _ => true
  | a :: p', b :: s' => Ascii.eqb a b && starts_with p' s'
  | _ :: _, [] => false
  end.

Fixpoint escaped (s : list ascii) : bool :=
  match s with
  | [] => true
  | c :: s' =>
      if Ascii.eqb c "<" || Ascii.eqb c ">" then false
      else if Ascii.eqb c "&"
      then (starts_with (text "amp;") s' || starts_with (text "lt;") s'
            || starts_with (text "gt;") s') && escaped s'
      else escaped s'
  end.

(** One pass over the source text: what the three replacements make of a
    single character. *)
Definition escape_char (c : ascii) : list ascii :=
  if Ascii.eqb c "&" then text "&amp;"
  else if Ascii.eqb c "<" then text "&lt;"
  else if Ascii.eqb c ">" then text "&gt;"
  else [c].

(** * [createDocument] and the sibling query *)

(** [DocumentInsert] without [created_by]: the columns the caller may
    leave out are optional ([undefined] and [null] are both [None]). *)
Record DocumentInsert := mkInsert {
  ins_project_id : string;
  ins_parent_id : option string;
  ins_title : option string;
  ins_content : option string;
  ins_is_folder : option bool;
  ins_is_published : option bool
}.

(** The request
    [from("documents").select("sort_order").eq("project_id", p)
       .eq("parent_id", v).order("sort_order", { ascending: false }).limit(1)]
    against the rows of the table.

    [.eq(column, value)] is sent as the filter [column=eq.<value>] and
    compares the column with that text. With a document id the rows of
    that parent match. With [null] the text is ["null"]: this is not the
    test [IS NULL] (which is [.is(column, null)]), no [uuid] equals it,
    and the request comes back without rows ([data] is [null]). *)
Definition sibling_orders (table : list Document) (project : string)
    (parent : string) : list Z :=
  sort_order <$>
    filter (fun d => project_id d = project /\ parent_id d = Some parent) table.

Definition select_top_sort_order (table : list Document) (project : string)
    (v : option string) : option (list Z) :=
  match v with
  | None => None
  | Some parent =>
      Some (take 1 (sort_by (fun o => (- o)%Z) (sibling_orders table project parent)))
  end.

(** [docData.parent_id || null]: the empty string is falsy too. *)
Definition or_null (v : option string) : option string :=
  match v with
  | Some p => if String.eqb p "" then None else Some p
  | None => None
  end.

(** [siblings?.[0]?.sort_order ?? -1] *)
Definition max_order (siblings : option (list Z)) : Z :=
  match siblings with
  | Some (o :: _) => o
  | _ => (-1)%Z
  end.

(** The row the database stores for an insert: the columns sent, the
    defaults of the table for the others, a generated [id] and the time. *)
Definition inserted_row (new_id now : string) (docData : DocumentInsert)
    (user : string) (order : Z) : Document :=
  {| doc_id := new_id;
     project_id := ins_project_id docData;
     parent_id := ins_parent_id docData;
     title := default "Untitled" (ins_title docData);
     content := default "" (ins_content docData);
     is_folder := default false (ins_is_folder docData);
     is_published := default false (ins_is_published docData);
     sort_order := order;
     created_by := user;
     created_at := now;
     updated_at := now |}.

(** [createDocument]. [user] is the signed-in user if any, [table] the
    rows of [documents] on the server, [resp] the answer to the insert,
    [new_id] and [now] what the server generates for the row. The result
    is the new store state, the returned document and the table. *)
Definition createDocument (user : option string) (table : list Document)
    (resp : db_error) (new_id now : string) (docData : DocumentInsert)
    (s : DocumentState)
  : DocumentState * option Document * list Document :=
  let s := mkState (documents s) (documentTree s) (currentDocument s)
                   true (saving s) None in
  let failed msg table :=
    (mkState (documents s) (documentTree s) (currentDocument s)
             false (saving s) (Some msg), None, table) in
  match user with
  | None => failed "Not authenticated" table
  | Some uid =>
      let siblings :=
        select_top_sort_order table (ins_project_id docData)
                              (or_null (ins_parent_id docData)) in
      let maxOrder := max_order siblings in
      match resp with
      | Some msg => failed msg table
      | None =>
          let document := inserted_row new_id now docData uid (maxOrder + 1) in
          let table := table ++ [document] in
          let newDocuments := documents s ++ [document] in
          match buildDocumentTree newDocuments with
          | None => failed range_error table
          | Some tree =>
              (mkState newDocuments tree (currentDocument s)
                       false (saving s) (error s), Some document, table)
          end
      end
  end.

(** [createFolder] *)
Definition createFolder (user : option string) (table : list Document)
    (resp : db_error) (new_id now : string)
    (projectId title : string) (parentId : option string) (s : DocumentState) :=
  createDocument user table resp new_id now
    (mkInsert projectId parentId (Some title) (Some "") (Some true) None) s.

(** The order the specification gives a new document among the rows of
    its project and parent ([None]: a root): one more than the largest,
    [0] when there is none. *)
Definition sibling_orders_of (table : list Document) (project : string)
    (parent : option string) : list Z :=
  sort_order <$>
    filter (fun d => project_id d = project /\ parent_id d = parent) table.

Definition next_order (table : list Document) (project : string)
    (parent : option string) : Z :=
  match sibling_orders_of table project parent with
  | [] => 0%Z
  | o :: os => (foldr Z.max o os + 1)%Z
  end.

(** * The database schema: projects and their members *)

Inductive MemberRole := owner | editor | viewer.

#[global] Instance MemberRole_eq_dec : EqDecision MemberRole.
Proof. solve_decision. Defined.

Record Project := mkProject {
  proj_id : string;
  name : string;
  description : option string;
  slug : string;
  proj_created_by : string
}.

Record ProjectMember := mkMember {
  mem_id : string;
  mem_project_id : string;
  user_id : string;
  role : MemberRole;
  invited_by : option string
}.

#[global] Instance ProjectMember_eq_dec : EqDecision ProjectMember.
Proof. solve_decision. Defined.

(** One entry of the [documents] list in the metadata of a publish. *)
Record NavDoc := mkNavDoc {
  nav_id : string;
  nav_title : string;
  nav_slug : string
}.

Record Publish := mkPublish {
  pub_id : string;
  pub_project_id : string;
  version : string;
  storage_path : string;
  preview_url : option string;
  published_by : string;
  meta_document_count : nat;
  meta_template : string;
  meta_documents : list NavDoc
}.

Record Database := mkDb {
  projects : list Project;
  project_members : list ProjectMember;
  documents_table : list Document;
  publishes : list Publish
}.

Definition empty_db : Database := mkDb [] [] [] [].

Definition with_members (db : Database) (ms : list ProjectMember) : Database :=
  mkDb (projects db) ms (documents_table db) (publishes db).

(** [has_project_access(p_project_id, p_user_id, p_min_role)]:
    [SELECT role INTO v_role ... WHERE project_id = .. AND user_id = ..],
    then the comparison with the role hierarchy. *)
Definition member_role (db : Database) (p_project_id p_user_id : string)
  : option MemberRole :=
  role <$> find (fun m => bool_decide (mem_project_id m = p_project_id)
                          && bool_decide (user_id m = p_user_id))
                (project_members db).

Definition has_project_access (db : Database) (p_project_id p_user_id : string)
    (p_min_role : MemberRole) : bool :=
  match member_role db p_project_id p_user_id with
  | None => false
  | Some v_role =>
      match p_min_role with
      | viewer => true
      | editor => bool_decide (v_role = owner) || bool_decide (v_role = editor)
      | owner => bool_decide (v_role = owner)
      end
  end.

(** ** Row level security of [project_members]

    [uid] is [auth.uid()], [m] the row the policy is evaluated on. *)

(** "Owners can add members": [WITH CHECK]. *)
Definition can_insert_member (db : Database) (uid : string) (m : ProjectMember)
  : bool :=
  has_project_access db (mem_project_id m) uid owner.

(** "Owners can update member roles": [USING]; the policy has no
    [WITH CHECK], so the same expression is checked on the new row. *)
Definition can_update_member (db : Database) (uid : string) (m : ProjectMember)
  : bool :=
  has_project_access db (mem_project_id m) uid owner
  && bool_decide (role m <> owner).

(** "Owners can remove members" or "Members can leave projects": a row
    may be deleted when one of the two policies admits it. *)
Definition can_delete_member (db : Database) (uid : string) (m : ProjectMember)
  : bool :=
  (has_project_access db (mem_project_id m) uid owner
   && bool_decide (user_id m <> uid))
  || (bool_decide (user_id m = uid) && bool_decide (role m <> owner)).

Definition set_role (r : MemberRole) (m : ProjectMember) : ProjectMember :=
  mkMember (mem_id m) (mem_project_id m) (user_id m) r (invited_by m).

Definition rls_violation : string := "new row violates row-level security policy".
Definition unique_violation : string := "duplicate key value violates unique constraint".

(** ** The statements the project store sends, run as [uid] *)

(** [update({ role }).eq("id", memberId)]: the rows the policy lets the
    user see are rewritten; a new row that fails the check aborts the
    statement. Rows outside the policy are skipped without an error. *)
Definition update_member_role (uid memberId : string) (r : MemberRole)
    (db : Database) : Database * db_error :=
  let hit m := bool_decide (mem_id m = memberId) && can_update_member db uid m in
  if existsb (fun m => hit m && negb (can_update_member db uid (set_role r m)))
             (project_members db)
  then (db, Some rls_violation)
  else (with_members db
          ((fun m => if hit m then set_role r m else m) <$> project_members db),
        None).

(** [delete().eq("id", memberId)] *)
Definition delete_member (uid memberId : string) (db : Database)
  : Database * db_error :=
  (with_members db
     (List.filter (fun m => negb (bool_decide (mem_id m = memberId)
                                  && can_delete_member db uid m))
                  (project_members db)),
   None).

(** [delete().eq("project_id", projectId).eq("user_id", user.id)] *)
Definition delete_membership (uid projectId : string) (db : Database)
  : Database * db_error :=
  (with_members db
     (List.filter (fun m => negb (bool_decide (mem_project_id m = projectId)
                                  && bool_decide (user_id m = uid)
                                  && can_delete_member db uid m))
                  (project_members db)),
   None).

(** [insert({ project_id, user_id, role, invited_by })]; [new_id] is the
    generated key. [UNIQUE(project_id, user_id)] and the primary key are
    checked. *)
Definition insert_member (uid new_id projectId userId : string) (r : MemberRole)
    (db : Database) : Database * db_error :=
  let m := mkMember new_id projectId userId r (Some uid) in
  if negb (can_insert_member db uid m) then (db, Some rls_violation)
  else if existsb (fun x => bool_decide (mem_id x = new_id)
                            || (bool_decide (mem_project_id x = projectId)
                                && bool_decide (user_id x = userId)))
                  (project_members db)
  then (db, Some unique_violation)
  else (with_members db (project_members db ++ [m]), None).

(** [insert] into [projects] by [uid] ("Authenticated users can create
    projects"), followed by the trigger [on_project_created] that runs
    [handle_new_project]: the creator becomes a member with role
    [owner]. A failure of the trigger undoes the insert. *)
Definition insert_project (uid new_id member_id pname pslug : string)
    (db : Database) : Database * db_error :=
  if existsb (fun p => bool_decide (proj_id p = new_id)
                       || bool_decide (slug p = pslug)) (projects db)
     || existsb (fun x => bool_decide (mem_id x = member_id)
                          || (bool_decide (mem_project_id x = new_id)
                              && bool_decide (user_id x = uid)))
                (project_members db)
  then (db, Some unique_violation)
  else (mkDb (projects db ++ [mkProject new_id pname None pslug uid])
             (project_members db ++ [mkMember member_id new_id uid owner (Some uid)])
             (documents_table db) (publishes db),
        None).

(** [delete().eq("id", projectId)] on [projects] ("Owners can delete
    projects"); members, documents and publishes go with the project
    ([ON DELETE CASCADE]). *)
Definition delete_project (uid projectId : string) (db : Database)
  : Database * db_error :=
  if has_project_access db projectId uid owner
  then (mkDb (List.filter (fun p => negb (bool_decide (proj_id p = projectId)))
                          (projects db))
             (List.filter (fun m => negb (bool_decide (mem_project_id m = projectId)))
                          (project_members db))
             (List.filter (fun d => negb (bool_decide (project_id d = projectId)))
                          (documents_table db))
             (List.filter (fun p => negb (bool_decide (pub_project_id p = projectId)))
                          (publishes db)),
        None)
  else (db, None).

(** ** The member actions of the project store

    [members] is the list cached in [currentProject] ([None] when no
    project is open). Each action returns the database, the cache and
    its boolean result. *)
Definition updateMemberRole (uid memberId : string) (r : MemberRole)
    (db : Database) (members : option (list ProjectMember))
  : Database * option (list ProjectMember) * bool :=
  match update_member_role uid memberId r db with
  | (db', Some _) => (db', members, false)
  | (db', None) =>
      (db',
       (fun ms : list ProjectMember =>
          (fun m => if String.eqb (mem_id m) memberId
                    then set_role r m else m) <$> ms) <$> members,
       true)
  end.

Definition removeMember (uid memberId : string)
    (db : Database) (members : option (list ProjectMember))
  : Database * option (list ProjectMember) * bool :=
  match delete_member uid memberId db with
  | (db', Some _) => (db', members, false)
  | (db', None) =>
      (db',
       List.filter (fun m => negb (String.eqb (mem_id m) memberId)) <$> members,
       true)
  end.

(** [leaveProject]: on success the project leaves the list of projects
    and is closed if it was open. *)
Definition leaveProject (user : option string) (projectId : string)
    (db : Database) (open_project : option string)
  : Database * option string * bool :=
  match user with
  | None => (db, open_project, false)
  | Some uid =>
      match delete_membership uid projectId db with
      | (db', Some _) => (db', open_project, false)
      | (db', None) =>
          (db',
           match open_project with
           | Some p => if String.eqb p projectId then None else Some p
           | None => None
           end,
           true)
      end
  end.

(** The membership operations, as requests of a signed-in user. *)
Inductive MemberOp :=
  | CreateProject (uid new_id member_id pname pslug : string)
  | DeleteProject (uid projectId : string)
  | AddMember (uid new_id projectId userId : string) (r : MemberRole)
  | UpdateMemberRole (uid memberId : string) (r : MemberRole)
  | RemoveMember (uid memberId : string)
  | LeaveProject (uid projectId : string).

Definition step (db : Database) (op : MemberOp) : Database :=
  match op with
  | CreateProject uid new_id member_id pname pslug =>
      (insert_project uid new_id member_id pname pslug db).1
  | DeleteProject uid projectId => (delete_project uid projectId db).1
  | AddMember uid new_id projectId userId r =>
      (insert_member uid new_id projectId userId r db).1
  | UpdateMemberRole uid memberId r => (updateMemberRole uid memberId r db None).1.1
  | RemoveMember uid memberId => (removeMember uid memberId db None).1.1
  | LeaveProject uid projectId => (leaveProject (Some uid) projectId db None).1.1
  end.

Definition run (ops : list MemberOp) (db : Database) : Database :=
  foldl step db ops.

Definition is_owner_of (p : string) (m : ProjectMember) : bool :=
  bool_decide (mem_project_id m = p) && bool_decide (role m = owner).

Definition has_owner (db : Database) (p : string) : bool :=
  existsb (is_owner_of p) (project_members db).

(** Every project has a member with role [owner]. *)
Definition every_project_has_owner (db : Database) : Prop :=
  forall p, p ∈ projects db -> has_owner db (proj_id p) = true.

Definition owner_rows (db : Database) : list ProjectMember :=
  List.filter (fun m => bool_decide (role m = owner)) (project_members db).

(** * The [publish] edge function *)

(** The archive under construction ([JSZip]): [zip.file(name, data)]
    adds the file, or replaces the file of that name. *)
Definition Archive := list (string * string).

Fixpoint zip_file (name data : string) (zip : Archive) : Archive :=
  match zip with
  | [] => [(name, data)]
  | (n, d) :: zip' =>
      if String.eqb n name then (name, data) :: zip'
      else (n, d) :: zip_file name data zip'
  end.

(** The bucket [published-sites]: [upload(path, bytes, { upsert: true })]. *)
Definition Bucket := list (string * Archive).

Fixpoint upload (path : string) (a : Archive) (b : Bucket) : Bucket :=
  match b with
  | [] => [(path, a)]
  | (p, x) :: b' =>
      if String.eqb p path then (path, a) :: b' else (p, x) :: upload path a b'
  end.

Record World := mkWorld {
  database : Database;
  published_sites : Bucket
}.

(** The request, as far as the function reads it. [json] is the parsed
    body ([projectId], [template]), or the message of the error that
    [req.json()] throws. *)
Record Request := mkRequest {
  is_options : bool;
  authorization : option string;
  json : string + (option string * option string)
}.

(** What the services answer during one run. *)
Record Outcomes := mkOutcomes {
  token_user : option string;       (* [auth.getUser()] *)
  docs_error : db_error;            (* the documents query *)
  date_now : N;                     (* [Date.now()] *)
  bundle_error : option string;     (* thrown while pages and archive are made *)
  upload_error : db_error;
  public_url : string -> string;    (* [getPublicUrl(path).data.publicUrl] *)
  insert_error : db_error;          (* the insert into [publishes] *)
  new_publish_id : string
}.

Inductive Body :=
  | OkText
  | ErrorBody (error : string)
  | SuccessBody (version previewUrl storagePath : string)
                (documentCount : nat) (publishId : option string).

Record Response := mkResponse {
  status : nat;
  body : Body
}.

Definition is_success (r : Response) : bool :=
  match body r with SuccessBody _ _ _ _ _ => true | _ => false end.

(** The [publishId] of a success body. *)
Definition publish_id_of (r : Response) : option string :=
  match body r with SuccessBody _ _ _ _ i => i | _ => None end.

(** [.single()]: exactly one row, or an error. *)
Definition single {A} (rows : list A) : option A :=
  match rows with
  | [x] => Some x
  | _ => None
  end.

(** Published documents of the project that are not folders, by
    ascending [sort_order]. *)
Definition published_documents (w : World) (projectId : string) : list Document :=
  sort_by sort_order
    (List.filter (fun d => bool_decide (project_id d = projectId)
                           && bool_decide (is_published d = true)
                           && bool_decide (is_folder d = false))
                 (documents_table (database w))).

Definition join_lines (ls : list string) : string :=
  match ls with
  | [] => ""
  | l :: ls' => foldl (fun acc x => acc +:+ nl +:+ x) l ls'
  end.

(** [generateNavigation] *)
Definition generateNavigation (docs : list NavDoc) : string :=
  if (length docs <=? 1)%nat then ""
  else
    let navItems :=
      join_lines ((fun doc => "<li><a href=" +:+ quote +:+ nav_slug doc +:+ ".html"
                              +:+ quote +:+ ">" +:+ nav_title doc +:+ "</a></li>")
                    <$> docs) in
    nl +:+ "    <nav class=" +:+ quote +:+ "site-nav" +:+ quote +:+ ">" +:+ nl
       +:+ "      <ul>" +:+ navItems +:+ "</ul>" +:+ nl
       +:+ "    </nav>" +:+ nl +:+ "  ".

(** [generateHtmlTemplate] *)
Definition generateHtmlTemplate (ptitle pcontent styles : string) : string :=
  join_lines
    [ "<!DOCTYPE html>";
      "<html lang=" +:+ quote +:+ "en" +:+ quote +:+ ">";
      "<head>";
      "    <meta charset=" +:+ quote +:+ "UTF-8" +:+ quote +:+ ">";
      "    <meta name=" +:+ quote +:+ "viewport" +:+ quote +:+ " content="
         +:+ quote +:+ "width=device-width, initial-scale=1.0" +:+ quote +:+ ">";
      "    <title>" +:+ ptitle +:+ "</title>";
      "    <style>";
      "        " +:+ styles;
      "    </style>";
      "</head>";
      "<body>";
      "    <div class=" +:+ quote +:+ "container" +:+ quote +:+ ">";
      "        " +:+ pcontent;
      "    </div>";
      "</body>";
      "</html>" ].

Section publish.

Variable regex_replace : RegexReplace.
(** The constant [defaultStyles] (the stylesheet of the pages). *)
Variable defaultStyles : string.

Definition page (project_name : string) (navDocs : list NavDoc)
    (d : Document) : string :=
  generateHtmlTemplate (title d +:+ " - " +:+ project_name)
    (generateNavigation navDocs +:+ "<article>"
       +:+ markdownToHtml regex_replace (content d) +:+ "</article>")
    defaultStyles.

(** The archive of a run: one page per document under its slug, then
    [index.html] from the first document, then [styles.css]. *)
Definition bundle (project_name : string) (docs : list Document) : Archive :=
  let docsWithSlugs := imap (fun index d => (d, slug_of index (title d))) docs in
  let navDocs := (fun ds => mkNavDoc (doc_id ds.1) (title ds.1) ds.2) <$> docsWithSlugs in
  let zip :=
    foldl (fun zip ds => zip_file (ds.2 +:+ ".html") (page project_name navDocs ds.1) zip)
          [] docsWithSlugs in
  let zip :=
    match docsWithSlugs with
    | first :: _ =>
        zip_file "index.html"
          (generateHtmlTemplate project_name
             (generateNavigation navDocs +:+ "<article>"
                +:+ markdownToHtml regex_replace (content first.1) +:+ "</article>")
             defaultStyles) zip
    | [] => zip
    end in
  zip_file "styles.css" defaultStyles zip.

Definition nav_docs (docs : list Document) : list NavDoc :=
  imap (fun index d => mkNavDoc (doc_id d) (title d) (slug_of index (title d))) docs.

(** The part of the handler after the documents have been selected:
    build the archive, upload it, record the publish, answer. *)
Definition publish_selected (o : Outcomes) (w : World) (user : string)
    (project : Project) (template : string) (docs : list Document)
  : World * Response :=
  match bundle_error o with
  | Some msg =>
      (* caught by the [catch] of the handler *)
      (w, mkResponse 500 (ErrorBody (if String.eqb msg "" then "Internal server error" else msg)))
  | None =>
      let zipBuffer := bundle (name project) docs in
      let version := "v" +:+ pretty (date_now o) in
      let storagePath := proj_id project +:+ "/" +:+ version +:+ "/site.zip" in
      match upload_error o with
      | Some _ =>
          (w, mkResponse 500 (ErrorBody "Failed to upload published site"))
      | None =>
          let w := mkWorld (database w) (upload storagePath zipBuffer (published_sites w)) in
          let previewUrl := public_url o storagePath in
          let record :=
            mkPublish (new_publish_id o) (proj_id project) version storagePath
                      (Some previewUrl) user (length docs) template (nav_docs docs) in
          (* [if (publishError) console.error(...)]: logged, not returned *)
          let '(w, publishRecord) :=
            match insert_error o with
            | Some _ => (w, None)
            | None =>
                (mkWorld (mkDb (projects (database w)) (project_members (database w))
                               (documents_table (database w)) (publishes (database w) ++ [record]))
                         (published_sites w),
                 Some record)
            end in
          (w, mkResponse 200
                (SuccessBody version previewUrl storagePath (length docs)
                             (pub_id <$> publishRecord)))
      end
  end.

(** The handler ([serve]) up to the selection of the documents. *)
Definition serve (o : Outcomes) (w : World) (req : Request) : World * Response :=
  if is_options req then (w, mkResponse 200 OkText)
  else match authorization req with
  | None => (w, mkResponse 401 (ErrorBody "Missing authorization header"))
  | Some _ =>
    match json req with
    | inl msg =>
        (w, mkResponse 500 (ErrorBody (if String.eqb msg "" then "Internal server error" else msg)))
    | inr (projectId, template) =>
      let template := default "default" template in
      match or_null projectId with
      | None => (w, mkResponse 400 (ErrorBody "Project ID is required"))
      | Some projectId =>
        match token_user o with
        | None => (w, mkResponse 401 (ErrorBody "Invalid user token"))
        | Some user =>
          let memberData :=
            single (List.filter (fun m => bool_decide (mem_project_id m = projectId)
                                          && bool_decide (user_id m = user))
                                (project_members (database w))) in
          match memberData with
          | Some m =>
            if bool_decide (role m = owner) || bool_decide (role m = editor) then
              match single (List.filter (fun p => bool_decide (proj_id p = projectId))
                                        (projects (database w))) with
              | None => (w, mkResponse 404 (ErrorBody "Project not found"))
              | Some project =>
                match docs_error o with
                | Some _ => (w, mkResponse 500 (ErrorBody "Failed to fetch documents"))
                | None =>
                  match published_documents w projectId with
                  | [] => (w, mkResponse 400 (ErrorBody "No published documents found"))
                  | docs => publish_selected o w user project template docs
                  end
                end
              end
            else (w, mkResponse 403 (ErrorBody "Unauthorized: Editor or owner access required"))
          | None => (w, mkResponse 403 (ErrorBody "Unauthorized: Editor or owner access required"))
          end
        end
      end
    end
  end.

End publish.

(** What the specification asks of a run whose documents were selected:
    a failure of a later step is answered with a failure, and a success
    comes with the identity of the new Publish record. *)
Definition all_or_nothing (r : World * Response) (o : Outcomes) : Prop :=
  (bundle_error o <> None \/ upload_error o <> None \/ insert_error o <> None ->
     is_success r.2 = false /\ status r.2 = 500%nat) /\
  (is_success r.2 = true -> publish_id_of r.2 = Some (new_publish_id o)).

(** A world with one project, its owner and one published document. *)
Definition sample_world : World :=
  mkWorld
    (mkDb [mkProject "p1" "Docs" None "docs" "u1"]
          [mkMember "m1" "p1" "u1" owner (Some "u1")]
          [sample_doc "d1" None 0 false true]
          [])
    [].

Definition sample_outcomes (insert : db_error) : Outcomes :=
  mkOutcomes (Some "u1") None 1700000000000 None None
             (fun path => "https://store/" +:+ path) insert "pub1".

Definition sample_request : Request :=
  mkRequest false (Some "Bearer t") (inr (Some "p1", None)).

(** * More of the store and of the schema *)

From stdpp Require Import sorting.

(** ** Row level security of [documents]

    "Members can view documents", "Editors can create documents",
    "Editors can update documents", "Editors can delete documents". *)
Definition can_select_document (db : Database) (uid : string) (d : Document)
  : bool :=
  has_project_access db (project_id d) uid viewer.

Definition can_insert_document (db : Database) (uid : string) (d : Document)
  : bool :=
  has_project_access db (project_id d) uid editor
  && bool_decide (uid = created_by d).

Definition can_update_document (db : Database) (uid : string) (d : Document)
  : bool :=
  has_project_access db (project_id d) uid editor.

Definition can_delete_document (db : Database) (uid : string) (d : Document)
  : bool :=
  has_project_access db (project_id d) uid editor.

(** The rows that
    [from("documents").select("*").eq("project_id", projectId)
       .order("sort_order", { ascending: true })]
    brings to the user [uid]: the rows of the project that the select
    policy lets the user see, by ascending [sort_order]. *)
Definition select_documents (db : Database) (uid projectId : string)
  : list Document :=
  sort_by sort_order
    (filter (fun d => project_id d = projectId
                      /\ can_select_document db uid d = true)
            (documents_table db)).

(** [fetchDocuments] *)
Definition fetchDocuments (db : Database) (uid : string) (resp : db_error)
    (projectId : string) (s : DocumentState) : DocumentState :=
  let s := mkState (documents s) (documentTree s) (currentDocument s)
                   true (saving s) None in
  let failed msg :=
    mkState (documents s) (documentTree s) (currentDocument s)
            false (saving s) (Some msg) in
  match resp with
  | Some msg => failed msg
  | None =>
      let documents := select_documents db uid projectId in
      match buildDocumentTree documents with
      | None => failed range_error
      | Some tree =>
          mkState documents tree (currentDocument s) false (saving s) (error s)
      end
  end.

(** [setCurrentDocument], [clearError] *)
Definition setCurrentDocument (doc : option Document) (s : DocumentState)
  : DocumentState :=
  mkState (documents s) (documentTree s) doc (loading s) (saving s) (error s).

Definition clearError (s : DocumentState) : DocumentState :=
  mkState (documents s) (documentTree s) (currentDocument s)
          (loading s) (saving s) None.

(** Ascending order of [sort_order]. *)
Definition by_sort_order (a b : Document) : Prop :=
  (sort_order a <= sort_order b)%Z.

(** * More on slugs *)

(** The shape of a slug: characters of [[a-z0-9]] and single separators,
    none at the start (when [after_dash] is set) and none at the end. *)
Fixpoint slug_shape (after_dash : bool) (s : list ascii) : bool :=
  match s with
  | [] => negb after_dash
  | c :: s' =>
      if is_slug_char c then slug_shape false s'
      else Ascii.eqb c dash && negb after_dash && slug_shape true s'
  end.

(** ** [generateSlug] of the dashboard

    [Number.prototype.toString(36)] on a natural number: the digits
    [0]-[9], [a]-[z], the most significant first. A number below
    [2 ^ fuel] has at most [fuel] digits. *)
Definition digit36 (d : N) : ascii :=
  if (d <? 10)%N then ascii_of_N (48 + d) else ascii_of_N (87 + d).

Fixpoint digits36 (fuel : nat) (n : N) (acc : list ascii) : list ascii :=
  match fuel with
  | O => acc
  | S fuel' =>
      if (n =? 0)%N then acc
      else digits36 fuel' (n / 36)%N (digit36 (n mod 36)%N :: acc)
  end.

Definition toString36 (n : N) : list ascii :=
  if (n =? 0)%N then ["0"%char]
  else digits36 (S (N.to_nat (N.log2 n))) n [].

(** The value of a digit and of a numeral in base 36. *)
Definition digit36_value (c : ascii) : N :=
  let n := N_of_ascii c in if (n <? 58)%N then (n - 48)%N else (n - 87)%N.

Definition value36 (ds : list ascii) : N :=
  foldl (fun a c => (a * 36 + digit36_value c)%N) 0%N ds.

(** [name.toLowerCase().replace(/[^a-z0-9]+/g, "-").replace(/^-|-$/g, "")
      .slice(0, 50) + "-" + Date.now().toString(36)] *)
Definition slug_prefix (name : string) : list ascii :=
  take 50 (strip_end (strip_start
     (replace_runs false (toLowerCase (String.list_ascii_of_string name))))).

Definition generateSlug (now : N) (name : string) : string :=
  String.string_of_list_ascii (slug_prefix name ++ dash :: toString36 now).

(** * The publish dialog ([PublishModal])

    [documents.filter(d => d.is_published && !d.is_folder)]: the
    documents the dialog lists, and counts, before a publish. *)
Definition publishedDocs (documents : list Document) : list Document :=
  List.filter (fun d => is_published d && negb (is_folder d)) documents.

(** * Consistency of the membership tables *)

(** The keys and constraints of [projects] and [project_members]: the
    primary keys, [slug UNIQUE], [UNIQUE(project_id, user_id)] and the
    reference of a member row to its project. *)
Definition db_consistent (db : Database) : Prop :=
  NoDup (proj_id <$> projects db)
  /\ NoDup (slug <$> projects db)
  /\ NoDup (mem_id <$> project_members db)
  /\ NoDup ((fun m => (mem_project_id m, user_id m)) <$> project_members db)
  /\ forall m, m ∈ project_members db ->
       mem_project_id m ∈ proj_id <$> projects db.

(** The user who sends a request. *)
Definition op_user (op : MemberOp) : string :=
  match op with
  | CreateProject uid _ _ _ _ => uid
  | DeleteProject uid _ => uid
  | AddMember uid _ _ _ _ => uid
  | UpdateMemberRole uid _ _ => uid
  | RemoveMember uid _ => uid
  | LeaveProject uid _ => uid
  end.

(** The member rows of project [p] that belong to other users than [uid]. *)
Definition others_in (p uid : string) (m : ProjectMember) : bool :=
  bool_decide (mem_project_id m = p) && negb (bool_decide (user_id m = uid)).

(** * Slug generation meets its description *)

Section slug.

Lemma slug_char_not_dash c : is_slug_char c = true -> Ascii.eqb c dash = false.
Proof.
  intros H. destruct (Ascii.eqb_spec c dash) as [->|]; [|done].
  vm_compute in H. discriminate.
Qed.

Lemma strip_end_slug_char c l :
  is_slug_char c = true -> strip_end (c :: l) = c :: strip_end l.
Proof.
  intros H. cbn. destruct l; [|done]. by rewrite slug_char_not_dash.
Qed.

Lemma strip_end_dash_cons c l :
  strip_end (dash :: c :: l) = dash :: strip_end (c :: l).
Proof. done. Qed.

Lemma runs_from_all_nonempty s :
  forall cur, Forall (fun w => w <> []) (runs_from cur s).
Proof.
  induction s as [|c s IH]; intros cur; cbn.
  - destruct cur; by repeat constructor.
  - destruct (is_slug_char c); [apply IH|].
    destruct cur; [apply IH|]. constructor; [done | apply IH].
Qed.

Lemma runs_from_started s :
  forall cur, cur <> [] -> runs_from cur s <> [].
Proof.
  induction s as [|c s IH]; intros cur Hcur; cbn.
  - by destruct cur.
  - destruct (is_slug_char c).
    + apply IH. by destruct cur.
    + by destruct cur.
Qed.

(** After a run has begun, the joined runs are that run followed by the
    rest of the replaced text without its trailing separator; the runs
    of a text that follows a separator, each behind its separator, are
    that separator and the rest. *)
Lemma join_runs_from s :
  (forall cur, cur <> [] ->
     join_dash (runs_from cur s) = cur ++ strip_end (replace_runs false s)) /\
  List.concat ((fun w => dash :: w) <$> runs_from [] s)
    = strip_end (dash :: replace_runs true s).
Proof.
  induction s as [|c s [IH1 IH2]]; split.
  - intros cur Hcur. destruct cur; [done|]. cbn. by rewrite !app_nil_r.
  - done.
  - intros cur Hcur. cbn [runs_from replace_runs].
    destruct (is_slug_char c) eqn:Hc.
    + rewrite IH1 by (by destruct cur).
      rewrite strip_end_slug_char by done. by rewrite <- app_assoc.
    + destruct cur as [|x cur]; [done|].
      cbn [join_dash]. by rewrite IH2.
  - cbn [runs_from replace_runs].
    destruct (is_slug_char c) eqn:Hc.
    + change ([] ++ [c]) with [c].
      pose proof (runs_from_started s [c] ltac:(done)) as Hne.
      specialize (IH1 [c] ltac:(done)).
      destruct (runs_from [c] s) as [|w ws]; [done|].
      rewrite fmap_cons. cbn [List.concat join_dash] in *.
      rewrite <- app_comm_cons, IH1.
      by rewrite strip_end_dash_cons, strip_end_slug_char.
    + exact IH2.
Qed.

Lemma join_runs_after_separator s :
  join_dash (alnum_runs s) = strip_end (replace_runs true s).
Proof.
  unfold alnum_runs. induction s as [|c s IH]; [done|].
  cbn [runs_from replace_runs]. destruct (is_slug_char c) eqn:Hc.
  - rewrite (proj1 (join_runs_from s)) by done.
    by rewrite strip_end_slug_char.
  - exact IH.
Qed.

Lemma join_runs s :
  join_dash (alnum_runs s) = strip_end (strip_start (replace_runs false s)).
Proof.
  destruct s as [|c s]; [done|].
  unfold alnum_runs. cbn [runs_from replace_runs].
  destruct (is_slug_char c) eqn:Hc.
  - rewrite (proj1 (join_runs_from s)) by done.
    cbn [strip_start]. rewrite slug_char_not_dash by done.
    by rewrite strip_end_slug_char.
  - cbn [strip_start]. change (Ascii.eqb dash dash) with true. cbn iota.
    apply join_runs_after_separator.
Qed.

Lemma string_of_list_nil l :
  String.eqb (String.string_of_list_ascii l) "" = true <-> l = [].
Proof. destruct l; cbn; [done|]. split; discriminate. Qed.

End slug.

(** C7: the slug of the publish function is the lowercased title with its
    maximal runs of characters outside [[a-z0-9]] each collapsed to one
    ["-"], none left at the start or the end; when nothing remains it is
    [document-<index>], the index being the position of the document in
    the published list. The titles "Intro", "Getting Started!!" and "FAQ"
    give [intro], [getting-started] and [faq]. *)
Theorem slug_of_spec :
  (forall index title, slug_of index title = slug_spec index title) /\
  slugs ["Intro"; "Getting Started!!"; "FAQ"] = ["intro"; "getting-started"; "faq"] /\
  slugs ["Intro"; "?!"; ""] = ["intro"; "document-1"; "document-2"].
Proof.
  split; [|split; vm_compute; reflexivity].
  intros index title. unfold slug_of, slug_spec, slug_text.
  rewrite <- join_runs.
  pose proof (runs_from_all_nonempty
                (toLowerCase (String.list_ascii_of_string title)) []) as Hne.
  fold (alnum_runs (toLowerCase (String.list_ascii_of_string title))) in Hne.
  destruct (alnum_runs (toLowerCase (String.list_ascii_of_string title)))
    as [|w ws]; [done|].
  apply Forall_cons in Hne as [Hw _].
  destruct (String.eqb _ "") eqn:E; [|done].
  apply string_of_list_nil in E. cbn [join_dash] in E.
  by apply app_eq_nil in E as [-> _].
Qed.

(** * The escape comes first *)

Lemma replace_char_app c rep s t :
  replace_char c rep (s ++ t) = replace_char c rep s ++ replace_char c rep t.
Proof. unfold replace_char. apply bind_app. Qed.

Lemma replace_char_cons c rep x s :
  replace_char c rep (x :: s)
  = (if Ascii.eqb x c then rep else [x]) ++ replace_char c rep s.
Proof. done. Qed.

(** The ampersand is replaced first, so the ampersands that the entities
    bring are not escaped again; the entities hold no angle bracket, so
    the later replacements leave them alone. *)
Lemma escape_html_cons c s :
  escape_html (c :: s) = escape_char c ++ escape_html s.
Proof.
  unfold escape_html, escape_char.
  rewrite (replace_char_cons "&").
  destruct (Ascii.eqb_spec c "&") as [->|Hamp]; [done|].
  rewrite replace_char_app, (replace_char_cons "<" _ c).
  destruct (Ascii.eqb_spec c "<") as [->|Hlt]; [done|].
  rewrite !replace_char_app, (replace_char_cons ">" _ c).
  by destruct (Ascii.eqb_spec c ">") as [->|Hgt].
Qed.

Lemma escaped_escape_char c t :
  escaped t = true -> escaped (escape_char c ++ t) = true.
Proof.
  intros Ht. unfold escape_char.
  destruct (Ascii.eqb_spec c "&") as [->|Hamp]; [exact Ht|].
  destruct (Ascii.eqb_spec c "<") as [->|Hlt]; [exact Ht|].
  destruct (Ascii.eqb_spec c ">") as [->|Hgt]; [exact Ht|].
  cbn. repeat match goal with
         | |- context [Ascii.eqb c ?x] =>
             destruct (Ascii.eqb_spec c x); [congruence|]
         end.
  exact Ht.
Qed.

Lemma escaped_no_bracket s c :
  escaped s = true -> c ∈ s -> c <> "<"%char /\ c <> ">"%char.
Proof.
  induction s as [|x s IH]; intros Hs Hc; [by apply elem_of_nil in Hc|].
  cbn in Hs.
  destruct (Ascii.eqb_spec x "<") as [->|Hlt]; [discriminate|].
  destruct (Ascii.eqb_spec x ">") as [->|Hgt]; [discriminate|].
  cbn in Hs.
  assert (Hs' : escaped s = true).
  { destruct (Ascii.eqb x "&"); [|done]. by apply andb_true_iff in Hs as [_ ?]. }
  apply elem_of_cons in Hc as [->|Hc]; [done|]. by apply IH.
Qed.


(** * The order given to a new document *)

Lemma foldr_max_swap (a b : Z) (l : list Z) :
  foldr Z.max a (b :: l) = Z.max a (foldr Z.max b l).
Proof.
  induction l as [|c l IH]; cbn in *; lia.
Qed.

Lemma head_insert_sorted_neg (a : Z) (t : list Z) :
  head (insert_sorted (fun o => (- o)%Z) a t)
  = Some (from_option (Z.max a) a (head t)).
Proof.
  destruct t as [|y t]; cbn; [done|].
  destruct (Z.leb_spec (- a) (- y)); cbn; f_equal; lia.
Qed.

(** The first row of the descending order carries the largest value. *)
Lemma head_sort_desc (a : Z) (l : list Z) :
  head (sort_by (fun o => (- o)%Z) (a :: l)) = Some (foldr Z.max a l).
Proof.
  revert a. induction l as [|b l IH]; intros a; [done|].
  change (sort_by (fun o => (- o)%Z) (a :: b :: l))
    with (insert_sorted (fun o => (- o)%Z) a (sort_by (fun o => (- o)%Z) (b :: l))).
  rewrite head_insert_sorted_neg, IH. cbn [from_option].
  by rewrite foldr_max_swap.
Qed.

Lemma max_order_top (l : list Z) :
  (max_order (Some (take 1 (sort_by (fun o => (- o)%Z) l))) + 1)%Z
  = match l with [] => 0%Z | o :: os => (foldr Z.max o os + 1)%Z end.
Proof.
  destruct l as [|a l]; [done|].
  pose proof (head_sort_desc a l) as H.
  destruct (sort_by _ (a :: l)) as [|x t]; [done|].
  cbn in *. by injection H as ->.
Qed.

(** Under a parent, the row that [createDocument] inserts has the order
    the specification asks for. *)
Lemma createDocument_child_order (uid : string) (table : list Document)
    (new_id now project parent : string) t c f p (s : DocumentState) :
  parent <> "" ->
  let docData := mkInsert project (Some parent) t c f p in
  (createDocument (Some uid) table None new_id now docData s).2
  = table ++ [inserted_row new_id now docData uid
                (next_order table project (Some parent))].
Proof.
  intros Hp docData. unfold createDocument. cbn [ins_project_id ins_parent_id docData or_null].
  destruct (String.eqb_spec parent "") as [|_]; [done|].
  cbn [select_top_sort_order]. rewrite max_order_top.
  unfold next_order, sibling_orders_of, sibling_orders.
  by destruct (buildDocumentTree _).
Qed.

(** C6 at the roots: with no parent the sibling request is filtered by
    [.eq("parent_id", null)], it brings no row, and the new root gets
    order [0] whatever roots the project has. In a project whose only
    root has order [0] the specification asks for [1]. *)
Theorem createDocument_root_order :
  (forall uid table new_id now project t c f p s,
     let docData := mkInsert project None t c f p in
     (createDocument (Some uid) table None new_id now docData s).2
     = table ++ [inserted_row new_id now docData uid 0]) /\
  let table := [sample_doc "r1" None 0 false false] in
  let docData := mkInsert "p1" None (Some "second") None None None in
  next_order table "p1" None = 1%Z /\
  sort_order <$> (createDocument (Some "u1") table None "r2" "now" docData
                    initial_state).1.2 = Some 0%Z.
Proof.
  split.
  - intros. unfold createDocument. cbn -[buildDocumentTree].
    by destruct (buildDocumentTree _).
  - split; vm_compute; reflexivity.
Qed.

(** * Every project keeps an owner *)

Section owners.

Implicit Types (db : Database) (m : ProjectMember) (uid p : string).

Lemma has_owner_iff db p :
  has_owner db p = true <->
  exists m, m ∈ project_members db /\ mem_project_id m = p /\ role m = owner.
Proof.
  unfold has_owner, is_owner_of. rewrite existsb_exists. split.
  - intros (m & Hin & Hm). apply andb_true_iff in Hm as [H1 H2].
    apply bool_decide_eq_true in H1, H2.
    exists m. by rewrite list_elem_of_In.
  - intros (m & Hin & H1 & H2). exists m. rewrite <- list_elem_of_In.
    split; [done|]. by rewrite !bool_decide_eq_true_2.
Qed.

(** Access as [owner] is read from a row of the user with that role. *)
Lemma owner_access_row db p uid :
  has_project_access db p uid owner = true ->
  exists m, m ∈ project_members db /\
            mem_project_id m = p /\ user_id m = uid /\ role m = owner.
Proof.
  unfold has_project_access, member_role.
  destruct (find _ _) as [m|] eqn:Hfind; [|done]. cbn.
  intros Hr. apply bool_decide_eq_true in Hr.
  apply find_some in Hfind as [Hin Hm].
  apply andb_true_iff in Hm as [H1 H2].
  apply bool_decide_eq_true in H1, H2.
  exists m. by rewrite list_elem_of_In.
Qed.

(** No user can delete a row of their own that has role [owner]. *)
Lemma own_owner_row_kept db uid m :
  user_id m = uid -> role m = owner -> can_delete_member db uid m = false.
Proof.
  intros Hu Hr. unfold can_delete_member.
  rewrite (bool_decide_eq_false_2 (user_id m <> uid)) by (intros H; by apply H).
  rewrite (bool_decide_eq_false_2 (role m <> owner)) by (intros H; by apply H).
  by rewrite !andb_false_r.
Qed.

(** A delete statement, whatever rows it names, leaves each project an
    owner: the owner row of another user goes only at the request of an
    owner, whose own row stays. *)
Lemma delete_keeps_owner db uid (sel : ProjectMember -> bool) p :
  has_owner db p = true ->
  has_owner
    (with_members db
       (List.filter (fun m => negb (sel m && can_delete_member db uid m))
                    (project_members db))) p = true.
Proof.
  rewrite !has_owner_iff. cbn [project_members with_members].
  intros (m & Hin & Hp & Hr).
  destruct (sel m && can_delete_member db uid m) eqn:Hdel.
  - apply andb_true_iff in Hdel as [_ Hdel].
    unfold can_delete_member in Hdel.
    rewrite (bool_decide_eq_false_2 (role m <> owner)) in Hdel
      by (intros H; by apply H).
    rewrite andb_false_r, orb_false_r in Hdel.
    apply andb_true_iff in Hdel as [Hacc _]. rewrite Hp in Hacc.
    apply owner_access_row in Hacc as (o & Ho & Hop & Hou & Hor).
    exists o. split; [|done].
    apply list_elem_of_In, filter_In. split; [by apply list_elem_of_In|].
    by rewrite (own_owner_row_kept db uid o Hou Hor), andb_false_r.
  - exists m. split; [|done].
    apply list_elem_of_In, filter_In. split; [by apply list_elem_of_In|].
    by rewrite Hdel.
Qed.

(** When the update goes through, the rows it rewrites were not owner
    rows and are not owner rows afterwards. *)
Lemma update_rows_spec db uid (hit : ProjectMember -> bool) (r : MemberRole)
    (rows : list ProjectMember) :
  (forall m, hit m = true -> can_update_member db uid m = true) ->
  existsb (fun m => hit m && negb (can_update_member db uid (set_role r m))) rows
    = false ->
  List.filter (fun m => bool_decide (role m = owner))
              ((fun m => if hit m then set_role r m else m) <$> rows)
  = List.filter (fun m => bool_decide (role m = owner)) rows.
Proof.
  intros Hhit. induction rows as [|m rows IH]; [done|].
  cbn [existsb]. intros Hex. apply orb_false_iff in Hex as [Hm Hex].
  rewrite fmap_cons. cbn [List.filter]. rewrite (IH Hex).
  destruct (hit m) eqn:Hh; [|done].
  cbn in Hm. apply negb_false_iff in Hm.
  pose proof (Hhit m Hh) as Hold.
  unfold can_update_member in Hm, Hold.
  apply andb_true_iff in Hm as [_ Hm], Hold as [_ Hold].
  apply bool_decide_eq_true in Hm, Hold.
  by rewrite !bool_decide_eq_false_2.
Qed.

Lemma update_member_role_owner_rows uid memberId r db :
  owner_rows (update_member_role uid memberId r db).1 = owner_rows db.
Proof.
  unfold update_member_role.
  destruct (existsb _ _) eqn:Hex; [done|].
  unfold owner_rows. cbn [fst project_members with_members].
  apply (update_rows_spec db uid
           (fun m => bool_decide (mem_id m = memberId) && can_update_member db uid m));
    [|exact Hex].
  intros m Hm. by apply andb_true_iff in Hm as [_ ?].
Qed.

Lemma updateMemberRole_db uid memberId r db members :
  (updateMemberRole uid memberId r db members).1.1
  = (update_member_role uid memberId r db).1.
Proof.
  unfold updateMemberRole.
  by destruct (update_member_role uid memberId r db) as [db' [e|]].
Qed.

Lemma has_owner_owner_rows db db' p :
  owner_rows db' = owner_rows db -> has_owner db p = true -> has_owner db' p = true.
Proof.
  intros Heq. rewrite !has_owner_iff. intros (m & Hin & Hp & Hr).
  exists m. split; [|done].
  assert (Hm : In m (owner_rows db)).
  { apply filter_In. split; [by apply list_elem_of_In|].
    by apply bool_decide_eq_true_2. }
  rewrite <- Heq in Hm. apply filter_In in Hm as [Hm _].
  by apply list_elem_of_In.
Qed.

Lemma has_owner_more db (extra : list ProjectMember) p :
  has_owner db p = true ->
  has_owner (with_members db (project_members db ++ extra)) p = true.
Proof.
  unfold has_owner. cbn [project_members with_members].
  rewrite existsb_app. by intros ->.
Qed.

Lemma step_keeps_owners db op :
  every_project_has_owner db -> every_project_has_owner (step db op).
Proof.
  intros Hinv. destruct op; cbn [step].
  - (* CreateProject *)
    unfold insert_project. destruct (_ || _); [exact Hinv|].
    intros q Hq. cbn [fst projects] in Hq.
    unfold has_owner. cbn [fst project_members]. rewrite existsb_app.
    apply elem_of_app in Hq as [Hq|Hq].
    + apply Hinv in Hq. unfold has_owner in Hq. by rewrite Hq.
    + apply list_elem_of_singleton in Hq. subst q. cbn.
      unfold is_owner_of. cbn. rewrite !bool_decide_eq_true_2 by done.
      by rewrite orb_true_r.
  - (* DeleteProject *)
    unfold delete_project. destruct (has_project_access _ _ _ _); [|exact Hinv].
    intros q Hq. cbn [fst projects] in Hq.
    apply list_elem_of_In, filter_In in Hq as [Hq Hne].
    apply negb_true_iff, bool_decide_eq_false in Hne.
    apply list_elem_of_In, Hinv, has_owner_iff in Hq as (m & Hin & Hp & Hr).
    apply has_owner_iff. exists m. split; [|done].
    cbn [fst project_members].
    apply list_elem_of_In, filter_In. split; [by apply list_elem_of_In|].
    apply negb_true_iff, bool_decide_eq_false. by rewrite Hp.
  - (* AddMember *)
    unfold insert_member. destruct (negb _); [exact Hinv|].
    destruct (existsb _ _); [exact Hinv|].
    intros q Hq. cbn [fst]. apply has_owner_more. by apply Hinv.
  - (* UpdateMemberRole *)
    rewrite updateMemberRole_db.
    intros q Hq.
    assert (Hp : projects (update_member_role uid memberId r db).1 = projects db).
    { unfold update_member_role. by destruct (existsb _ _). }
    rewrite Hp in Hq.
    apply (has_owner_owner_rows db _ _ (update_member_role_owner_rows uid memberId r db)).
    by apply Hinv.
  - (* RemoveMember *)
    intros q Hq. unfold removeMember, delete_member. cbn [fst] in *.
    apply (delete_keeps_owner db uid (fun m => bool_decide (mem_id m = memberId))).
    by apply Hinv.
  - (* LeaveProject *)
    intros q Hq. unfold leaveProject, delete_membership. cbn [fst] in *.
    apply (delete_keeps_owner db uid
             (fun m => bool_decide (mem_project_id m = projectId)
                       && bool_decide (user_id m = uid))).
    by apply Hinv.
Qed.

Lemma run_keeps_owners ops db :
  every_project_has_owner db -> every_project_has_owner (run ops db).
Proof.
  revert db. induction ops as [|op ops IH]; intros db Hinv; [done|].
  cbn. apply IH. by apply step_keeps_owners.
Qed.

Lemma own_owner_rows_stay db uid (sel : ProjectMember -> bool) :
  List.filter (fun m => bool_decide (user_id m = uid) && bool_decide (role m = owner))
    (List.filter (fun m => negb (sel m && can_delete_member db uid m))
                 (project_members db))
  = List.filter (fun m => bool_decide (user_id m = uid) && bool_decide (role m = owner))
                (project_members db).
Proof.
  induction (project_members db) as [|m rows IH]; [done|].
  cbn [List.filter].
  destruct (bool_decide (user_id m = uid) && bool_decide (role m = owner)) eqn:Hm.
  - apply andb_true_iff in Hm as [Hu Hr].
    apply bool_decide_eq_true in Hu, Hr.
    rewrite (own_owner_row_kept db uid m Hu Hr), andb_false_r.
    cbn [negb List.filter].
    rewrite !bool_decide_eq_true_2 by done. cbn. by rewrite IH.
  - destruct (negb _); [|done]. cbn [List.filter]. by rewrite Hm.
Qed.

End owners.

(** C9: from the empty database, after any sequence of project and
    membership requests, every project has a member with role [owner].
    The role update never touches a row whose role is [owner] and makes
    no new one; a user's own rows with role [owner] survive each of the
    two delete requests (remove a member, leave a project) made by that
    user. *)
Theorem projects_keep_an_owner :
  (forall ops, every_project_has_owner (run ops empty_db)) /\
  (forall uid memberId r db members,
     owner_rows (updateMemberRole uid memberId r db members).1.1 = owner_rows db) /\
  (forall uid memberId db members,
     let own m := bool_decide (user_id m = uid) && bool_decide (role m = owner) in
     List.filter own (project_members (removeMember uid memberId db members).1.1)
     = List.filter own (project_members db)) /\
  (forall uid projectId db open_project,
     let own m := bool_decide (user_id m = uid) && bool_decide (role m = owner) in
     List.filter own
       (project_members (leaveProject (Some uid) projectId db open_project).1.1)
     = List.filter own (project_members db)).
Proof.
  repeat split.
  - intros ops. apply run_keeps_owners. intros p Hp. by apply elem_of_nil in Hp.
  - intros uid memberId r db members. rewrite updateMemberRole_db.
    apply update_member_role_owner_rows.
  - intros uid memberId db members own. unfold removeMember, delete_member.
    cbn [fst project_members with_members].
    apply (own_owner_rows_stay db uid (fun m => bool_decide (mem_id m = memberId))).
  - intros uid projectId db open_project own. unfold leaveProject, delete_membership.
    cbn [fst project_members with_members].
    apply (own_owner_rows_stay db uid
             (fun m => bool_decide (mem_project_id m = projectId)
                       && bool_decide (user_id m = uid))).
Qed.

(** * Outcomes of a publish run *)

(** When the insert into [publishes] fails, the run still answers with
    success, and the answer names no record. *)
Lemma publish_insert_failure_succeeds :
  let o := sample_outcomes (Some "insert failed") in
  let r := serve (fun _ _ _ s => s) "" o sample_world sample_request in
  status r.2 = 200%nat /\ is_success r.2 = true /\ publish_id_of r.2 = None /\
  publishes (database r.1) = [] /\
  ~ all_or_nothing r o.
Proof.
  vm_compute. repeat split; try reflexivity.
  intros [H _]. destruct H as [H _]; [|discriminate H].
  right. right. discriminate.
Qed.

(** C2, as the code has it. After the documents are selected:
    an error while the pages and the archive are made, or a failed
    upload, is answered with status 500 and leaves the database and the
    bucket as they were; a failed insert of the Publish record is only
    logged: the answer is still a success with status 200 but carries no
    publish id, and no record is stored; when every step succeeds the
    answer carries the id of the one record that was added. *)
Theorem publish_selected_outcomes
    (regex_replace : RegexReplace) (defaultStyles : string)
    (o : Outcomes) (w : World) (user : string) (project : Project)
    (template : string) (docs : list Document) :
  let r := publish_selected regex_replace defaultStyles o w user project template docs in
  match bundle_error o, upload_error o, insert_error o with
  | Some _, _, _ | None, Some _, _ =>
      status r.2 = 500%nat /\ is_success r.2 = false /\ r.1 = w
  | None, None, Some _ =>
      status r.2 = 200%nat /\ is_success r.2 = true /\ publish_id_of r.2 = None /\
      database r.1 = database w
  | None, None, None =>
      status r.2 = 200%nat /\ is_success r.2 = true /\
      publish_id_of r.2 = Some (new_publish_id o) /\
      exists record,
        publishes (database r.1) = publishes (database w) ++ [record] /\
        pub_id record = new_publish_id o /\
        pub_project_id record = proj_id project /\
        published_by record = user /\
        meta_document_count record = length docs
  end.
Proof.
  intros r. subst r. unfold publish_selected.
  destruct (bundle_error o) as [msg|]; [done|].
  destruct (upload_error o) as [e|]; [done|].
  destruct (insert_error o) as [e|]; cbn.
  - by destruct w as [[] ?].
  - repeat split. eexists. by repeat split.
Qed.

(** * Moving a document and the cycles it can make *)

Section move.

Variables (docs : list Document) (documentId : string)
          (newParentId : option string) (newSortOrder : Z).

Local Abbreviation moved := (updated documentId (reparent newParentId newSortOrder) docs).

(** The links after the move: the old ones of the other documents, and
    the new link of the moved one. *)
Lemma moved_edge c p :
  parent_edge moved c p ->
  (c <> documentId /\ parent_edge docs c p)
  \/ (c = documentId /\ newParentId = Some p).
Proof.
  intros (d' & Hin & Hid & Hpar). unfold updated in Hin.
  apply list_elem_of_fmap in Hin as (d & -> & Hd).
  destruct (String.eqb_spec (doc_id d) documentId) as [E|E].
  - right. cbn in *. split; congruence.
  - left. split; [congruence|]. by exists d.
Qed.

(** A path to the moved document can be cut at its first visit there,
    and up to that point it runs along old links. *)
Lemma moved_path_to_target a :
  rtc (parent_edge moved) a documentId -> rtc (parent_edge docs) a documentId.
Proof.
  revert a. apply rtc_ind_l; [constructor|]. intros a y Hay _ IH.
  destruct (decide (a = documentId)) as [->|Hne]; [constructor|].
  apply moved_edge in Hay as [[_ Hold]|[Heq _]]; [|done].
  by eapply rtc_l.
Qed.

Lemma moved_path_split x y :
  tc (parent_edge moved) x y ->
  tc (parent_edge docs) x y
  \/ (rtc (parent_edge moved) x documentId
      /\ exists p, newParentId = Some p /\ rtc (parent_edge moved) p y).
Proof.
  induction 1 as [x y Hxy | x z y Hxz Hzy IH].
  - apply moved_edge in Hxy as [[_ Hold]|[-> Hnew]].
    + left. by apply tc_once.
    + right. split; [constructor|]. exists y. split; [done | constructor].
  - pose proof Hxz as Hxz'.
    apply moved_edge in Hxz as [[Hne Hold]|[-> Hnew]].
    + destruct IH as [IH|[IH1 IH2]].
      * left. by eapply tc_l.
      * right. split; [by eapply rtc_l | done].
    + right. split; [constructor|]. exists z. split; [done|]. by apply tc_rtc.
Qed.

(** A move to a parent that is neither the document nor one of its
    descendants makes no cycle. *)
Lemma moved_acyclic :
  acyclic docs ->
  newParentId <> Some documentId ->
  (forall p, newParentId = Some p -> ~ ancestor docs documentId p) ->
  acyclic moved.
Proof.
  intros Hacyc Hself Hdesc x Hx. unfold ancestor in *.
  apply moved_path_split in Hx as [Hx|(Hx1 & p & Hp & Hx2)].
  - by apply (Hacyc x).
  - assert (Hpi : rtc (parent_edge docs) p documentId).
    { apply moved_path_to_target. by etrans. }
    apply rtc_tc in Hpi as [->|Hpi]; [done|].
    by apply (Hdesc p Hp).
Qed.

End move.

(** * Lists: filters, binds and the stable sort *)

Section list_facts.

Context {A : Type}.

Lemma filter_split (P Q R : A -> Prop)
    `{!forall x, Decision (P x), !forall x, Decision (Q x), !forall x, Decision (R x)}
    (l : list A) :
  (forall x, x ∈ l -> R x <-> P x \/ Q x) ->
  (forall x, x ∈ l -> P x -> Q x -> False) ->
  filter R l ≡ₚ filter P l ++ filter Q l.
Proof.
  induction l as [|x l IH]; intros HR Hdisj; [done|].
  assert (IH' : filter R l ≡ₚ filter P l ++ filter Q l).
  { apply IH; intros y Hy; [apply HR | apply Hdisj]; by right. }
  specialize (HR x ltac:(left)). specialize (Hdisj x ltac:(left)).
  rewrite !filter_cons.
  destruct (decide (P x)) as [HP|HP], (decide (Q x)) as [HQ|HQ];
    destruct (decide (R x)) as [Hr|Hr]; try tauto.
  - by rewrite IH'.
  - rewrite IH'. by rewrite <- Permutation_middle.
Qed.

Lemma filter_ext_in (P Q : A -> Prop)
    `{!forall x, Decision (P x), !forall x, Decision (Q x)} (l : list A) :
  (forall x, x ∈ l -> P x <-> Q x) -> filter P l = filter Q l.
Proof.
  induction l as [|x l IH]; intros Hext; [done|].
  rewrite !filter_cons, IH by (intros y Hy; apply Hext; by right).
  specialize (Hext x ltac:(left)).
  destruct (decide (P x)), (decide (Q x)); tauto.
Qed.

Lemma filter_none (P : A -> Prop) `{!forall x, Decision (P x)} (l : list A) :
  (forall x, x ∈ l -> ~ P x) -> filter P l = [].
Proof.
  induction l as [|x l IH]; intros Hno; [done|].
  rewrite filter_cons_False by (apply Hno; left).
  apply IH. intros y Hy. apply Hno. by right.
Qed.

Lemma filter_all (P : A -> Prop) `{!forall x, Decision (P x)} (l : list A) :
  (forall x, x ∈ l -> P x) -> filter P l = l.
Proof.
  induction l as [|x l IH]; intros Hall; [done|].
  rewrite filter_cons_True by (apply Hall; left).
  f_equal. apply IH. intros y Hy. apply Hall. by right.
Qed.

Lemma bind_app_perm {B} (f g : A -> list B) (l : list A) :
  l ≫= (fun c => f c ++ g c) ≡ₚ (l ≫= f) ++ (l ≫= g).
Proof.
  induction l as [|c l IH]; [done|].
  rewrite !bind_cons, IH.
  rewrite <- !app_assoc. apply Permutation_app_head.
  rewrite !app_assoc. apply Permutation_app_tail, Permutation_app_comm.
Qed.

Lemma bind_nil_fun {B} (l : list A) : l ≫= (fun _ => @nil B) = [].
Proof. induction l as [|c l IH]; [done|]. by rewrite bind_cons, IH. Qed.

Lemma bind_perm_ext {B} (f g : A -> list B) (l : list A) :
  (forall c, c ∈ l -> f c ≡ₚ g c) -> l ≫= f ≡ₚ l ≫= g.
Proof.
  induction l as [|c l IH]; intros Hfg; [done|].
  rewrite !bind_cons, (Hfg c) by left.
  apply Permutation_app_head, IH. intros y Hy. apply Hfg. by right.
Qed.

Lemma insert_sorted_perm (key : A -> Z) (x : A) (l : list A) :
  insert_sorted key x l ≡ₚ x :: l.
Proof.
  induction l as [|y l IH]; [done|]. cbn.
  destruct (key x <=? key y)%Z; [done|].
  rewrite IH. apply perm_swap.
Qed.

Lemma sort_by_perm (key : A -> Z) (l : list A) : sort_by key l ≡ₚ l.
Proof.
  induction l as [|x l IH]; [done|].
  change (sort_by key (x :: l)) with (insert_sorted key x (sort_by key l)).
  by rewrite insert_sorted_perm, IH.
Qed.

Lemma insert_sorted_fmap {B} (g : B -> A) (key : A -> Z) (x : B) (t : list B) :
  insert_sorted key (g x) (g <$> t) = g <$> insert_sorted (key ∘ g) x t.
Proof.
  induction t as [|y t IHt]; [done|]. cbn.
  destruct (key (g x) <=? key (g y))%Z; [done|]. by rewrite IHt.
Qed.

Lemma sort_by_cons (key : A -> Z) (x : A) (l : list A) :
  sort_by key (x :: l) = insert_sorted key x (sort_by key l).
Proof. done. Qed.

Lemma sort_by_fmap {B} (g : B -> A) (key : A -> Z) (l : list B) :
  sort_by key (g <$> l) = g <$> sort_by (key ∘ g) l.
Proof.
  induction l as [|x l IH]; [done|].
  rewrite fmap_cons, !sort_by_cons, IH. apply insert_sorted_fmap.
Qed.

End list_facts.

(** A filter that asks for the image under [f] to be one of [cs] is
    made of the filters for each of them. *)
Lemma filter_bind_partition {A B} `{!EqDecision A} (f : B -> option A)
    (cs : list A) (l : list B) :
  NoDup cs ->
  filter (fun d => from_option (fun c => c ∈ cs) False (f d)) l
  ≡ₚ cs ≫= (fun c => filter (fun d => f d = Some c) l).
Proof.
  induction cs as [|c cs IH]; intros Hnd.
  - rewrite filter_none; [done|].
    intros d _. destruct (f d); cbn; [apply not_elem_of_nil | tauto].
  - apply NoDup_cons in Hnd as [Hc Hnd]. rewrite bind_cons, <- IH by done.
    apply filter_split.
    + intros d _. destruct (f d) as [y|]; cbn.
      * rewrite elem_of_cons. split; intros [?|?]; auto; left; congruence.
      * split; [done | by intros [?|?]].
    + intros d _ E. rewrite E. cbn. done.
Qed.

Lemma filter_eq_singleton {A} `{!EqDecision A} (l : list A) (x : A) :
  NoDup l -> x ∈ l -> filter (fun d => Some d = Some x) l = [x].
Proof.
  induction l as [|y l IH]; intros Hn Hx; [by apply elem_of_nil in Hx|].
  apply NoDup_cons in Hn as [Hy Hn].
  apply elem_of_cons in Hx as [->|Hx].
  - rewrite filter_cons_True by done. f_equal.
    apply filter_none. intros z Hz [= ->]. done.
  - rewrite filter_cons_False by (intros [= ->]; done). by apply IH.
Qed.

Lemma insert_sorted_ext {A} (k1 k2 : A -> Z) (x : A) (t : list A) :
  k1 x = k2 x -> (forall y, y ∈ t -> k1 y = k2 y) ->
  insert_sorted k1 x t = insert_sorted k2 x t.
Proof.
  intros Hx. induction t as [|y t IH]; intros Ht; [done|]. cbn.
  rewrite Hx, (Ht y) by left.
  destruct (k2 x <=? k2 y)%Z; [done|].
  f_equal. apply IH. intros z Hz. apply Ht. by right.
Qed.

Lemma sort_by_ext_in {A} (k1 k2 : A -> Z) (l : list A) :
  (forall x, x ∈ l -> k1 x = k2 x) -> sort_by k1 l = sort_by k2 l.
Proof.
  induction l as [|x l IH]; intros Hk; [done|].
  rewrite !sort_by_cons, IH by (intros y Hy; apply Hk; by right).
  apply insert_sorted_ext; [apply Hk; left|].
  intros y Hy. rewrite sort_by_perm in Hy. apply Hk. by right.
Qed.

Lemma bind_nil_inv {A B} (f : A -> list B) (l : list A) :
  l ≫= f = [] -> forall c, c ∈ l -> f c = [].
Proof.
  induction l as [|x l IH]; intros Hnil c Hc; [by apply elem_of_nil in Hc|].
  rewrite bind_cons in Hnil. apply app_eq_nil in Hnil as [Hx Hl].
  apply elem_of_cons in Hc as [->|Hc]; [done | by apply IH].
Qed.

(** * The forest that [buildDocumentTree] returns *)

Section lookup.

Implicit Types (l docs : list Document) (d : Document) (i : string).

Lemma find_doc_Some docs i d :
  find_doc docs i = Some d -> d ∈ docs /\ doc_id d = i.
Proof.
  unfold find_doc. intros H. apply find_some in H as [Hin Heq].
  split; [by apply list_elem_of_In | by apply String.eqb_eq].
Qed.

Lemma find_doc_elem docs d :
  NoDup (doc_id <$> docs) -> d ∈ docs -> find_doc docs (doc_id d) = Some d.
Proof.
  unfold find_doc. induction docs as [|x docs IH]; intros Hnd Hin.
  - by apply elem_of_nil in Hin.
  - rewrite fmap_cons in Hnd. apply NoDup_cons in Hnd as [Hx Hnd].
    cbn. destruct (String.eqb_spec (doc_id x) (doc_id d)) as [E|E].
    + apply elem_of_cons in Hin as [->|Hin]; [done|].
      exfalso. apply Hx. rewrite E. by apply list_elem_of_fmap_2.
    + apply elem_of_cons in Hin as [->|Hin]; [done|]. by apply IH.
Qed.

Lemma find_doc_is_Some docs i :
  i ∈ doc_id <$> docs -> is_Some (find_doc docs i).
Proof.
  intros Hi. apply list_elem_of_fmap in Hi as (d & -> & Hd).
  unfold find_doc. destruct (find _ docs) eqn:E; [done|].
  apply list_elem_of_In in Hd.
  apply (find_none _ _ E), String.eqb_neq in Hd. done.
Qed.

Lemma doc_id_inj docs d d' :
  NoDup (doc_id <$> docs) -> d ∈ docs -> d' ∈ docs -> doc_id d = doc_id d' -> d = d'.
Proof.
  intros Hnd Hd Hd' E.
  pose proof (find_doc_elem docs d Hnd Hd) as H1.
  pose proof (find_doc_elem docs d' Hnd Hd') as H2.
  rewrite E in H1. congruence.
Qed.

Lemma first_pass_snoc l d :
  first_pass (l ++ [d]) = <[doc_id d := mkNode d []]> (first_pass l).
Proof. unfold first_pass. by rewrite foldl_snoc. Qed.

(** The map has a cell for the ids of the list and for no other key. *)
Lemma first_pass_dom l i :
  is_Some (first_pass l !! i) <-> i ∈ doc_id <$> l.
Proof.
  induction l as [|d l IH] using rev_ind.
  - cbn. rewrite lookup_empty. split; [by intros [? ?]|].
    intros H. by apply elem_of_nil in H.
  - rewrite first_pass_snoc, fmap_app, elem_of_app, lookup_insert_is_Some', IH.
    cbn. rewrite list_elem_of_singleton. split; intros [?|?]; subst; auto.
Qed.

Lemma first_pass_lookup l d :
  NoDup (doc_id <$> l) -> d ∈ l -> first_pass l !! doc_id d = Some (mkNode d []).
Proof.
  induction l as [|x l IH] using rev_ind; intros Hnd Hin.
  - by apply elem_of_nil in Hin.
  - rewrite fmap_app in Hnd. apply NoDup_app in Hnd as (Hnd & Hx & _).
    rewrite first_pass_snoc.
    apply elem_of_app in Hin as [Hin|Hin].
    + rewrite lookup_insert_ne; [by apply IH|].
      intros E. apply (Hx (doc_id d)); [by apply list_elem_of_fmap_2|].
      rewrite <- E. cbn. left.
    + apply list_elem_of_singleton in Hin as ->. by rewrite lookup_insert_eq.
Qed.

End lookup.

Section passes.

Variable docs : list Document.

Lemma attachable_same_keys (m : gmap string Node) d :
  (forall i, is_Some (m !! i) <-> is_Some (first_pass docs !! i)) ->
  attachable m d = attachable (first_pass docs) d.
Proof.
  intros Hdom. unfold attachable. destruct (parent_id d) as [p|]; [|done].
  f_equal. apply bool_decide_ext, Hdom.
Qed.

Lemma tree_parent_Some d p :
  tree_parent docs d = Some p ->
  parent_id d = Some p /\ p <> "" /\ p ∈ doc_id <$> docs.
Proof.
  unfold tree_parent, attachable. destruct (parent_id d) as [q|]; [|done].
  destruct (String.eqb_spec q "") as [|Hq]; [done|]. cbn.
  case_bool_decide as Hdom; [|done]. intros [= ->].
  by apply first_pass_dom in Hdom.
Qed.

(** The state of the second pass after a prefix [l] of the list: every
    cell has got the documents of [l] that are attached to it, in
    their order, and [roots] the others. *)
Lemma second_pass_prefix l :
  let st := foldl attach (first_pass docs, []) l in
  (forall i, st.1 !! i
     = (fun n => mkNode (node_doc n)
                   (node_children n
                    ++ (doc_id <$> filter (fun d => tree_parent docs d = Some i) l)))
         <$> first_pass docs !! i)
  /\ st.2 = doc_id <$> filter (fun d => tree_parent docs d = None) l.
Proof.
  induction l as [|x l IH] using rev_ind.
  - cbn. split; [|done]. intros i.
    destruct (first_pass docs !! i) as [[d c]|]; [|done].
    cbn. by rewrite app_nil_r.
  - rewrite foldl_snoc. destruct IH as [IH1 IH2].
    set (st := foldl attach (first_pass docs, []) l) in *.
    assert (Hatt : attachable st.1 x = attachable (first_pass docs) x).
    { apply attachable_same_keys. intros i. rewrite IH1. apply fmap_is_Some. }
    unfold attach. rewrite Hatt.
    destruct (attachable (first_pass docs) x) eqn:Hx; cbn [fst snd].
    + assert (Htp : tree_parent docs x = parent_id x)
        by (unfold tree_parent; by rewrite Hx).
      destruct (parent_id x) as [p|] eqn:Hp;
        [|unfold attachable in Hx; by rewrite Hp in Hx].
      change (default "" (Some p)) with p. split.
      * intros i. rewrite lookup_alter, filter_app, fmap_app.
        destruct (decide (p = i)) as [->|Hne].
        -- rewrite filter_cons_True, filter_nil by done.
           rewrite IH1. destruct (first_pass docs !! i) as [n|]; [|done].
           cbn. unfold push. cbn. by rewrite <- app_assoc.
        -- rewrite filter_cons_False, filter_nil, app_nil_r by congruence.
           apply IH1.
      * rewrite filter_app, filter_cons_False, filter_nil, app_nil_r by congruence.
        exact IH2.
    + assert (Htp : tree_parent docs x = None)
        by (unfold tree_parent; by rewrite Hx).
      split.
      * intros i.
        rewrite filter_app, filter_cons_False, filter_nil, app_nil_r by congruence.
        apply IH1.
      * rewrite filter_app, filter_cons_True, filter_nil, fmap_app by done.
        by rewrite IH2.
Qed.

Hypothesis Hnd : NoDup (doc_id <$> docs).

Lemma second_pass_lookup d :
  d ∈ docs ->
  (second_pass (first_pass docs) docs).1 !! doc_id d
  = Some (mkNode d (doc_id <$> children_of docs (doc_id d))).
Proof.
  intros Hd. unfold second_pass.
  rewrite (proj1 (second_pass_prefix docs)), first_pass_lookup by done.
  done.
Qed.

Lemma second_pass_roots :
  (second_pass (first_pass docs) docs).2 = doc_id <$> roots_of docs.
Proof. apply (proj2 (second_pass_prefix docs)). Qed.

End passes.

Section levels.

Variable docs : list Document.
Hypothesis Hnd : NoDup (doc_id <$> docs).

Lemma NoDup_docs : NoDup docs.
Proof. by eapply NoDup_fmap_1. Qed.

Lemma parent_doc_Some d p :
  parent_doc docs d = Some p -> tree_parent docs d = Some (doc_id p) /\ p ∈ docs.
Proof.
  unfold parent_doc. destruct (tree_parent docs d) as [i|]; [|done]. cbn.
  intros H. apply find_doc_Some in H as [Hin <-]. done.
Qed.

Lemma parent_doc_child d x :
  x ∈ docs -> parent_doc docs d = Some x <-> tree_parent docs d = Some (doc_id x).
Proof.
  intros Hx. split.
  - intros H. by apply parent_doc_Some in H as [? _].
  - intros H. unfold parent_doc. rewrite H. cbn. by apply find_doc_elem.
Qed.

Lemma parent_doc_None d :
  parent_doc docs d = None <-> tree_parent docs d = None.
Proof.
  unfold parent_doc. destruct (tree_parent docs d) as [i|] eqn:E; [|done]. cbn.
  apply tree_parent_Some in E as (_ & _ & Hi).
  apply find_doc_is_Some in Hi as [y Hy]. rewrite Hy. done.
Qed.

Lemma up_elem k d y : d ∈ docs -> up docs k d = Some y -> y ∈ docs.
Proof.
  revert y. induction k as [|k IH]; intros y Hd; cbn.
  - by intros [= <-].
  - destruct (up docs k d) as [z|]; [|done]. cbn.
    intros H. by apply parent_doc_Some in H as [_ ?].
Qed.

Lemma level_0 x : x ∈ docs -> level docs 0 x = [x].
Proof.
  intros Hx. unfold level. cbn [up].
  by apply filter_eq_singleton; [apply NoDup_docs|].
Qed.

Lemma level_1 x : x ∈ docs -> level docs 1 x = children_of docs (doc_id x).
Proof.
  intros Hx. unfold level, children_of. apply filter_ext_in.
  intros d _. cbn. by apply parent_doc_child.
Qed.

Lemma NoDup_children i : NoDup (children_of docs i).
Proof. apply NoDup_filter, NoDup_docs. Qed.

Lemma children_elem i c : c ∈ children_of docs i -> c ∈ docs.
Proof. intros H. by apply list_elem_of_filter in H as [_ ?]. Qed.

Lemma level_S k x :
  x ∈ docs ->
  level docs (S k) x ≡ₚ children_of docs (doc_id x) ≫= level docs k.
Proof.
  intros Hx. unfold level at 2.
  rewrite <- (filter_bind_partition (up docs k)) by apply NoDup_children.
  unfold level. erewrite filter_ext_in; [done|].
  intros d Hd. cbn [up]. destruct (up docs k d) as [c|] eqn:Hc; cbn; [|done].
  unfold children_of. rewrite list_elem_of_filter, parent_doc_child by done.
  apply (up_elem k d c Hd) in Hc. tauto.
Qed.

Lemma levels_S n x :
  x ∈ docs ->
  levels docs (S n) x ≡ₚ x :: (children_of docs (doc_id x) ≫= levels docs n).
Proof.
  intros Hx. induction n as [|n IH].
  - cbn [levels]. rewrite level_0, bind_nil_fun by done. done.
  - change (levels docs (S (S n)) x)
      with (levels docs (S n) x ++ level docs (S n) x).
    rewrite IH, level_S by done. cbn [levels].
    rewrite bind_app_perm. done.
Qed.

Lemma NoDup_roots : NoDup (roots_of docs).
Proof. apply NoDup_filter, NoDup_docs. Qed.

Lemma depth_level_roots k :
  depth_level docs k ≡ₚ roots_of docs ≫= level docs k.
Proof.
  unfold level.
  rewrite <- (filter_bind_partition (up docs k)) by apply NoDup_roots.
  unfold depth_level. erewrite filter_ext_in; [done|].
  intros d Hd. cbn beta. destruct (up docs k d) as [r|] eqn:Hr; cbn; [|done].
  unfold roots_of. rewrite list_elem_of_filter.
  apply (up_elem k d r Hd) in Hr. tauto.
Qed.

Lemma depth_levels_roots n :
  depth_levels docs n ≡ₚ roots_of docs ≫= levels docs n.
Proof.
  induction n as [|n IH]; cbn [depth_levels levels].
  - by rewrite bind_nil_fun.
  - by rewrite bind_app_perm, IH, depth_level_roots.
Qed.

Lemma alive_split k :
  alive docs k ≡ₚ depth_level docs k ++ alive docs (S k).
Proof.
  unfold alive, depth_level. apply filter_split.
  - intros d _. cbn [up]. destruct (up docs k d) as [r|]; cbn.
    + rewrite <- parent_doc_None.
      destruct (parent_doc docs r) as [q|].
      * split; [intros _; right; by eexists | intros _; by eexists].
      * split; [intros _; by left | intros _; by eexists].
    + split; [by intros [? ?] | by intros [?|[? ?]]].
  - intros d _. cbn [up]. destruct (up docs k d) as [r|]; cbn; [|done].
    rewrite <- parent_doc_None. intros -> [? ?]. done.
Qed.

Lemma docs_split n : docs ≡ₚ depth_levels docs n ++ alive docs n.
Proof.
  induction n as [|n IH].
  - cbn. unfold alive. rewrite filter_all; [done|]. intros d _. by eexists.
  - cbn [depth_levels]. rewrite <- app_assoc, <- alive_split. exact IH.
Qed.

End levels.

Section build.

Variable docs : list Document.
Hypothesis Hnd : NoDup (doc_id <$> docs).

Local Abbreviation m := (tree_store docs).

Lemma sortNodes_unfold fuel (nodes : list string) :
  sortNodes (S fuel) m nodes
  = mapM (fun r => n ← m !! r;
                   cs ← sortNodes fuel m (node_children n);
                   Some (TreeNode (node_doc n) cs))
         (sort_by (ref_order m) nodes).
Proof. done. Qed.

Lemma ref_order_doc x : x ∈ docs -> ref_order m (doc_id x) = sort_order x.
Proof.
  intros Hx. unfold ref_order, tree_store. by rewrite second_pass_lookup.
Qed.

Lemma sorted_refs (xs : list Document) :
  (forall x, x ∈ xs -> x ∈ docs) ->
  sort_by (ref_order m) (doc_id <$> xs) = doc_id <$> sort_by sort_order xs.
Proof.
  intros Hxs. rewrite sort_by_fmap. f_equal.
  apply sort_by_ext_in. intros x Hx. cbn. by apply ref_order_doc, Hxs.
Qed.

(** With enough fuel for the levels below them, the nodes of [xs] are
    built in the order of the sort, and the trees hold what lies
    below [xs]. *)
Lemma sortNodes_spec f :
  forall xs : list Document,
    (forall x, x ∈ xs -> x ∈ docs /\ level docs f x = []) ->
    exists trees,
      sortNodes (S f) m (doc_id <$> xs) = Some trees
      /\ tn_doc <$> trees = sort_by sort_order xs
      /\ flatten_forest trees ≡ₚ xs ≫= levels docs f
      /\ (forall t, t ∈ forest_nodes trees -> node_ok docs t).
Proof.
  induction f as [|f IH]; intros xs Hxs.
  - destruct xs as [|x xs].
    + exists []. split_and!; try done.
      intros t Ht. by apply elem_of_nil in Ht.
    + destruct (Hxs x ltac:(left)) as [Hx Hl].
      by rewrite level_0 in Hl.
  - rewrite sortNodes_unfold, sorted_refs by (intros x Hx; by apply Hxs).
    assert (Hperm : xs ≫= levels docs (S f)
                    ≡ₚ sort_by sort_order xs ≫= levels docs (S f))
      by (by rewrite sort_by_perm).
    setoid_rewrite Hperm.
    assert (Hys : forall x, x ∈ sort_by sort_order xs ->
                            x ∈ docs /\ level docs (S f) x = []).
    { intros x Hx. rewrite sort_by_perm in Hx. by apply Hxs. }
    clear Hperm Hxs. induction (sort_by sort_order xs) as [|x ys IHys].
    + exists []. split_and!; try done.
      intros t Ht. by apply elem_of_nil in Ht.
    + destruct (Hys x ltac:(left)) as [Hx Hl].
      destruct IHys as (ts & Hts & Hdocs & Hflat & Hok).
      { intros y Hy. apply Hys. by right. }
      destruct (IH (children_of docs (doc_id x))) as (cs & Hcs & Hcdocs & Hcflat & Hcok).
      { intros c Hc. split; [by eapply children_elem|].
        apply (bind_nil_inv (level docs f) (children_of docs (doc_id x))); [|done].
        apply Permutation_nil_r. by rewrite <- level_S, Hl. }
      exists (TreeNode x cs :: ts). split_and!.
      * rewrite fmap_cons. cbn [mapM].
        pose proof (second_pass_lookup docs Hnd x Hx) as Hm.
        fold (tree_store docs) in Hm.
        rewrite Hm. cbn [mbind option_bind node_children node_doc].
        rewrite Hcs. cbn [mbind option_bind]. rewrite Hts. done.
      * rewrite fmap_cons, Hdocs. done.
      * unfold flatten_forest in *. rewrite !bind_cons. cbn [flatten tn_doc children].
        rewrite Hflat, levels_S, Hcflat by done. done.
      * intros t Ht. unfold forest_nodes in *. rewrite bind_cons in Ht.
        apply elem_of_app in Ht as [Ht|Ht]; [|by apply Hok].
        cbn [subtrees children] in Ht. apply elem_of_cons in Ht as [->|Ht].
        -- split; [done|]. cbn [tn_doc children].
           by rewrite Hcdocs, sort_by_perm.
        -- by apply Hcok.
Qed.

End build.

Section bounds.

Variable docs : list Document.
Hypothesis Hnd : NoDup (doc_id <$> docs).

Lemma up_add a b d : up docs (a + b) d = up docs a d ≫= up docs b.
Proof.
  induction b as [|b IH].
  - rewrite Nat.add_0_r. by destruct (up docs a d).
  - rewrite Nat.add_succ_r. cbn [up]. rewrite IH.
    by destruct (up docs a d).
Qed.

Lemma up_le i k d : i <= k -> is_Some (up docs k d) -> is_Some (up docs i d).
Proof.
  intros Hle. replace k with (i + (k - i)) by lia. rewrite up_add.
  destruct (up docs i d); [by eexists | by intros [? ?]].
Qed.

(** A chain of ancestors without a repetition is shorter than the
    list. *)
Lemma chain_bound k d :
  d ∈ docs -> is_Some (up docs k d) ->
  (forall i j, i < j -> j <= k -> up docs i d <> up docs j d) ->
  k < length docs.
Proof.
  intros Hd Hk Hrep.
  set (chain := (fun i => up docs i d) <$> seq 0 (S k)).
  assert (Hnodup : NoDup chain).
  { apply NoDup_fmap_2_strong; [|apply NoDup_seq].
    intros i j Hi Hj E. apply elem_of_seq in Hi, Hj.
    destruct (Nat.lt_trichotomy i j) as [Hlt|[->|Hlt]]; [|done|].
    - exfalso. apply (Hrep i j); [done | lia | done].
    - exfalso. apply (Hrep j i); [done | lia | done]. }
  assert (Hsub : forall o, o ∈ chain -> o ∈ Some <$> docs).
  { intros o Ho. apply list_elem_of_fmap in Ho as (i & -> & Hi).
    apply elem_of_seq in Hi.
    destruct (up_le i k d ltac:(lia) Hk) as [y Hy]. rewrite Hy.
    apply list_elem_of_fmap_2. by eapply up_elem. }
  pose proof (submseteq_length _ _ (NoDup_submseteq _ _ Hnodup Hsub)) as Hlen.
  unfold chain in Hlen. rewrite !length_fmap, length_seq in Hlen. lia.
Qed.

(** A chain that ends at a root has no repetition: after a repetition
    the root would come back earlier, with its parent still ahead. *)
Lemma root_chain_bound k d r :
  d ∈ docs -> up docs k d = Some r -> tree_parent docs r = None ->
  k < length docs.
Proof.
  intros Hd Hk Hr. apply (chain_bound k d Hd); [by eexists|].
  intros i j Hij Hjk E.
  destruct (up_le j k d Hjk ltac:(by eexists)) as [y Hy].
  assert (H1 : up docs (k - j) y = Some r).
  { replace k with (j + (k - j)) in Hk by lia.
    by rewrite up_add, Hy in Hk. }
  assert (H2 : up docs (i + (k - j)) d = Some r).
  { by rewrite up_add, E, Hy. }
  assert (H3 : up docs (S (i + (k - j))) d = None).
  { cbn [up]. rewrite H2. cbn. by apply parent_doc_None. }
  destruct (up_le (S (i + (k - j))) k d ltac:(lia) ltac:(by eexists)) as [z Hz].
  congruence.
Qed.

Lemma level_root_nil r :
  tree_parent docs r = None -> level docs (length docs) r = [].
Proof.
  intros Hr. apply filter_none. intros d Hd Hup.
  pose proof (root_chain_bound _ d r Hd Hup Hr). lia.
Qed.

Lemma up_tc n y z :
  y ∈ docs -> up docs (S n) y = Some z ->
  tc (parent_edge docs) (doc_id y) (doc_id z).
Proof.
  intros Hy. revert z. induction n as [|n IH]; intros z Hz.
  - cbn in Hz. apply parent_doc_Some in Hz as [Hz _].
    apply tree_parent_Some in Hz as (Hz & _ & _).
    apply tc_once. by exists y.
  - cbn [up] in Hz. destruct (up docs n y ≫= parent_doc docs) as [w|] eqn:Hw;
      [|done].
    cbn in Hz. pose proof (up_elem docs (S n) y w Hy Hw) as Hwin.
    apply parent_doc_Some in Hz as [Hz _].
    apply tree_parent_Some in Hz as (Hz & _ & _).
    eapply tc_r; [by apply IH|]. by exists w.
Qed.

(** Without a cycle, every walk upwards ends before it is as long as
    the list. *)
Lemma acyclic_alive_nil : acyclic docs -> alive docs (length docs) = [].
Proof.
  intros Hacyc. apply filter_none. intros d Hd Hk.
  pose proof (chain_bound (length docs) d Hd Hk) as Hb.
  enough (length docs < length docs) by lia. apply Hb.
  intros i j Hij Hjk E.
  destruct (up_le i (length docs) d ltac:(lia) Hk) as [y Hy].
  replace j with (i + S (j - i - 1)) in E by lia.
  rewrite up_add, Hy in E. cbn [mbind option_bind] in E.
  apply (Hacyc (doc_id y)). unfold ancestor.
  apply (up_tc (j - i - 1)); [by eapply up_elem | done].
Qed.

End bounds.

Section forest.

Variable docs : list Document.
Hypothesis Hnd : NoDup (doc_id <$> docs).

(** With distinct ids the tree is always built; it holds the documents
    that reach a root, the roots are the documents without a parent in
    the list, and the children of a node are the documents that name
    it as their parent. *)
Lemma buildDocumentTree_spec :
  exists forest,
    buildDocumentTree docs = Some forest
    /\ tn_doc <$> forest = sort_by sort_order (roots_of docs)
    /\ flatten_forest forest ++ alive docs (length docs) ≡ₚ docs
    /\ (forall t, t ∈ forest_nodes forest -> node_ok docs t).
Proof.
  destruct (sortNodes_spec docs Hnd (length docs) (roots_of docs))
    as (forest & Hbuild & Hroots & Hflat & Hok).
  { intros r Hr. apply list_elem_of_filter in Hr as [Hr Hin].
    split; [done|]. by apply level_root_nil. }
  exists forest. split_and!; try done.
  - unfold buildDocumentTree. cbn zeta. fold (tree_store docs).
    by rewrite second_pass_roots.
  - rewrite Hflat, <- depth_levels_roots by done. symmetry. by apply docs_split.
Qed.

Lemma buildDocumentTree_total : is_Some (buildDocumentTree docs).
Proof. destruct buildDocumentTree_spec as (forest & -> & _). by eexists. Qed.

End forest.

(** ** The test [acyclicb] is sound *)

Section walk.

Variable docs : list Document.
Hypothesis Hnd : NoDup (doc_id <$> docs).

Lemma parent_edge_det c p q :
  parent_edge docs c p -> parent_edge docs c q -> p = q.
Proof.
  intros (d & Hd & Hid & Hp) (d' & Hd' & Hid' & Hq).
  assert (d = d') by (apply (doc_id_inj docs); congruence).
  congruence.
Qed.

(** From a document on a cycle every walk stays on the cycle. *)
Lemma cycle_closed x y :
  tc (parent_edge docs) x x -> rtc (parent_edge docs) x y ->
  tc (parent_edge docs) y x.
Proof.
  intros Hx. revert y. apply rtc_ind_r; [done|].
  intros y z _ Hyz Hy. inversion Hy as [? ? Hyx | ? w ? Hyw Hwx]; subst.
  - by rewrite <- (parent_edge_det y x z).
  - by rewrite <- (parent_edge_det y w z).
Qed.

Lemma walk_up_endless k y :
  (forall z, rtc (parent_edge docs) y z -> exists w, parent_edge docs z w) ->
  walk_up docs k y <> None.
Proof.
  revert y. induction k as [|k IH]; intros y Hy; [done|].
  destruct (Hy y ltac:(constructor)) as (w & d & Hd & <- & Hp).
  cbn [walk_up]. rewrite find_doc_elem by done. cbn. rewrite Hp. cbn.
  apply IH. intros z Hz. apply Hy. eapply rtc_l; [|done]. by exists d.
Qed.

Lemma acyclicb_sound : acyclicb docs = true -> acyclic docs.
Proof.
  intros Hb x Hx. unfold ancestor in Hx.
  assert (Hin : exists d, d ∈ docs /\ doc_id d = x).
  { inversion Hx as [? ? (d & ? & ? & _) | ? ? ? (d & ? & ? & _) _]; subst; eauto. }
  destruct Hin as (d & Hd & <-).
  unfold acyclicb in Hb. rewrite forallb_forall in Hb.
  specialize (Hb d ltac:(by apply list_elem_of_In)).
  apply bool_decide_eq_true in Hb.
  apply (walk_up_endless (length docs) (doc_id d)); [|done].
  intros z Hz. pose proof (cycle_closed _ z Hx Hz) as Hzx.
  inversion Hzx; subst; eauto.
Qed.

End walk.

Lemma tree_parent_None docs d :
  tree_parent docs d = None <->
  (forall p, parent_id d = Some p -> p = "" \/ p ∉ doc_id <$> docs).
Proof.
  unfold tree_parent, attachable. destruct (parent_id d) as [q|]; [|done].
  destruct (String.eqb_spec q "") as [->|Hq]; cbn.
  - split; [intros _ p [= <-]; by left | done].
  - case_bool_decide as Hdom; rewrite first_pass_dom in Hdom.
    + split; [done|]. intros H. destruct (H q eq_refl); done.
    + split; [intros _ p [= <-]; by right | done].
Qed.

(** A list whose only document is its own parent has an empty forest;
    a document is hung under the parent it names also when that parent
    belongs to another project. *)
Lemma buildDocumentTree_drops_and_mixes :
  ~ tree_has_each_once [sample_doc "a" (Some "a") 0 false false] /\
  ~ tree_keeps_projects_apart
      [mkDocument "a" "p1" None "a" "" true false 0 "u1" "" "";
       mkDocument "b" "p2" (Some "a") "b" "" false false 0 "u1" "" ""].
Proof.
  split.
  - intros (forest & Hb & Hperm). vm_compute in Hb. injection Hb as <-.
    apply Permutation_length in Hperm. discriminate Hperm.
  - intros H.
    set (b := mkDocument "b" "p2" (Some "a") "b" "" false false 0 "u1" "" "").
    set (a := mkDocument "a" "p1" None "a" "" true false 0 "u1" "" "").
    specialize (H [TreeNode a [TreeNode b []]] (TreeNode a [TreeNode b []])
                  (TreeNode b [])).
    assert (Hbuild : buildDocumentTree [a; b] = Some [TreeNode a [TreeNode b []]])
      by (vm_compute; reflexivity).
    specialize (H Hbuild ltac:(left) ltac:(left)). discriminate H.
Qed.

(** C4, as the code has it: for a list with distinct ids and without a
    cycle in its parent links the tree is built and holds the documents
    of the list, each once. Its roots are the documents whose
    [parent_id] is null, empty or not an id of the list. The children of
    each node are the documents of the list that name it as their
    parent; [project_id] is not consulted, so they are documents of the
    node's project when the parent links of the list stay inside a
    project. *)
Theorem buildDocumentTree_forest (docs : list Document) :
  NoDup (doc_id <$> docs) ->
  acyclic docs ->
  exists forest,
    buildDocumentTree docs = Some forest
    /\ flatten_forest forest ≡ₚ docs
    /\ (forall d, d ∈ tn_doc <$> forest <->
          d ∈ docs /\
          forall p, parent_id d = Some p -> p = "" \/ p ∉ doc_id <$> docs)
    /\ (forall t, t ∈ forest_nodes forest ->
          tn_doc t ∈ docs /\
          forall d, d ∈ tn_doc <$> children t <->
            d ∈ docs /\ parent_id d = Some (doc_id (tn_doc t))
            /\ doc_id (tn_doc t) <> "")
    /\ ((forall d p, d ∈ docs -> p ∈ docs -> parent_id d = Some (doc_id p) ->
           project_id d = project_id p) ->
        forall t c, t ∈ forest_nodes forest -> c ∈ children t ->
          project_id (tn_doc c) = project_id (tn_doc t)).
Proof.
  intros Hnd Hacyc.
  destruct (buildDocumentTree_spec docs Hnd) as (forest & Hb & Hroots & Hflat & Hok).
  rewrite acyclic_alive_nil, app_nil_r in Hflat by done.
  assert (Hkids : forall t, t ∈ forest_nodes forest ->
            forall d, d ∈ tn_doc <$> children t <->
              d ∈ docs /\ parent_id d = Some (doc_id (tn_doc t))
              /\ doc_id (tn_doc t) <> "").
  { intros t Ht d. destruct (Hok t Ht) as [Hin Hperm].
    rewrite Hperm. unfold children_of. rewrite list_elem_of_filter. split.
    - intros [Htp Hd]. apply tree_parent_Some in Htp as (? & ? & ?). done.
    - intros (Hd & Hp & Hne). split; [|done].
      unfold tree_parent, attachable. rewrite Hp.
      destruct (String.eqb_spec (doc_id (tn_doc t)) "") as [|_]; [done|].
      rewrite bool_decide_eq_true_2; [done|].
      apply first_pass_dom. by apply list_elem_of_fmap_2. }
  exists forest. split_and!; try done.
  - intros d. rewrite Hroots, sort_by_perm. unfold roots_of.
    rewrite list_elem_of_filter, tree_parent_None. tauto.
  - intros t Ht. split; [by apply Hok | by apply Hkids].
  - intros Hproj t c Ht Hc.
    assert (Hcd : tn_doc c ∈ tn_doc <$> children t) by (by apply list_elem_of_fmap_2).
    apply (Hkids t Ht) in Hcd as (Hcin & Hp & _).
    apply Hproj; [done | by apply Hok | done].
Qed.

Lemma sample_forest_NoDup : NoDup (doc_id <$> sample_forest).
Proof. apply (bool_decide_unpack _). vm_compute. exact I. Qed.

Lemma sample_forest_acyclic : acyclic sample_forest.
Proof. apply acyclicb_sound; [apply sample_forest_NoDup | vm_compute; reflexivity]. Qed.

Lemma buildDocumentTree_forest_witness :
  exists forest, buildDocumentTree sample_forest = Some forest
                 /\ flatten_forest forest ≡ₚ sample_forest.
Proof.
  destruct (buildDocumentTree_forest sample_forest
              sample_forest_NoDup sample_forest_acyclic)
    as (forest & Hb & Hflat & _).
  exists forest. split; [exact Hb | exact Hflat].
Defined.

(** * [moveDocument] makes the move it is asked for *)

Lemma moved_ids (docs : list Document) documentId (u : DocumentUpdate) :
  doc_id <$> ((fun d => if String.eqb (doc_id d) documentId then spread d u else d)
                <$> docs)
  = doc_id <$> docs.
Proof.
  rewrite <- list_fmap_compose. apply list_fmap_ext.
  intros i d _. cbn. by destruct (String.eqb (doc_id d) documentId).
Qed.

(** A root moved under itself: the action reports success and the
    document is its own parent afterwards. *)
Lemma moveDocument_accepts_cycle :
  let s := mkState [sample_doc "a" None 0 true false] [] None false false None in
  ~ move_rejects_cycles None "a" (Some "a") 0 s.
Proof.
  intros s [Hrej _].
  specialize (Hrej "a" eq_refl (or_introl eq_refl)).
  vm_compute in Hrej. discriminate Hrej.
Qed.

(** C1, as the code has it: [moveDocument] has no cycle check. When the
    update request succeeds it rewrites [parent_id] and [sort_order] of
    the document and reports success, whatever the new parent is. If the
    documents had no cycle and the new parent is neither the document
    nor one of its descendants, they have none afterwards. *)
Theorem moveDocument_forest (documentId : string) (newParentId : option string)
    (newSortOrder : Z) (s : DocumentState) :
  NoDup (doc_id <$> documents s) ->
  let r := moveDocument None documentId newParentId newSortOrder s in
  r.2 = true
  /\ documents r.1
     = updated documentId (reparent newParentId newSortOrder) (documents s)
  /\ NoDup (doc_id <$> documents r.1)
  /\ (acyclic (documents s) ->
      newParentId <> Some documentId ->
      (forall p, newParentId = Some p -> ~ ancestor (documents s) documentId p) ->
      acyclic (documents r.1)).
Proof.
  intros Hnd r. subst r. unfold moveDocument.
  fold (updated documentId (reparent newParentId newSortOrder) (documents s)).
  assert (Hnd' : NoDup (doc_id <$> updated documentId
                          (reparent newParentId newSortOrder) (documents s)))
    by (unfold updated; by rewrite moved_ids).
  destruct (buildDocumentTree_total _ Hnd') as [tree ->]. cbn.
  split_and!; try done.
  intros Hacyc Hself Hdesc. by apply moved_acyclic.
Qed.

Lemma moveDocument_forest_witness :
  let s := mkState sample_forest [] None false false None in
  let r := moveDocument None "c" (Some "d") 5 s in
  r.2 = true /\ acyclic (documents r.1).
Proof.
  intros s r.
  destruct (moveDocument_forest "c" (Some "d") 5 s sample_forest_NoDup)
    as (Hok & _ & _ & Hacyc).
  split; [exact Hok|]. apply Hacyc.
  - exact sample_forest_acyclic.
  - discriminate.
  - intros p [= <-] Hanc. unfold ancestor in Hanc.
    inversion Hanc as [? ? (d & Hd & Hid & Hp) | ? ? ? (d & Hd & Hid & Hp) _]; subst;
      cbn in Hd;
      repeat (apply elem_of_cons in Hd as [->|Hd]; [discriminate|]);
      by apply elem_of_nil in Hd.
Defined.

(** * [deleteDocument] removes the subtree *)

Section collect.

Variable docs : list Document.
Hypothesis Hacyc : acyclic docs.

Lemma collectIds_unfold fuel (acc : gset string) (i : string) :
  collectIds (S fuel) docs acc i
  = foldl (fun acc d => acc ≫= fun ids => collectIds fuel docs ids (doc_id d))
          (Some ({[i]} ∪ acc))
          (filter (fun d => parent_id d = Some i) docs).
Proof. done. Qed.

(** The calls in progress form a chain of distinct ids, all but the
    first of them ids of documents, so the chain is no longer than the
    list and one. *)
Lemma stack_bound (i : string) (path : list string) :
  NoDup (i :: path) ->
  (exists pre root, i :: path = pre ++ [root]
                    /\ forall x, x ∈ pre -> x ∈ doc_id <$> docs) ->
  length path <= length docs.
Proof.
  intros Hnd (pre & root & Heq & Hpre).
  rewrite Heq in Hnd. apply NoDup_app in Hnd as (Hnd & _ & _).
  pose proof (submseteq_length _ _ (NoDup_submseteq _ _ Hnd Hpre)) as Hlen.
  rewrite length_fmap in Hlen.
  apply (f_equal length) in Heq. rewrite length_app in Heq. cbn in Heq. lia.
Qed.

Lemma collectIds_spec fuel :
  forall (path : list string) (i : string) (acc : gset string),
    NoDup (i :: path) ->
    (forall x, x ∈ path -> tc (parent_edge docs) i x) ->
    (exists pre root, i :: path = pre ++ [root]
                      /\ forall x, x ∈ pre -> x ∈ doc_id <$> docs) ->
    length docs + 1 <= fuel + length path ->
    exists out,
      collectIds fuel docs acc i = Some out
      /\ forall j, j ∈ out <-> j ∈ acc \/ rtc (parent_edge docs) j i.
Proof.
  induction fuel as [|fuel IH]; intros path i acc Hnd Hanc Hpre Hfuel.
  - pose proof (stack_bound i path Hnd Hpre). lia.
  - rewrite collectIds_unfold.
    assert (Hkids : forall cs (acc' : gset string),
              (forall c, c ∈ cs -> c ∈ docs /\ parent_id c = Some i) ->
              exists out,
                foldl (fun acc d => acc ≫= fun ids =>
                                      collectIds fuel docs ids (doc_id d))
                      (Some acc') cs = Some out
                /\ forall j, j ∈ out <->
                     j ∈ acc' \/ exists c, c ∈ cs /\ rtc (parent_edge docs) j (doc_id c)).
    { induction cs as [|c cs IHcs]; intros acc' Hcs.
      - exists acc'. split; [done|]. intros j. split; [by left|].
        intros [?|(c & Hc & _)]; [done | by apply elem_of_nil in Hc].
      - destruct (Hcs c ltac:(left)) as [Hc Hp].
        assert (Hedge : parent_edge docs (doc_id c) i) by (by exists c).
        destruct (IH (i :: path) (doc_id c) acc') as (out1 & Hout1 & Hspec1).
        + apply NoDup_cons. split; [|done]. intros Hin.
          apply elem_of_cons in Hin as [E|Hin].
          * apply (Hacyc i). unfold ancestor. apply tc_once. by rewrite <- E at 1.
          * apply (Hacyc (doc_id c)). unfold ancestor.
            eapply tc_l; [exact Hedge|]. by apply Hanc.
        + intros x Hx. apply elem_of_cons in Hx as [->|Hx].
          * by apply tc_once.
          * eapply tc_l; [exact Hedge|]. by apply Hanc.
        + destruct Hpre as (pre & root & Heq & Hpre).
          exists (doc_id c :: pre), root. split; [by rewrite Heq|].
          intros x Hx. apply elem_of_cons in Hx as [->|Hx];
            [by apply list_elem_of_fmap_2 | by apply Hpre].
        + cbn [length]. lia.
        + destruct (IHcs out1) as (out & Hout & Hspec).
          { intros c' Hc'. apply Hcs. by right. }
          exists out. split.
          * cbn [foldl mbind option_bind]. by rewrite Hout1.
          * intros j. rewrite Hspec, Hspec1. split.
            -- intros [[?|?]|(c' & Hc' & ?)]; eauto.
               ++ right. exists c. split; [left | done].
               ++ right. exists c'. split; [by right | done].
            -- intros [?|(c' & Hc' & Hr)]; [by left; left|].
               apply elem_of_cons in Hc' as [->|Hc']; [by left; right|].
               right. by exists c'. }
    destruct (Hkids (filter (fun d => parent_id d = Some i) docs) ({[i]} ∪ acc))
      as (out & Hout & Hspec).
    { intros c Hc. by apply list_elem_of_filter in Hc as [? ?]. }
    exists out. split; [done|]. intros j. rewrite Hspec. split.
    + intros [Hj|(c & Hc & Hr)].
      * apply elem_of_union in Hj as [Hj|Hj]; [|by left].
        apply elem_of_singleton in Hj as ->. right. constructor.
      * right. apply list_elem_of_filter in Hc as [Hp Hc].
        eapply rtc_r; [exact Hr|]. by exists c.
    + intros [Hj|Hr]; [left; apply elem_of_union; by right|].
      apply rtc_inv_r in Hr as [->|(y & Hr & (c & Hc & <- & Hp))].
      * left. apply elem_of_union. left. by apply elem_of_singleton.
      * right. exists c. split; [|done]. by apply list_elem_of_filter.
Qed.

(** On documents without a cycle [collectIds] returns, with the id it
    was given and the ids of its descendants. *)
Lemma collectIds_subtree (i : string) :
  exists out,
    collectIds (S (length docs)) docs ∅ i = Some out
    /\ forall j, j ∈ out <-> (j = i \/ ancestor docs i j).
Proof.
  destruct (collectIds_spec (S (length docs)) [] i ∅) as (out & Hout & Hspec).
  - apply NoDup_singleton.
  - intros x Hx. by apply elem_of_nil in Hx.
  - exists [], i. split; [done|]. intros x Hx. by apply elem_of_nil in Hx.
  - cbn. lia.
  - exists out. split; [done|]. intros j.
    rewrite Hspec, rtc_tc. unfold ancestor. split; [|by right].
    intros [Hj|?]; [|done]. by apply not_elem_of_empty in Hj.
Qed.

End collect.

(** On a document that is its own parent [collectIds] does not return,
    whatever the depth allowed. *)
Lemma collectIds_self_parent_endless (fuel : nat) (acc : gset string) :
  collectIds fuel [sample_doc "a" (Some "a") 0 true false] acc "a" = None.
Proof.
  revert acc. induction fuel as [|fuel IH]; intros acc; [done|].
  rewrite collectIds_unfold.
  assert (Hkids : filter (fun d => parent_id d = Some "a")
                         [sample_doc "a" (Some "a") 0 true false]
                  = [sample_doc "a" (Some "a") 0 true false])
    by (vm_compute; reflexivity).
  rewrite Hkids. cbn [foldl mbind option_bind]. apply IH.
Qed.

(** After a root has been moved under itself, deleting it removes
    nothing from the list: [collectIds] does not return, the action
    records the error and reports failure. *)
Lemma deleteDocument_cycle_keeps_all :
  let s0 := mkState [sample_doc "a" None 0 true false] [] None false false None in
  let s := (moveDocument None "a" (Some "a") 0 s0).1 in
  documents s = [sample_doc "a" (Some "a") 0 true false] /\
  (deleteDocument None "a" s).2 = false /\
  documents (deleteDocument None "a" s).1 = documents s /\
  ~ delete_removes_subtree None "a" s.
Proof.
  intros s0 s. split_and!; [vm_compute; reflexivity .. |].
  intros H.
  specialize (H (sample_doc "a" (Some "a") 0 true false) ltac:(left)).
  destruct H as [H _]. apply H; [|by left].
  vm_compute. left.
Qed.

(** C5, as the code has it: on documents with distinct ids whose parent
    links have no cycle, [deleteDocument] (the delete request having
    succeeded) reports success and keeps, in their order, the documents
    that are neither [documentId] nor a descendant of it; the removed
    ones are those of its subtree, and the count before less the size of
    that subtree is the count after. *)
Theorem deleteDocument_subtree (documentId : string) (s : DocumentState) :
  NoDup (doc_id <$> documents s) ->
  acyclic (documents s) ->
  let r := deleteDocument None documentId s in
  r.2 = true
  /\ (forall d, d ∈ documents r.1 <->
        d ∈ documents s /\
        ~ (doc_id d = documentId \/ ancestor (documents s) documentId (doc_id d)))
  /\ exists removed,
       removed ++ documents r.1 ≡ₚ documents s
       /\ (forall d, d ∈ removed <->
             d ∈ documents s /\
             (doc_id d = documentId \/ ancestor (documents s) documentId (doc_id d)))
       /\ length (documents s) - length removed = length (documents r.1).
Proof.
  intros Hnd Hacyc r. subst r. unfold deleteDocument. cbn [documents].
  destruct (collectIds_subtree (documents s) Hacyc documentId) as (ids & -> & Hids).
  set (kept := filter (fun d => doc_id d ∉ ids) (documents s)).
  assert (Hnd' : NoDup (doc_id <$> kept)).
  { apply NoDup_fmap_2_strong; [|apply NoDup_filter; by eapply NoDup_fmap_1].
    intros x y Hx Hy. apply list_elem_of_filter in Hx as [_ Hx], Hy as [_ Hy].
    by apply (doc_id_inj (documents s)). }
  destruct (buildDocumentTree_total kept Hnd') as [tree ->]. cbn [fst snd documents].
  split_and!; [done| |].
  - intros d. unfold kept. rewrite list_elem_of_filter, Hids. tauto.
  - exists (filter (fun d => doc_id d ∈ ids) (documents s)). split_and!.
    + unfold kept. apply filter_app_complement.
    + intros d. rewrite list_elem_of_filter, Hids. tauto.
    + pose proof (filter_app_complement (fun d => doc_id d ∈ ids) (documents s)) as Hp.
      apply Permutation_length in Hp. rewrite length_app in Hp.
      fold kept in Hp. lia.
Qed.

Lemma deleteDocument_subtree_witness :
  let s := mkState sample_forest [] None false false None in
  let r := deleteDocument None "a" s in
  r.2 = true /\ length (documents r.1) = 1%nat.
Proof.
  intros s r.
  destruct (deleteDocument_subtree "a" s sample_forest_NoDup sample_forest_acyclic)
    as (Hok & _ & _).
  split; [exact Hok | reflexivity].
Defined.

(** * Properties of [togglePublished] *)

Lemma find_none_absent (documentId : string) (docs : list Document) :
  (forall d, d ∈ docs -> doc_id d <> documentId) ->
  find (fun d => String.eqb (doc_id d) documentId) docs = None.
Proof.
  induction docs as [|d docs IH]; intros Habs; [done|].
  cbn. destruct (String.eqb_spec (doc_id d) documentId) as [E|_].
  - exfalso. apply (Habs d); [left | exact E].
  - apply IH. intros d' Hd'. apply Habs. by right.
Qed.

(** C10: a [documentId] that no document of the store carries makes
    [togglePublished] return [false] and hand back the state as it was:
    documents, tree and error included (no error is recorded). *)
Theorem togglePublished_absent (resp : db_error) (documentId : string)
    (s : DocumentState) :
  (forall d, d ∈ documents s -> doc_id d <> documentId) ->
  togglePublished resp documentId s = (s, false).
Proof.
  intros Habs. unfold togglePublished.
  by rewrite (find_none_absent _ _ Habs).
Qed.

Lemma togglePublished_absent_witness :
  let s := mkState [sample_doc "a" None 0 false false] []
                   None false false (Some "earlier") in
  togglePublished None "zz" s = (s, false).
Proof.
  intros s. apply togglePublished_absent.
  intros d Hd. apply list_elem_of_singleton in Hd. subst d. discriminate.
Defined.

(** The store flips the flag of a folder as of any other document. *)
Lemma togglePublished_flips_folder :
  let s := mkState [sample_doc "f" None 0 true false] [] None false false None in
  ~ toggle_spares_folders None "f" s.
Proof.
  intros s H.
  specialize (H (sample_doc "f" None 0 true false)).
  assert (Hin : sample_doc "f" None 0 true false ∈ documents s) by (by left).
  specialize (H Hin eq_refl eq_refl).
  vm_compute in H. discriminate H.
Qed.

(** C3, as the code has it: [togglePublished] looks the document up by
    id and, when the update request succeeds, writes the negation of its
    flag; [is_folder] is not consulted, so a folder is flipped like any
    other document. The guard is in the tree menu, which offers the
    entry for non-folders only. *)
Theorem togglePublished_flips (documentId : string) (s : DocumentState)
    (doc : Document) :
  NoDup (doc_id <$> documents s) ->
  find (fun d => String.eqb (doc_id d) documentId) (documents s) = Some doc ->
  let r := togglePublished None documentId s in
  r.2 = true /\
  documents r.1
    = updated documentId (publish_flag (negb (is_published doc))) (documents s) /\
  spread doc (publish_flag (negb (is_published doc))) ∈ documents r.1 /\
  is_published (spread doc (publish_flag (negb (is_published doc))))
    = negb (is_published doc) /\
  is_folder (spread doc (publish_flag (negb (is_published doc)))) = is_folder doc /\
  (forall node, TogglePublish ∈ menu_items node <-> is_folder node = false).
Proof.
  intros Hnd Hfind r. subst r. unfold togglePublished. rewrite Hfind.
  unfold updateDocument. cbn [documents]. fold (publish_flag (negb (is_published doc))).
  fold (updated documentId (publish_flag (negb (is_published doc))) (documents s)).
  assert (Hnd' : NoDup (doc_id <$> updated documentId
                          (publish_flag (negb (is_published doc))) (documents s)))
    by (unfold updated; by rewrite moved_ids).
  destruct (buildDocumentTree_total _ Hnd') as [tree ->]. cbn.
  split_and!; try done.
  - apply find_some in Hfind as [Hin Hid]. apply String.eqb_eq in Hid.
    unfold updated. apply list_elem_of_fmap.
    exists doc. split; [|by apply list_elem_of_In].
    by destruct (String.eqb_spec (doc_id doc) documentId).
  - intros node. unfold menu_items. split.
    + destruct (is_folder node); cbn; [|done].
      intros H. repeat (apply elem_of_cons in H as [H|H]; [discriminate|]).
      by apply elem_of_nil in H.
    + intros ->. cbn. right. left.
Qed.

Lemma togglePublished_flips_witness :
  let s := mkState [sample_doc "f" None 0 true false] [] None false false None in
  documents (togglePublished None "f" s).1 = [sample_doc "f" None 0 true true].
Proof.
  intros s.
  refine (proj1 (proj2 (togglePublished_flips "f" s (sample_doc "f" None 0 true false)
                   _ _))).
  - apply (bool_decide_unpack _). vm_compute. exact I.
  - reflexivity.
Defined.

(** * More about the store actions *)

Lemma insert_sorted_sorted {A} (key : A -> Z) (x : A) (l : list A) :
  StronglySorted (fun a b => (key a <= key b)%Z) l ->
  StronglySorted (fun a b => (key a <= key b)%Z) (insert_sorted key x l).
Proof.
  induction l as [|y l IH]; intros Hs.
  - cbn. by repeat constructor.
  - apply StronglySorted_inv in Hs as [Hl Hy]. cbn.
    destruct (Z.leb_spec (key x) (key y)) as [Hxy|Hxy].
    + constructor; [by constructor|].
      constructor; [done|].
      eapply Forall_impl; [exact Hy|]. cbn. intros z Hz. lia.
    + constructor; [by apply IH|].
      rewrite insert_sorted_perm. constructor; [lia | done].
Qed.

Lemma sort_by_sorted {A} (key : A -> Z) (l : list A) :
  StronglySorted (fun a b => (key a <= key b)%Z) (sort_by key l).
Proof.
  induction l as [|x l IH]; [constructor|].
  rewrite sort_by_cons. by apply insert_sorted_sorted.
Qed.

(** The stable sort keeps the order of the elements of equal key. *)
Lemma insert_sorted_stable {A} (key : A -> Z) (k : Z) (x : A) (l : list A) :
  filter (fun a => key a = k) (insert_sorted key x l)
  = filter (fun a => key a = k) (x :: l).
Proof.
  induction l as [|y l IH]; [done|]. cbn [insert_sorted].
  destruct (Z.leb_spec (key x) (key y)) as [Hxy|Hxy]; [done|].
  rewrite filter_cons, IH, !filter_cons.
  destruct (decide (key y = k)), (decide (key x = k)); try done. lia.
Qed.

Lemma sort_by_stable {A} (key : A -> Z) (k : Z) (l : list A) :
  filter (fun a => key a = k) (sort_by key l) = filter (fun a => key a = k) l.
Proof.
  induction l as [|x l IH]; [done|].
  rewrite sort_by_cons, insert_sorted_stable, !filter_cons, IH. done.
Qed.

Lemma NoDup_fmap_filter {A B} (f : A -> B) (P : A -> Prop)
    `{!forall x, Decision (P x)} (l : list A) :
  NoDup (f <$> l) -> NoDup (f <$> filter P l).
Proof.
  intros Hnd. apply (sublist_NoDup _ _ Hnd), fmap_sublist, sublist_filter.
Qed.

Lemma select_documents_NoDup db uid projectId :
  NoDup (doc_id <$> documents_table db) ->
  NoDup (doc_id <$> select_documents db uid projectId).
Proof.
  intros Hnd. unfold select_documents.
  rewrite sort_by_perm. by apply NoDup_fmap_filter.
Qed.

(** X1: a fetch that succeeds replaces the list by the rows of the
    project that the user may see, in ascending [sort_order], with their
    tree, and clears the error; a user without access to the project
    gets the empty list, not an error. *)
Theorem fetchDocuments_loads_project (db : Database) (uid projectId : string)
    (s : DocumentState) :
  NoDup (doc_id <$> documents_table db) ->
  let s' := fetchDocuments db uid None projectId s in
  (forall d, d ∈ documents s' <->
     d ∈ documents_table db /\ project_id d = projectId
     /\ has_project_access db projectId uid viewer = true)
  /\ StronglySorted by_sort_order (documents s')
  /\ buildDocumentTree (documents s') = Some (documentTree s')
  /\ error s' = None /\ loading s' = false
  /\ (has_project_access db projectId uid viewer = false -> documents s' = []).
Proof.
  intros Hnd s'. subst s'. unfold fetchDocuments.
  destruct (buildDocumentTree_total _ (select_documents_NoDup db uid projectId Hnd))
    as [tree Htree].
  rewrite Htree. cbn [documents documentTree error loading].
  assert (Hin : forall d, d ∈ select_documents db uid projectId <->
            d ∈ documents_table db /\ project_id d = projectId
            /\ has_project_access db projectId uid viewer = true).
  { intros d. unfold select_documents, can_select_document.
    rewrite sort_by_perm, list_elem_of_filter. split.
    - intros [[Hp Ha] Hd]. rewrite Hp in Ha. done.
    - intros (Hd & Hp & Ha). rewrite Hp. done. }
  split_and!; try done.
  - apply sort_by_sorted.
  - intros Hno. apply elem_of_nil_inv. intros d Hd.
    apply Hin in Hd as (_ & _ & Hd). congruence.
Qed.

Lemma fetchDocuments_loads_project_witness :
  let db := mkDb [mkProject "p1" "Docs" None "docs" "u1"]
                 [mkMember "m1" "p1" "u1" viewer None]
                 [sample_doc "b" None 2 false false; sample_doc "a" None 1 false false]
                 [] in
  documents (fetchDocuments db "u1" None "p1" initial_state)
  = [sample_doc "a" None 1 false false; sample_doc "b" None 2 false false]
  /\ documents (fetchDocuments db "u2" None "p1" initial_state) = [].
Proof.
  intros db. split; [reflexivity|].
  refine (proj2 (proj2 (proj2 (proj2 (proj2
            (fetchDocuments_loads_project db "u2" "p1" initial_state _))))) _).
  - apply (bool_decide_unpack _). vm_compute. exact I.
  - reflexivity.
Defined.

Lemma updated_absent (documentId : string) (u : DocumentUpdate)
    (docs : list Document) :
  (forall d, d ∈ docs -> doc_id d <> documentId) ->
  updated documentId u docs = docs.
Proof.
  intros Habs. unfold updated. rewrite <- (list_fmap_id docs) at 2.
  apply list_fmap_ext. intros i d Hd. apply list_elem_of_lookup_2 in Hd.
  cbn. by destruct (String.eqb_spec (doc_id d) documentId) as [E|_];
    [apply Habs in E|].
Qed.

Lemma updateDocument_success (documentId : string) (u : DocumentUpdate)
    (s : DocumentState) :
  NoDup (doc_id <$> documents s) ->
  exists tree,
    buildDocumentTree (updated documentId u (documents s)) = Some tree
    /\ updateDocument None documentId u s
       = (mkState (updated documentId u (documents s)) tree
            (match currentDocument s with
             | Some c => if String.eqb (doc_id c) documentId
                         then Some (spread c u) else Some c
             | None => None
             end) (loading s) false None, true).
Proof.
  intros Hnd.
  assert (Hnd1 : NoDup (doc_id <$> updated documentId u (documents s)))
    by (unfold updated; by rewrite moved_ids).
  destruct (buildDocumentTree_total _ Hnd1) as [tree Htree].
  exists tree. split; [done|]. unfold updateDocument. cbn [documents].
  change ((fun d => if String.eqb (doc_id d) documentId then spread d u else d)
            <$> documents s) with (updated documentId u (documents s)).
  by rewrite Htree.
Qed.

Lemma moveDocument_success (documentId : string) (newParentId : option string)
    (newSortOrder : Z) (s : DocumentState) :
  NoDup (doc_id <$> documents s) ->
  exists tree,
    buildDocumentTree
      (updated documentId (reparent newParentId newSortOrder) (documents s))
    = Some tree
    /\ moveDocument None documentId newParentId newSortOrder s
       = (mkState (updated documentId (reparent newParentId newSortOrder)
                     (documents s)) tree
            (currentDocument s) (loading s) (saving s) (error s), true).
Proof.
  intros Hnd.
  assert (Hnd1 : NoDup (doc_id <$> updated documentId
                          (reparent newParentId newSortOrder) (documents s)))
    by (unfold updated; by rewrite moved_ids).
  destruct (buildDocumentTree_total _ Hnd1) as [tree Htree].
  exists tree. split; [done|]. unfold moveDocument.
  change ((fun d => if String.eqb (doc_id d) documentId
                    then spread d (reparent newParentId newSortOrder) else d)
            <$> documents s)
    with (updated documentId (reparent newParentId newSortOrder) (documents s)).
  by rewrite Htree.
Qed.

Lemma togglePublished_found (documentId : string) (s : DocumentState)
    (doc : Document) :
  find (fun d => String.eqb (doc_id d) documentId) (documents s) = Some doc ->
  togglePublished None documentId s
  = updateDocument None documentId (publish_flag (negb (is_published doc))) s.
Proof. intros Hfind. unfold togglePublished. by rewrite Hfind. Qed.

(** X2: an update or a move of an id that no document of the store has
    changes no document, and still reports success. *)
Theorem update_of_missing_id (documentId : string) (updates : DocumentUpdate)
    (newParentId : option string) (newSortOrder : Z) (s : DocumentState) :
  NoDup (doc_id <$> documents s) ->
  (forall d, d ∈ documents s -> doc_id d <> documentId) ->
  let r := updateDocument None documentId updates s in
  let r' := moveDocument None documentId newParentId newSortOrder s in
  r.2 = true /\ documents r.1 = documents s /\ error r.1 = None
  /\ r'.2 = true /\ documents r'.1 = documents s.
Proof.
  intros Hnd Habs r r'. subst r r'.
  destruct (updateDocument_success documentId updates s Hnd) as (t1 & _ & ->).
  destruct (moveDocument_success documentId newParentId newSortOrder s Hnd)
    as (t2 & _ & ->).
  cbn [fst snd documents error]. by rewrite !updated_absent.
Qed.

Lemma update_of_missing_id_witness :
  let s := mkState sample_forest [] None false false None in
  (updateDocument None "zz" (publish_flag true) s).2 = true
  /\ documents (updateDocument None "zz" (publish_flag true) s).1 = sample_forest.
Proof.
  intros s.
  destruct (update_of_missing_id "zz" (publish_flag true) None 0 s sample_forest_NoDup)
    as (H1 & H2 & _).
  - intros d Hd. cbn in Hd.
    repeat (apply elem_of_cons in Hd as [->|Hd]; [discriminate|]).
    by apply elem_of_nil in Hd.
  - split; [exact H1 | exact H2].
Defined.

Lemma find_doc_unique (docs : list Document) (documentId : string) (doc d : Document) :
  NoDup (doc_id <$> docs) ->
  find (fun x => String.eqb (doc_id x) documentId) docs = Some doc ->
  d ∈ docs -> doc_id d = documentId -> d = doc.
Proof.
  intros Hnd Hfind Hd Hid.
  apply find_some in Hfind as [Hin Heq]. apply String.eqb_eq in Heq.
  apply (doc_id_inj docs); [done | done | by apply list_elem_of_In | congruence].
Qed.

(** Two updates of the same id, the second undoing the first on the
    document that has the id, give the list back. *)
Lemma updated_twice_restores (docs : list Document) (documentId : string)
    (doc : Document) (u1 u2 : DocumentUpdate) :
  NoDup (doc_id <$> docs) ->
  find (fun x => String.eqb (doc_id x) documentId) docs = Some doc ->
  spread (spread doc u1) u2 = doc ->
  updated documentId u2 (updated documentId u1 docs) = docs.
Proof.
  intros Hnd Hfind Hback. unfold updated.
  rewrite <- list_fmap_compose. rewrite <- (list_fmap_id docs) at 2.
  apply list_fmap_ext. intros i d Hd. apply list_elem_of_lookup_2 in Hd. cbn.
  destruct (String.eqb_spec (doc_id d) documentId) as [E|E].
  - rewrite (find_doc_unique docs documentId doc d) by done.
    cbn. apply find_some in Hfind as [_ Heq]. rewrite Heq. exact Hback.
  - by destruct (String.eqb_spec (doc_id d) documentId).
Qed.

Lemma find_updated (docs : list Document) (documentId : string)
    (doc : Document) (u : DocumentUpdate) :
  find (fun x => String.eqb (doc_id x) documentId) docs = Some doc ->
  find (fun x => String.eqb (doc_id x) documentId) (updated documentId u docs)
  = Some (spread doc u).
Proof.
  unfold updated. induction docs as [|d docs IH]; [done|]. cbn.
  destruct (String.eqb_spec (doc_id d) documentId) as [E|E].
  - intros [= ->]. cbn. by rewrite (proj2 (String.eqb_eq _ _) E).
  - intros Hf. by rewrite (proj2 (String.eqb_neq _ _) E), IH.
Qed.

Lemma spread_publish_flag_back (doc : Document) :
  spread (spread doc (publish_flag (negb (is_published doc))))
         (publish_flag (negb (negb (is_published doc)))) = doc.
Proof. destruct doc. cbn. by rewrite negb_involutive. Qed.

(** X3: toggling the publish flag of a document twice gives the
    documents of the store back, and both toggles report success. *)
Theorem togglePublished_twice (documentId : string) (s : DocumentState)
    (doc : Document) :
  NoDup (doc_id <$> documents s) ->
  find (fun d => String.eqb (doc_id d) documentId) (documents s) = Some doc ->
  let r1 := togglePublished None documentId s in
  let r2 := togglePublished None documentId r1.1 in
  r1.2 = true /\ r2.2 = true /\ documents r2.1 = documents s
  /\ buildDocumentTree (documents s) = Some (documentTree r2.1).
Proof.
  intros Hnd Hfind r1 r2. subst r2 r1.
  set (u1 := publish_flag (negb (is_published doc))).
  rewrite (togglePublished_found documentId s doc Hfind). fold u1.
  destruct (updateDocument_success documentId u1 s Hnd) as (t1 & Ht1 & ->).
  cbn [fst snd].
  assert (Hnd1 : NoDup (doc_id <$> updated documentId u1 (documents s)))
    by (unfold updated; by rewrite moved_ids).
  rewrite (togglePublished_found documentId _ (spread doc u1))
    by (cbn [documents]; by apply find_updated).
  destruct (updateDocument_success documentId
              (publish_flag (negb (is_published (spread doc u1))))
              (mkState (updated documentId u1 (documents s)) t1
                 (match currentDocument s with
                  | Some c => if String.eqb (doc_id c) documentId
                              then Some (spread c u1) else Some c
                  | None => None
                  end) (loading s) false None) Hnd1) as (t2 & Ht2 & ->).
  cbn [fst snd documents documentTree] in *.
  change (is_published (spread doc u1)) with (negb (is_published doc)) in *.
  rewrite (updated_twice_restores (documents s) documentId doc) in *;
    try done; apply spread_publish_flag_back.
Qed.

Lemma togglePublished_twice_witness :
  let s := mkState sample_forest [] None false false None in
  documents (togglePublished None "c" (togglePublished None "c" s).1).1
  = sample_forest.
Proof.
  intros s.
  destruct (togglePublished_twice "c" s (sample_doc "c" (Some "b") 0 false false)
              sample_forest_NoDup eq_refl) as (_ & _ & H & _).
  exact H.
Defined.

(** X4: moving a document and then moving it back to its old parent and
    order gives the documents of the store back. *)
Theorem moveDocument_and_back (doc : Document) (newParentId : option string)
    (newSortOrder : Z) (s : DocumentState) :
  NoDup (doc_id <$> documents s) ->
  doc ∈ documents s ->
  let r1 := moveDocument None (doc_id doc) newParentId newSortOrder s in
  let r2 := moveDocument None (doc_id doc) (parent_id doc) (sort_order doc) r1.1 in
  r1.2 = true /\ r2.2 = true /\ documents r2.1 = documents s.
Proof.
  intros Hnd Hdoc r1 r2. subst r2 r1.
  set (u1 := reparent newParentId newSortOrder).
  destruct (moveDocument_success (doc_id doc) newParentId newSortOrder s Hnd)
    as (t1 & Ht1 & ->).
  cbn [fst snd]. fold u1.
  assert (Hnd1 : NoDup (doc_id <$> updated (doc_id doc) u1 (documents s)))
    by (unfold updated; by rewrite moved_ids).
  destruct (moveDocument_success (doc_id doc) (parent_id doc) (sort_order doc)
              (mkState (updated (doc_id doc) u1 (documents s)) t1
                 (currentDocument s) (loading s) (saving s) (error s)) Hnd1)
    as (t2 & Ht2 & ->).
  cbn [fst snd documents].
  rewrite (updated_twice_restores (documents s) (doc_id doc) doc); try done.
  - by apply find_doc_elem.
  - by destruct doc.
Qed.

Lemma moveDocument_and_back_witness :
  let s := mkState sample_forest [] None false false None in
  documents (moveDocument None "c" (Some "b") 0
               (moveDocument None "c" (Some "d") 7 s).1).1 = sample_forest.
Proof.
  intros s.
  destruct (moveDocument_and_back (sample_doc "c" (Some "b") 0 false false)
              (Some "d") 7 s sample_forest_NoDup) as (_ & _ & H).
  - cbn. right. right. left.
  - exact H.
Defined.

(** * More on [createDocument] and [deleteDocument] *)

Lemma foldr_max_ge (o : Z) (os : list Z) (x : Z) :
  x ∈ o :: os -> (x <= foldr Z.max o os)%Z.
Proof.
  induction os as [|a os IH]; intros Hx.
  - apply list_elem_of_singleton in Hx as ->. cbn. lia.
  - cbn. apply elem_of_cons in Hx as [->|Hx].
    + assert (o <= foldr Z.max o os)%Z by (apply IH; left). lia.
    + apply elem_of_cons in Hx as [->|Hx]; [lia|].
      assert (x <= foldr Z.max o os)%Z by (apply IH; by right). lia.
Qed.

Lemma createDocument_success (uid : string) (table : list Document)
    (new_id now : string) (docData : DocumentInsert) (s : DocumentState) :
  NoDup (doc_id <$> documents s) ->
  new_id ∉ doc_id <$> documents s ->
  let row := inserted_row new_id now docData uid
               (max_order (select_top_sort_order table (ins_project_id docData)
                             (or_null (ins_parent_id docData))) + 1) in
  NoDup (doc_id <$> documents s ++ [row])
  /\ exists tree,
      buildDocumentTree (documents s ++ [row]) = Some tree
      /\ createDocument (Some uid) table None new_id now docData s
         = (mkState (documents s ++ [row]) tree (currentDocument s)
              false (saving s) None, Some row, table ++ [row]).
Proof.
  intros Hnd Hfresh row.
  assert (Hnd' : NoDup (doc_id <$> documents s ++ [row])).
  { rewrite fmap_app. apply NoDup_app. split_and!; [done| |apply NoDup_singleton].
    intros x Hx Hx'. cbn in Hx'. apply list_elem_of_singleton in Hx' as ->. done. }
  split; [done|].
  destruct (buildDocumentTree_total _ Hnd') as [tree Htree]. exists tree.
  split; [done|]. unfold createDocument. cbn [documents]. fold row.
  by rewrite Htree.
Qed.

(** X5: a signed-in user whose insert succeeds gets the new row back; the
    row is appended to the table and to the documents of the store, it
    carries the generated id, the user as author and the project asked
    for, the ids of the store stay distinct and the tree is rebuilt from
    the new list. *)
Theorem createDocument_appends (uid : string) (table : list Document)
    (new_id now : string) (docData : DocumentInsert) (s : DocumentState) :
  NoDup (doc_id <$> documents s) ->
  new_id ∉ doc_id <$> documents s ->
  let r := createDocument (Some uid) table None new_id now docData s in
  exists row,
    r.1.2 = Some row
    /\ documents r.1.1 = documents s ++ [row]
    /\ r.2 = table ++ [row]
    /\ doc_id row = new_id /\ created_by row = uid
    /\ project_id row = ins_project_id docData
    /\ parent_id row = ins_parent_id docData
    /\ NoDup (doc_id <$> documents r.1.1)
    /\ buildDocumentTree (documents r.1.1) = Some (documentTree r.1.1)
    /\ error r.1.1 = None /\ loading r.1.1 = false.
Proof.
  intros Hnd Hfresh r. subst r.
  destruct (createDocument_success uid table new_id now docData s Hnd Hfresh)
    as (Hnd' & tree & Htree & ->).
  eexists. cbn [fst snd documents documentTree error loading].
  split_and!; try done.
Qed.

Lemma createDocument_appends_witness :
  let s := mkState sample_forest [] None false false None in
  exists row,
    (createDocument (Some "u1") sample_forest None "e" "now"
       (mkInsert "p1" (Some "a") None None None None) s).1.2 = Some row
    /\ doc_id row = "e".
Proof.
  intros s.
  destruct (createDocument_appends "u1" sample_forest "e" "now"
              (mkInsert "p1" (Some "a") None None None None) s
              sample_forest_NoDup) as (row & H1 & _ & _ & H4 & _).
  - cbn. intros H.
    repeat (apply elem_of_cons in H as [H|H]; [discriminate|]).
    by apply elem_of_nil in H.
  - exists row. split; [exact H1 | exact H4].
Defined.

(** X6: under a parent, the row that [createDocument] inserts is ordered
    strictly after every row the table has for that project and parent. *)
Theorem createDocument_after_siblings (uid : string) (table : list Document)
    (new_id now project parent : string) t c f p (s : DocumentState) :
  parent <> "" ->
  let docData := mkInsert project (Some parent) t c f p in
  let r := createDocument (Some uid) table None new_id now docData s in
  exists row,
    r.2 = table ++ [row]
    /\ project_id row = project /\ parent_id row = Some parent
    /\ forall d, d ∈ table -> project_id d = project ->
         parent_id d = Some parent -> (sort_order d < sort_order row)%Z.
Proof.
  intros Hp docData r. subst r docData.
  pose proof (createDocument_child_order uid table new_id now project parent
                t c f p s Hp) as Hrow.
  cbv zeta in Hrow. rewrite Hrow.
  eexists. split; [reflexivity|]. split_and!; try done.
  intros d Hd Hproj Hpar. cbn [inserted_row sort_order].
  unfold next_order, sibling_orders_of.
  assert (Hin : sort_order d ∈ sort_order <$>
                  filter (fun d => project_id d = project
                                   /\ parent_id d = Some parent) table).
  { apply list_elem_of_fmap_2, list_elem_of_filter. done. }
  destruct (sort_order <$> filter _ table) as [|o os].
  - by apply elem_of_nil in Hin.
  - pose proof (foldr_max_ge o os _ Hin). lia.
Qed.

Lemma createDocument_after_siblings_witness :
  exists row,
    (createDocument (Some "u1") sample_forest None "e" "now"
       (mkInsert "p1" (Some "a") None None None None) initial_state).2
    = sample_forest ++ [row]
    /\ parent_id row = Some "a".
Proof.
  destruct (createDocument_after_siblings "u1" sample_forest "e" "now" "p1" "a"
              None None None None initial_state) as (row & H1 & _ & H3 & _).
  - discriminate.
  - exists row. split; [exact H1 | exact H3].
Defined.

(** X7: [createDocument] returns no document exactly when nobody is
    signed in or the insert fails (the ids of the store being distinct
    and the new id a fresh one); the table and the documents of the store
    are then left as they were and the store carries an error. *)
Theorem createDocument_fails (user : option string) (table : list Document)
    (resp : db_error) (new_id now : string) (docData : DocumentInsert)
    (s : DocumentState) :
  NoDup (doc_id <$> documents s) ->
  new_id ∉ doc_id <$> documents s ->
  let r := createDocument user table resp new_id now docData s in
  (r.1.2 = None <-> user = None \/ is_Some resp)
  /\ (r.1.2 = None ->
        r.2 = table /\ documents r.1.1 = documents s
        /\ documentTree r.1.1 = documentTree s
        /\ is_Some (error r.1.1) /\ loading r.1.1 = false)
  /\ (user = None -> error r.1.1 = Some "Not authenticated").
Proof.
  intros Hnd Hfresh r. subst r.
  destruct user as [uid|]; [destruct resp as [msg|]|].
  - cbn. split_and!; try done. split; [intros _; right; by eexists | done].
  - destruct (createDocument_success uid table new_id now docData s Hnd Hfresh)
      as (_ & tree & _ & ->).
    cbn [fst snd]. split_and!; try done.
    split; [done|]. intros [?|[? ?]]; done.
  - cbn. split_and!; try done. split; [intros _; by left | done].
Qed.

Lemma createDocument_fails_witness :
  let s := mkState sample_forest [] None false false None in
  error (createDocument None sample_forest None "e" "now"
           (mkInsert "p1" None None None None None) s).1.1
  = Some "Not authenticated".
Proof.
  intros s.
  destruct (createDocument_fails None sample_forest None "e" "now"
              (mkInsert "p1" None None None None None) s sample_forest_NoDup)
    as (_ & _ & H).
  - cbn. intros H.
    repeat (apply elem_of_cons in H as [H|H]; [discriminate|]).
    by apply elem_of_nil in H.
  - exact (H eq_refl).
Defined.

(** ** [deleteDocument] keeps a forest a forest *)

Lemma parent_edge_sublist (docs docs' : list Document) (c p : string) :
  (forall d, d ∈ docs' -> d ∈ docs) ->
  parent_edge docs' c p -> parent_edge docs c p.
Proof. intros Hsub (d & Hd & Hc & Hp). exists d. auto. Qed.

Lemma tc_parent_edge_sublist (docs docs' : list Document) (x y : string) :
  (forall d, d ∈ docs' -> d ∈ docs) ->
  tc (parent_edge docs') x y -> tc (parent_edge docs) x y.
Proof.
  intros Hsub H. induction H as [x y H|x y z H _ IH].
  - apply tc_once. by eapply parent_edge_sublist.
  - eapply tc_l; [|exact IH]. by eapply parent_edge_sublist.
Qed.

Lemma acyclic_sublist (docs docs' : list Document) :
  (forall d, d ∈ docs' -> d ∈ docs) -> acyclic docs -> acyclic docs'.
Proof.
  intros Hsub Hacyc x Hx. apply (Hacyc x). unfold ancestor in *.
  by eapply tc_parent_edge_sublist.
Qed.

Lemma deleteDocument_success (documentId : string) (s : DocumentState) :
  NoDup (doc_id <$> documents s) ->
  acyclic (documents s) ->
  exists (ids : gset string) tree,
    (forall j, j ∈ ids <-> j = documentId \/ ancestor (documents s) documentId j)
    /\ buildDocumentTree (filter (fun d => doc_id d ∉ ids) (documents s))
       = Some tree
    /\ deleteDocument None documentId s
       = (mkState (filter (fun d => doc_id d ∉ ids) (documents s)) tree
            (if bool_decide (from_option doc_id "" (currentDocument s) ∈ ids)
             then None else currentDocument s)
            false (saving s) None, true).
Proof.
  intros Hnd Hacyc.
  destruct (collectIds_subtree (documents s) Hacyc documentId) as (ids & Hc & Hids).
  assert (Hnd' : NoDup (doc_id <$> filter (fun d => doc_id d ∉ ids) (documents s)))
    by by apply NoDup_fmap_filter.
  destruct (buildDocumentTree_total _ Hnd') as [tree Htree].
  exists ids, tree. split_and!; [done|done|].
  unfold deleteDocument. cbn [documents]. rewrite Hc. by rewrite Htree.
Qed.

(** X8: deleting from a forest with distinct ids leaves a forest with
    distinct ids: no document is left whose parent was deleted, the
    current document is kept unless it was deleted, and the tree is the
    one of the documents that are left. *)
Theorem deleteDocument_keeps_forest (documentId : string) (s : DocumentState) :
  NoDup (doc_id <$> documents s) ->
  acyclic (documents s) ->
  let r := deleteDocument None documentId s in
  NoDup (doc_id <$> documents r.1)
  /\ acyclic (documents r.1)
  /\ (forall d p, d ∈ documents r.1 -> parent_id d = Some p ->
        p ∈ doc_id <$> documents s -> p ∈ doc_id <$> documents r.1)
  /\ (forall c, currentDocument s = Some c ->
        let deleted := doc_id c = documentId
                       \/ ancestor (documents s) documentId (doc_id c) in
        (deleted -> currentDocument r.1 = None)
        /\ (~ deleted -> currentDocument r.1 = Some c))
  /\ buildDocumentTree (documents r.1) = Some (documentTree r.1).
Proof.
  intros Hnd Hacyc r. subst r.
  destruct (deleteDocument_success documentId s Hnd Hacyc)
    as (ids & tree & Hids & Htree & ->).
  cbn [fst snd documents documentTree currentDocument].
  split_and!.
  - by apply NoDup_fmap_filter.
  - eapply acyclic_sublist; [|exact Hacyc].
    intros d Hd. by apply list_elem_of_filter in Hd as [_ Hd].
  - intros d p Hd Hpar Hp. apply list_elem_of_filter in Hd as [Hkeep Hd].
    apply list_elem_of_fmap in Hp as (q & -> & Hq).
    apply list_elem_of_fmap_2, list_elem_of_filter. split; [|done].
    intros Hrem. apply Hkeep. apply Hids. right.
    assert (Hedge : parent_edge (documents s) (doc_id d) (doc_id q))
      by by exists d.
    apply Hids in Hrem as [E|Hanc].
    + unfold ancestor. rewrite <- E. by apply tc_once.
    + unfold ancestor in *. by eapply tc_l.
  - intros c ->. cbn [from_option]. split.
    + intros Hin. rewrite bool_decide_eq_true_2; [done|]. by apply Hids.
    + intros Hout. rewrite bool_decide_eq_false_2; [done|]. by rewrite Hids.
  - done.
Qed.

Lemma deleteDocument_keeps_forest_witness :
  let s := mkState sample_forest [] None false false None in
  NoDup (doc_id <$> documents (deleteDocument None "b" s).1).
Proof.
  intros s.
  destruct (deleteDocument_keeps_forest "b" s sample_forest_NoDup
              sample_forest_acyclic) as (H & _).
  exact H.
Defined.

(** X9: deleting the same document a second time removes nothing more. *)
Theorem deleteDocument_twice (documentId : string) (s : DocumentState) :
  NoDup (doc_id <$> documents s) ->
  acyclic (documents s) ->
  let r1 := deleteDocument None documentId s in
  let r2 := deleteDocument None documentId r1.1 in
  r2.2 = true /\ documents r2.1 = documents r1.1
  /\ documentTree r2.1 = documentTree r1.1.
Proof.
  intros Hnd Hacyc r1 r2. subst r2 r1.
  destruct (deleteDocument_success documentId s Hnd Hacyc)
    as (ids & tree & Hids & Htree & ->).
  cbn [fst].
  set (kept := filter (fun d => doc_id d ∉ ids) (documents s)) in *.
  assert (Hsub : forall d, d ∈ kept -> d ∈ documents s).
  { intros d Hd. by apply list_elem_of_filter in Hd as [_ Hd]. }
  assert (Hnd' : NoDup (doc_id <$> kept)) by by apply NoDup_fmap_filter.
  assert (Hacyc' : acyclic kept) by by eapply acyclic_sublist.
  destruct (deleteDocument_success documentId
              (mkState kept tree
                 (if bool_decide (from_option doc_id "" (currentDocument s) ∈ ids)
                  then None else currentDocument s) false (saving s) None)
              Hnd' Hacyc') as (ids' & tree' & Hids' & Htree' & ->).
  cbn [fst snd documents documentTree] in *.
  assert (Hsame : filter (fun d => doc_id d ∉ ids') kept = kept).
  { apply filter_all. intros d Hd Hrem.
    pose proof Hd as Hd'. apply list_elem_of_filter in Hd' as [Hkeep _].
    apply Hkeep, Hids. apply Hids' in Hrem as [E|Hanc]; [by left|right].
    unfold ancestor in *. by eapply tc_parent_edge_sublist. }
  rewrite Hsame in *. split_and!; [done|done|congruence].
Qed.

Lemma deleteDocument_twice_witness :
  let s := mkState sample_forest [] None false false None in
  documents (deleteDocument None "b" (deleteDocument None "b" s).1).1
  = documents (deleteDocument None "b" s).1.
Proof.
  intros s.
  destruct (deleteDocument_twice "b" s sample_forest_NoDup sample_forest_acyclic)
    as (_ & H & _).
  exact H.
Defined.

(** * More on [buildDocumentTree] *)

(** Whatever [sortNodes] returns is in the order of the sort, at every
    level. *)
Lemma sortNodes_order (docs : list Document) (fuel : nat) :
  NoDup (doc_id <$> docs) ->
  forall (xs : list Document) (trees : list DocumentTreeNode),
    (forall x, x ∈ xs -> x ∈ docs) ->
    sortNodes fuel (tree_store docs) (doc_id <$> xs) = Some trees ->
    tn_doc <$> trees = sort_by sort_order xs
    /\ forall t, t ∈ forest_nodes trees ->
         tn_doc <$> children t
         = sort_by sort_order (children_of docs (doc_id (tn_doc t))).
Proof.
  intros Hnd. induction fuel as [|fuel IH]; intros xs trees Hxs; [done|].
  rewrite sortNodes_unfold, sorted_refs by done.
  assert (Hys : forall x, x ∈ sort_by sort_order xs -> x ∈ docs).
  { intros x Hx. rewrite sort_by_perm in Hx. by apply Hxs. }
  clear Hxs. revert trees.
  induction (sort_by sort_order xs) as [|x ys IHys]; intros trees.
  - cbn. intros [= <-]. split; [done|].
    intros t Ht. by apply elem_of_nil in Ht.
  - rewrite fmap_cons. cbn [mapM].
    pose proof (second_pass_lookup docs Hnd x (Hys x ltac:(left))) as Hm.
    fold (tree_store docs) in Hm.
    rewrite Hm. cbn [mbind option_bind node_children node_doc].
    destruct (sortNodes fuel (tree_store docs)
                (doc_id <$> children_of docs (doc_id x))) as [cs|] eqn:Hcs;
      [|done].
    cbn [mbind option_bind].
    destruct (mapM _ (doc_id <$> ys)) as [ts|] eqn:Hts; [|done].
    cbn. intros [= <-].
    destruct (IHys ltac:(intros y Hy; apply Hys; by right) ts eq_refl)
      as [Hdocs Hkids].
    destruct (IH (children_of docs (doc_id x)) cs) as [Hcdocs Hckids]; [|done|].
    { intros c Hc. by eapply children_elem. }
    split.
    + by rewrite fmap_cons, Hdocs.
    + intros t Ht. unfold forest_nodes in *. rewrite bind_cons in Ht.
      apply elem_of_app in Ht as [Ht|Ht]; [|by apply Hkids].
      cbn [subtrees children] in Ht. apply elem_of_cons in Ht as [->|Ht].
      * done.
      * by apply Hckids.
Qed.

Lemma buildDocumentTree_order (docs : list Document) :
  NoDup (doc_id <$> docs) ->
  exists forest,
    buildDocumentTree docs = Some forest
    /\ tn_doc <$> forest = sort_by sort_order (roots_of docs)
    /\ forall t, t ∈ forest_nodes forest ->
         tn_doc <$> children t
         = sort_by sort_order (children_of docs (doc_id (tn_doc t))).
Proof.
  intros Hnd. destruct (buildDocumentTree_total docs Hnd) as [forest Hb].
  exists forest. split; [done|].
  unfold buildDocumentTree in Hb. cbn zeta in Hb. fold (tree_store docs) in Hb.
  rewrite second_pass_roots in Hb.
  apply (sortNodes_order docs _ Hnd) in Hb; [done|].
  intros r Hr. by apply list_elem_of_filter in Hr as [_ Hr].
Qed.

(** X10: in the tree of a list with distinct ids the roots, and the
    children of every node, come by ascending [sort_order], and
    documents of equal order keep the order they have in the list. *)
Theorem buildDocumentTree_sibling_order (docs : list Document) :
  NoDup (doc_id <$> docs) ->
  exists forest,
    buildDocumentTree docs = Some forest
    /\ StronglySorted by_sort_order (tn_doc <$> forest)
    /\ (forall k, filter (fun d => sort_order d = k) (tn_doc <$> forest)
                  = filter (fun d => sort_order d = k) (roots_of docs))
    /\ forall t, t ∈ forest_nodes forest ->
         StronglySorted by_sort_order (tn_doc <$> children t)
         /\ forall k,
              filter (fun d => sort_order d = k) (tn_doc <$> children t)
              = filter (fun d => sort_order d = k)
                  (children_of docs (doc_id (tn_doc t))).
Proof.
  intros Hnd.
  destruct (buildDocumentTree_order docs Hnd) as (forest & Hb & Hroots & Hkids).
  exists forest. split_and!; [done| | |].
  - rewrite Hroots. apply sort_by_sorted.
  - intros k. rewrite Hroots. apply sort_by_stable.
  - intros t Ht. rewrite (Hkids t Ht). split.
    + apply sort_by_sorted.
    + intros k. apply sort_by_stable.
Qed.

Lemma buildDocumentTree_sibling_order_witness :
  exists forest,
    buildDocumentTree sample_forest = Some forest
    /\ StronglySorted by_sort_order (tn_doc <$> forest).
Proof.
  destruct (buildDocumentTree_sibling_order sample_forest sample_forest_NoDup)
    as (forest & H1 & H2 & _).
  exists forest. split; [exact H1 | exact H2].
Defined.

(** A chain of ancestors as long as the list passes twice through a
    document. *)
Lemma chain_repeats (docs : list Document) (d : Document) :
  NoDup (doc_id <$> docs) ->
  d ∈ docs -> is_Some (up docs (length docs) d) ->
  exists i j, i < j /\ j <= length docs /\ up docs i d = up docs j d.
Proof.
  intros Hnd Hd Hup.
  set (steps := seq 0 (S (length docs))).
  destruct (decide (Exists (fun i =>
              Exists (fun j => i < j /\ up docs i d = up docs j d) steps) steps))
    as [Hex|Hno].
  - apply Exists_exists in Hex as (i & Hi & Hex).
    apply Exists_exists in Hex as (j & Hj & Hij & E).
    apply elem_of_seq in Hj. exists i, j. split_and!; [done|lia|done].
  - exfalso.
    enough (length docs < length docs) by lia.
    apply (chain_bound docs (length docs) d Hd Hup).
    intros i j Hij Hj E. apply Hno.
    apply Exists_exists. exists i. split; [apply elem_of_seq; lia|].
    apply Exists_exists. exists j. split; [apply elem_of_seq; lia|done].
Qed.

(** X11: for any list with distinct ids, cycles or not, the tree is
    built; it holds no document twice, and the documents it holds are
    those of the list whose chain of parents ends, the others (the ones
    on or under a cycle) are left out. *)
Theorem buildDocumentTree_any_list (docs : list Document) :
  NoDup (doc_id <$> docs) ->
  exists forest,
    buildDocumentTree docs = Some forest
    /\ NoDup (flatten_forest forest)
    /\ (forall d, d ∈ flatten_forest forest <->
          d ∈ docs /\ up docs (length docs) d = None)
    /\ length (flatten_forest forest) <= length docs
    /\ (forall d, d ∈ docs -> d ∉ flatten_forest forest ->
          exists x, ancestor docs x x
                    /\ (doc_id d = x \/ ancestor docs x (doc_id d))).
Proof.
  intros Hnd.
  destruct (buildDocumentTree_spec docs Hnd) as (forest & Hb & _ & Hflat & _).
  assert (Hnd' : NoDup docs) by by eapply NoDup_fmap_1.
  rewrite <- Hflat in Hnd'. apply NoDup_app in Hnd' as (Hnd1 & Hdisj & _).
  assert (Hmem : forall d, d ∈ flatten_forest forest <->
                   d ∈ docs /\ up docs (length docs) d = None).
  { intros d. split.
    - intros Hd. split; [rewrite <- Hflat; apply elem_of_app; by left|].
      destruct (up docs (length docs) d) as [y|] eqn:Hup; [|done].
      exfalso. apply (Hdisj d Hd). apply list_elem_of_filter. split.
      + by eexists.
      + rewrite <- Hflat. apply elem_of_app. by left.
    - intros [Hd Hup]. rewrite <- Hflat in Hd.
      apply elem_of_app in Hd as [Hd|Hd]; [done|].
      apply list_elem_of_filter in Hd as [[y Hy] _]. congruence. }
  exists forest. split_and!; [done|done|done| |].
  - apply Permutation_length in Hflat. rewrite length_app in Hflat. lia.
  - intros d Hd Hout.
    assert (Hup : is_Some (up docs (length docs) d)).
    { destruct (up docs (length docs) d) eqn:E; [by eexists|].
      exfalso. apply Hout, Hmem. done. }
    destruct (chain_repeats docs d Hnd Hd Hup) as (i & j & Hij & Hj & E).
    destruct (up_le docs i (length docs) d ltac:(lia) Hup) as [y Hy].
    assert (Hyin : y ∈ docs) by by eapply up_elem.
    exists (doc_id y). split.
    + replace j with (i + S (j - i - 1)) in E by lia.
      rewrite up_add, Hy in E. cbn [mbind option_bind] in E.
      unfold ancestor. by apply (up_tc docs (j - i - 1)).
    + destruct i as [|i].
      * cbn in Hy. injection Hy as ->. by left.
      * right. unfold ancestor. by apply (up_tc docs i).
Qed.

Lemma buildDocumentTree_any_list_witness :
  exists forest,
    buildDocumentTree [sample_doc "a" (Some "a") 0 false false] = Some forest
    /\ NoDup (flatten_forest forest).
Proof.
  destruct (buildDocumentTree_any_list [sample_doc "a" (Some "a") 0 false false])
    as (forest & H1 & H2 & _).
  - cbn. apply NoDup_singleton.
  - exists forest. split; [exact H1 | exact H2].
Defined.

(** * More on slugs *)

Lemma dash_not_slug_char : is_slug_char dash = false.
Proof. done. Qed.

Lemma slug_shape_weaken (s : list ascii) :
  slug_shape true s = true -> slug_shape false s = true.
Proof.
  destruct s as [|c s]; [done|]. cbn. destruct (is_slug_char c); [done|].
  by rewrite andb_false_r.
Qed.

Lemma Forall_slug_char_shape (w t : list ascii) (b : bool) :
  w <> [] -> Forall (fun c => is_slug_char c = true) w ->
  slug_shape false t = true -> slug_shape b (w ++ t) = true.
Proof.
  intros Hne Hw Ht. revert b. induction Hw as [|c w Hc Hw IH]; intros b; [done|].
  cbn. rewrite Hc. destruct w as [|c' w]; [exact Ht|]. by apply IH.
Qed.

Lemma runs_from_slug_chars (s : list ascii) :
  forall cur, Forall (fun c => is_slug_char c = true) cur ->
    Forall (Forall (fun c => is_slug_char c = true)) (runs_from cur s).
Proof.
  induction s as [|c s IH]; intros cur Hcur; cbn.
  - destruct cur; [constructor | constructor; [done | constructor]].
  - destruct (is_slug_char c) eqn:Hc.
    + apply IH. apply Forall_app. split; [done|].
      constructor; [done | constructor].
    + destruct cur; [by apply IH|]. constructor; [done|]. by apply IH.
Qed.

Lemma concat_runs_shape (ws : list (list ascii)) :
  Forall (fun w => w <> []) ws ->
  Forall (Forall (fun c => is_slug_char c = true)) ws ->
  slug_shape false (List.concat ((fun w => dash :: w) <$> ws)) = true.
Proof.
  intros Hne Hws. induction Hws as [|w ws Hw Hws IH]; [done|].
  apply Forall_cons in Hne as [Hw0 Hne].
  rewrite fmap_cons. cbn [List.concat]. cbn [app slug_shape].
  rewrite dash_not_slug_char. change (Ascii.eqb dash dash) with true.
  cbn [andb negb]. apply Forall_slug_char_shape; [done|done|by apply IH].
Qed.

Lemma join_dash_shape (ws : list (list ascii)) :
  ws <> [] ->
  Forall (fun w => w <> []) ws ->
  Forall (Forall (fun c => is_slug_char c = true)) ws ->
  slug_shape true (join_dash ws) = true.
Proof.
  intros Hws Hne Hall. destruct ws as [|w ws]; [done|].
  apply Forall_cons in Hne as [Hw0 Hne]. apply Forall_cons in Hall as [Hw Hall].
  cbn [join_dash]. apply Forall_slug_char_shape; [done|done|].
  by apply concat_runs_shape.
Qed.

(** The cleaned text of a title has the shape of a slug, or is empty. *)
Lemma cleaned_shape (s : list ascii) :
  let t := strip_end (strip_start (replace_runs false s)) in
  t = [] \/ slug_shape true t = true.
Proof.
  cbn zeta. rewrite <- join_runs.
  destruct (alnum_runs s) as [|w ws] eqn:E; [by left|right].
  rewrite <- E. apply join_dash_shape.
  - by rewrite E.
  - apply runs_from_all_nonempty.
  - by apply runs_from_slug_chars.
Qed.

Lemma slug_shape_chars (b : bool) (s : list ascii) :
  slug_shape b s = true ->
  Forall (fun c => is_slug_char c = true \/ c = dash) s.
Proof.
  revert b. induction s as [|c s IH]; intros b Hs; [constructor|].
  cbn in Hs. destruct (is_slug_char c) eqn:Hc.
  - constructor; [by left | by eapply IH].
  - apply andb_true_iff in Hs as [Hs Hs']. apply andb_true_iff in Hs as [Hd _].
    constructor; [right; by apply Ascii.eqb_eq | by eapply IH].
Qed.

Lemma slug_shape_no_double (b : bool) (l1 l2 : list ascii) :
  slug_shape b (l1 ++ dash :: dash :: l2) = false.
Proof.
  revert b. induction l1 as [|c l1 IH]; intros b.
  - cbn. by rewrite andb_false_r.
  - cbn. destruct (is_slug_char c); [apply IH|].
    by rewrite IH, andb_false_r.
Qed.

Lemma slug_shape_head (s : list ascii) :
  slug_shape true s = true -> head s <> Some dash.
Proof.
  destruct s as [|c s]; [done|]. cbn. intros Hs [= ->].
  by rewrite dash_not_slug_char, andb_false_r in Hs.
Qed.

Lemma slug_shape_last (b : bool) (s : list ascii) :
  slug_shape b s = true -> last s <> Some dash.
Proof.
  revert b. induction s as [|c s IH]; intros b Hs; [done|].
  destruct s as [|c' s].
  - cbn in *. intros [= ->]. by rewrite dash_not_slug_char, andb_false_r in Hs.
  - rewrite last_cons_cons. cbn [slug_shape] in Hs.
    destruct (is_slug_char c); [by eapply IH|].
    apply andb_true_iff in Hs as [_ Hs]. by eapply IH.
Qed.

(** X12: the slug made of a title holds only characters of [[a-z0-9]] and
    separators, it neither starts nor ends with a separator and has no
    two separators in a row; the name under which a page is stored is
    never empty. *)
Theorem slug_text_shape (index : nat) (title : string) :
  let s := String.list_ascii_of_string (slug_text title) in
  Forall (fun c => is_slug_char c = true \/ c = dash) s
  /\ head s <> Some dash /\ last s <> Some dash
  /\ (forall l1 l2, s <> l1 ++ dash :: dash :: l2)
  /\ slug_of index title <> ""
  /\ (slug_text title <> "" -> slug_of index title = slug_text title).
Proof.
  cbn zeta. unfold slug_of, slug_text.
  rewrite String.list_ascii_of_string_of_list_ascii.
  pose proof (cleaned_shape (toLowerCase (String.list_ascii_of_string title)))
    as Hshape. cbn zeta in Hshape.
  set (t := strip_end _) in *.
  split_and!.
  - destruct Hshape as [->|Hs]; [constructor | by eapply slug_shape_chars].
  - destruct Hshape as [->|Hs]; [done | by apply slug_shape_head].
  - destruct Hshape as [->|Hs]; [done | by eapply slug_shape_last].
  - intros l1 l2 E. destruct Hshape as [Ht|Hs].
    + rewrite Ht in E. by destruct l1.
    + by rewrite E, slug_shape_no_double in Hs.
  - destruct (String.eqb_spec (String.string_of_list_ascii t) "") as [E|E];
      [done | exact E].
  - intros Hne.
    by destruct (String.eqb_spec (String.string_of_list_ascii t) "").
Qed.

Lemma lower_char_fixed (c : ascii) :
  is_slug_char c = true \/ c = dash -> lower_char c = c.
Proof.
  intros H. unfold lower_char.
  enough (is_upper c = false) as -> by done.
  destruct H as [H| ->]; [|done].
  unfold is_slug_char, is_upper in *. cbn zeta in *.
  destruct (N.leb_spec 65 (N_of_ascii c)), (N.leb_spec (N_of_ascii c) 90);
    try done.
  destruct (N.leb_spec 97 (N_of_ascii c)), (N.leb_spec (N_of_ascii c) 57);
    cbn in H; try lia; try done.
Qed.

Lemma replace_runs_shape (b : bool) (s : list ascii) :
  slug_shape b s = true -> replace_runs b s = s.
Proof.
  revert b. induction s as [|c s IH]; intros b Hs; [done|].
  cbn in *. destruct (is_slug_char c); [by rewrite IH|].
  apply andb_true_iff in Hs as [Hs Hs']. apply andb_true_iff in Hs as [Hd Hb].
  apply Ascii.eqb_eq in Hd as ->. destruct b; [done|]. by rewrite IH.
Qed.

Lemma strip_end_fixed (s : list ascii) :
  last s <> Some dash -> strip_end s = s.
Proof.
  induction s as [|c s IH]; [done|]. intros Hl. cbn [strip_end].
  destruct s as [|c' s].
  - destruct (Ascii.eqb_spec c dash) as [->|]; [by cbn in Hl|done].
  - rewrite last_cons_cons in Hl. by rewrite IH.
Qed.

Lemma strip_start_fixed (s : list ascii) :
  head s <> Some dash -> strip_start s = s.
Proof.
  destruct s as [|c s]; [done|]. cbn. intros Hh.
  destruct (Ascii.eqb_spec c dash) as [->|]; [done|done].
Qed.

(** X13: making the slug of a slug changes nothing. *)
Theorem slug_text_idempotent (title : string) :
  slug_text (slug_text title) = slug_text title.
Proof.
  unfold slug_text at 2.
  pose proof (cleaned_shape (toLowerCase (String.list_ascii_of_string title)))
    as Hshape. cbn zeta in Hshape.
  set (t := strip_end _) in *.
  unfold slug_text. rewrite String.list_ascii_of_string_of_list_ascii.
  f_equal. fold t. clearbody t. destruct Hshape as [->|Hs]; [done|].
  assert (Hlow : toLowerCase t = t).
  { unfold toLowerCase. rewrite <- (list_fmap_id t) at 2.
    apply list_fmap_ext. intros i c Hc. apply lower_char_fixed.
    pose proof (slug_shape_chars _ _ Hs) as Hall.
    rewrite Forall_forall in Hall. by eapply Hall, list_elem_of_lookup_2. }
  rewrite Hlow, (replace_runs_shape false) by (by apply slug_shape_weaken).
  rewrite strip_start_fixed by (by apply slug_shape_head).
  apply strip_end_fixed. by eapply slug_shape_last.
Qed.

(** ** [generateSlug] *)

Lemma digit36_spec (d : N) :
  (d < 36)%N ->
  digit36_value (digit36 d) = d /\ is_slug_char (digit36 d) = true.
Proof.
  intros Hd. destruct d as [|p]; [done|].
  do 6 (try destruct p as [p|p|]); try lia; by vm_compute.
Qed.

Lemma value36_snoc (ds : list ascii) (c : ascii) :
  value36 (ds ++ [c]) = (value36 ds * 36 + digit36_value c)%N.
Proof. unfold value36. by rewrite foldl_snoc. Qed.

(** The digits that [digits36] puts before [acc] are those of [n]. *)
Lemma digits36_spec (fuel : nat) :
  forall (n : N) (acc : list ascii),
    (n < 2 ^ N.of_nat fuel)%N ->
    exists ds,
      digits36 fuel n acc = ds ++ acc
      /\ value36 ds = n
      /\ Forall (fun c => is_slug_char c = true) ds.
Proof.
  induction fuel as [|fuel IH]; intros n acc Hn.
  - exists []. cbn in *. split_and!; [done| |constructor].
    unfold value36. cbn. lia.
  - cbn [digits36]. destruct (N.eqb_spec n 0) as [->|Hne].
    + exists []. split_and!; [done|done|constructor].
    + rewrite Nat2N.inj_succ, N.pow_succ_r' in Hn.
      destruct (IH (n / 36)%N (digit36 (n mod 36)%N :: acc)) as (ds & Hds & Hval & Hall).
      { apply N.Div0.div_lt_upper_bound. lia. }
      assert (Hmod : (n mod 36 < 36)%N) by (apply N.mod_lt; lia).
      destruct (digit36_spec _ Hmod) as [Hv Hc].
      exists (ds ++ [digit36 (n mod 36)%N]). split_and!.
      * by rewrite Hds, <- app_assoc.
      * rewrite value36_snoc, Hval, Hv.
        pose proof (N.div_mod n 36 ltac:(lia)). lia.
      * apply Forall_app. split; [done|]. constructor; [done|constructor].
Qed.

Lemma toString36_spec (n : N) :
  value36 (toString36 n) = n
  /\ Forall (fun c => is_slug_char c = true) (toString36 n).
Proof.
  unfold toString36. destruct (N.eqb_spec n 0) as [->|Hne].
  - split; [done|]. constructor; [done|constructor].
  - destruct (digits36_spec (S (N.to_nat (N.log2 n))) n []) as (ds & -> & Hval & Hall).
    + rewrite Nat2N.inj_succ, N2Nat.id. apply N.log2_spec. lia.
    + by rewrite app_nil_r.
Qed.

Lemma app_sep_inj {A} (x : A) (p1 p2 d1 d2 : list A) :
  x ∉ d1 -> x ∉ d2 -> p1 ++ x :: d1 = p2 ++ x :: d2 -> p1 = p2 /\ d1 = d2.
Proof.
  intros H1 H2. revert p2.
  induction p1 as [|a p1 IH]; intros [|b p2] E; cbn in E.
  - injection E as E. by subst.
  - injection E as Ex Ed. exfalso. apply H1. rewrite Ed.
    apply elem_of_app. right. left.
  - injection E as Ex Ed. exfalso. apply H2. rewrite <- Ed.
    apply elem_of_app. right. left.
  - injection E as Ex E. destruct (IH _ E) as [Hp Hd]. by subst.
Qed.

Lemma slug_chars_no_dash (ds : list ascii) :
  Forall (fun c => is_slug_char c = true) ds -> dash ∉ ds.
Proof.
  rewrite Forall_forall. intros Hall Hin. by apply Hall in Hin.
Qed.

Lemma take_shape_chars (n : nat) (s : list ascii) :
  Forall (fun c => is_slug_char c = true \/ c = dash) s ->
  Forall (fun c => is_slug_char c = true \/ c = dash) (take n s).
Proof. apply Forall_take. Qed.

(** X14: the slug the dashboard makes for a new project holds only
    characters of [[a-z0-9]] and separators, its name part has at most
    50 characters, and two slugs are equal only when they were made in
    the same millisecond from names with the same name part. *)
Theorem generateSlug_unique (now1 now2 : N) (name1 name2 : string) :
  now1 <> now2 \/ slug_prefix name1 <> slug_prefix name2 ->
  generateSlug now1 name1 <> generateSlug now2 name2
  /\ Forall (fun c => is_slug_char c = true \/ c = dash)
       (String.list_ascii_of_string (generateSlug now1 name1))
  /\ length (slug_prefix name1) <= 50.
Proof.
  intros Hdiff. split_and!.
  - intros E. unfold generateSlug in E.
    apply (f_equal String.list_ascii_of_string) in E.
    rewrite !String.list_ascii_of_string_of_list_ascii in E.
    destruct (toString36_spec now1) as [Hv1 Hc1].
    destruct (toString36_spec now2) as [Hv2 Hc2].
    apply app_sep_inj in E as [Hp Hd]; [|by apply slug_chars_no_dash..].
    destruct Hdiff as [Hn|Hn]; [|done].
    apply Hn. by rewrite <- Hv1, <- Hv2, Hd.
  - unfold generateSlug. rewrite String.list_ascii_of_string_of_list_ascii.
    apply Forall_app. split.
    + unfold slug_prefix. apply take_shape_chars.
      pose proof (cleaned_shape (toLowerCase (String.list_ascii_of_string name1)))
        as Hshape. cbn zeta in Hshape.
      destruct Hshape as [->|Hs]; [constructor | by eapply slug_shape_chars].
    + constructor; [by right|].
      eapply Forall_impl; [apply toString36_spec|]. cbn. by left.
  - unfold slug_prefix. rewrite length_take. lia.
Qed.

Lemma generateSlug_unique_witness :
  generateSlug 1700000000000 "My Docs" <> generateSlug 1700000000001 "My Docs".
Proof.
  destruct (generateSlug_unique 1700000000000 1700000000001 "My Docs" "My Docs")
    as (H & _).
  - left. discriminate.
  - exact H.
Defined.

(** * More on the escape of [markdownToHtml] *)

Lemma escape_html_bind (s : list ascii) : escape_html s = s ≫= escape_char.
Proof. induction s as [|c s IH]; [done|]. by rewrite escape_html_cons, IH. Qed.

Lemma escape_char_cancel (c c' : ascii) (r r' : list ascii) :
  escape_char c ++ r = escape_char c' ++ r' -> c = c' /\ r = r'.
Proof.
  unfold escape_char.
  destruct (Ascii.eqb_spec c "&") as [->|Ha];
    [|destruct (Ascii.eqb_spec c "<") as [->|Hl];
      [|destruct (Ascii.eqb_spec c ">") as [->|Hg]]];
  (destruct (Ascii.eqb_spec c' "&") as [->|Ha'];
    [|destruct (Ascii.eqb_spec c' "<") as [->|Hl'];
      [|destruct (Ascii.eqb_spec c' ">") as [->|Hg']]]);
  cbn; intros E; try discriminate E;
  try (injection E as E; by subst);
  try (injection E as E1 E2; by subst).
Qed.

Lemma escape_char_nonempty (c : ascii) : escape_char c <> [].
Proof.
  unfold escape_char.
  by destruct (Ascii.eqb c "&"), (Ascii.eqb c "<"), (Ascii.eqb c ">").
Qed.

(** X15: the escape loses nothing: two source texts with the same
    escaped text are the same text. A text without ["&"], ["<"] and
    [">"] is left as it is, and no text gets shorter. *)
Theorem escape_html_injective (s t : list ascii) :
  (escape_html s = escape_html t -> s = t)
  /\ (escape_html s = s <->
      forall c, c ∈ s -> c <> "&"%char /\ c <> "<"%char /\ c <> ">"%char)
  /\ length s <= length (escape_html s).
Proof.
  split_and!.
  - rewrite !escape_html_bind. revert t.
    induction s as [|c s IH]; intros [|c' t] E; [done| | |].
    + cbn in E. symmetry in E. apply app_eq_nil in E as [E _].
      by apply escape_char_nonempty in E.
    + cbn in E. apply app_eq_nil in E as [E _].
      by apply escape_char_nonempty in E.
    + cbn in E. apply escape_char_cancel in E as [-> E]. by rewrite (IH t).
  - assert (Hlen : forall u, length u <= length (escape_html u)).
    { induction u as [|c u IHu]; [done|].
      rewrite escape_html_cons, length_app. cbn [length].
      pose proof (escape_char_nonempty c).
      destruct (escape_char c); [done|]. cbn. lia. }
    induction s as [|c s IH].
    + split; [|done]. intros _ c Hc. by apply elem_of_nil in Hc.
    + rewrite escape_html_cons. split.
      * intros E.
        assert (Hc : escape_char c = [c]).
        { apply (f_equal length) in E. rewrite length_app in E. cbn in E.
          pose proof (Hlen s). unfold escape_char in *.
          destruct (Ascii.eqb c "&"); [cbn in E; lia|].
          destruct (Ascii.eqb c "<"); [cbn in E; lia|].
          destruct (Ascii.eqb c ">"); [cbn in E; lia|]. done. }
        rewrite Hc in E. injection E as E.
        intros x Hx. apply elem_of_cons in Hx as [->|Hx]; [|by apply IH].
        unfold escape_char in Hc.
        destruct (Ascii.eqb_spec c "&"); [discriminate|].
        destruct (Ascii.eqb_spec c "<"); [discriminate|].
        destruct (Ascii.eqb_spec c ">"); [discriminate|]. done.
      * intros Hall.
        destruct (Hall c ltac:(left)) as (Ha & Hl & Hg).
        unfold escape_char.
        destruct (Ascii.eqb_spec c "&"); [done|].
        destruct (Ascii.eqb_spec c "<"); [done|].
        destruct (Ascii.eqb_spec c ">"); [done|].
        cbn. f_equal. apply IH. intros x Hx. apply Hall. by right.
  - induction s as [|c s IH]; [done|].
    rewrite escape_html_cons, length_app. cbn [length].
    pose proof (escape_char_nonempty c).
    destruct (escape_char c); [done|]. cbn. lia.
Qed.

(** * More on the publish function *)

Lemma filter_singleton_find {A} (f : A -> bool) (l : list A) (x : A) :
  List.filter f l = [x] -> find f l = Some x /\ x ∈ l /\ f x = true.
Proof.
  induction l as [|y l IH]; [done|]. cbn. destruct (f y) eqn:Hy.
  - intros [= -> _]. split_and!; [done|left|done].
  - intros E. destruct (IH E) as (? & ? & ?). split_and!; [done|by right|done].
Qed.

Lemma single_Some {A} (rows : list A) (x : A) : single rows = Some x -> rows = [x].
Proof. destruct rows as [|y [|z rows]]; cbn; congruence. Qed.

Section serve_facts.

Variable regex_replace : RegexReplace.
Variable defaultStyles : string.

Local Abbreviation serve' := (serve regex_replace defaultStyles).
Local Abbreviation publish_selected' := (publish_selected regex_replace defaultStyles).

Lemma publish_selected_success o w user project template docs :
  is_success (publish_selected' o w user project template docs).2 = true ->
  bundle_error o = None /\ upload_error o = None
  /\ exists publishId,
       (publish_selected' o w user project template docs).2
       = mkResponse 200
           (SuccessBody ("v" +:+ pretty (date_now o))
              (public_url o (proj_id project +:+ "/" +:+ ("v" +:+ pretty (date_now o))
                             +:+ "/site.zip"))
              (proj_id project +:+ "/" +:+ ("v" +:+ pretty (date_now o)) +:+ "/site.zip")
              (length docs) publishId).
Proof.
  unfold publish_selected.
  destruct (bundle_error o); [done|]. destruct (upload_error o); [done|].
  intros _. split_and!; [done|done|].
  destruct (insert_error o); by eexists.
Qed.

Lemma publish_selected_tables o w user project template docs :
  let r := publish_selected' o w user project template docs in
  (is_success r.2 = false -> r.1 = w)
  /\ projects (database r.1) = projects (database w)
  /\ project_members (database r.1) = project_members (database w)
  /\ documents_table (database r.1) = documents_table (database w)
  /\ (publishes (database r.1) = publishes (database w)
      \/ exists record, publishes (database r.1) = publishes (database w) ++ [record]).
Proof.
  cbn zeta. unfold publish_selected.
  destruct (bundle_error o); [by split_and!; try left|].
  destruct (upload_error o); [by split_and!; try left|].
  destruct (insert_error o); cbn.
  - split_and!; try done. by left.
  - split_and!; try done. right. by eexists.
Qed.

End serve_facts.

(** X16: the function answers with a success only to a request that
    carries an authorization header and a project id, from a signed-in
    user who has at least the role [editor] in that project, for a
    project that exists and has published documents that are not
    folders; the answer has status 200 and counts those documents. *)
Theorem serve_success_requires (regex_replace : RegexReplace)
    (defaultStyles : string) (o : Outcomes) (w : World) (req : Request) :
  let r := serve regex_replace defaultStyles o w req in
  is_success r.2 = true ->
  is_options req = false /\ is_Some (authorization req)
  /\ exists projectId template user project publishId,
       json req = inr (Some projectId, template) /\ projectId <> ""
       /\ token_user o = Some user
       /\ has_project_access (database w) projectId user editor = true
       /\ project ∈ projects (database w) /\ proj_id project = projectId
       /\ published_documents w projectId <> []
       /\ docs_error o = None /\ bundle_error o = None /\ upload_error o = None
       /\ r.2 = mkResponse 200
                  (SuccessBody ("v" +:+ pretty (date_now o))
                     (public_url o (projectId +:+ "/" +:+ ("v" +:+ pretty (date_now o))
                                    +:+ "/site.zip"))
                     (projectId +:+ "/" +:+ ("v" +:+ pretty (date_now o)) +:+ "/site.zip")
                     (length (published_documents w projectId)) publishId).
Proof.
  cbn zeta. unfold serve.
  destruct (is_options req); [done|].
  destruct (authorization req) as [hdr|]; [|done].
  destruct (json req) as [msg|[projectId template]]; [done|].
  destruct projectId as [projectId|]; [|done]. cbn [or_null].
  destruct (String.eqb_spec projectId "") as [|Hne]; [done|].
  destruct (token_user o) as [user|]; [|done].
  destruct (single (List.filter _ (project_members (database w)))) as [m|] eqn:Hm;
    [|done].
  destruct (bool_decide (role m = owner) || bool_decide (role m = editor)) eqn:Hrole;
    [|done].
  destruct (single (List.filter _ (projects (database w)))) as [project|] eqn:Hp;
    [|done].
  destruct (docs_error o) as [e|]; [done|].
  destruct (published_documents w projectId) as [|d docs] eqn:Hdocs; [done|].
  intros Hok.
  apply single_Some, filter_singleton_find in Hm as (Hfind & _ & _).
  apply single_Some, filter_singleton_find in Hp as (_ & Hin & Hid).
  apply bool_decide_eq_true in Hid.
  destruct (publish_selected_success _ _ _ _ _ _ _ _ Hok)
    as (Hb & Hu & publishId & Hresp).
  split_and!; [done|by eexists|].
  exists projectId, template, user, project, publishId.
  rewrite Hdocs. split_and!; try done.
  - unfold has_project_access, member_role. rewrite Hfind. exact Hrole.
  - by rewrite Hid in Hresp.
Qed.

Lemma serve_success_requires_witness :
  has_project_access (database sample_world) "p1" "u1" editor = true.
Proof.
  destruct (serve_success_requires (fun _ _ _ s => s) "" (sample_outcomes None)
              sample_world sample_request eq_refl)
    as (_ & _ & projectId & template & user & project & publishId
        & Hjson & _ & Huser & Hacc & _).
  injection Hjson as <- _. injection Huser as <-. exact Hacc.
Defined.

(** X17: a run that does not answer with a success leaves the database
    and the bucket as they were; no run changes the projects, the
    members or the documents, and a run adds at most one record to
    [publishes]. *)
Theorem serve_changes (regex_replace : RegexReplace)
    (defaultStyles : string) (o : Outcomes) (w : World) (req : Request) :
  let r := serve regex_replace defaultStyles o w req in
  (is_success r.2 = false -> r.1 = w)
  /\ projects (database r.1) = projects (database w)
  /\ project_members (database r.1) = project_members (database w)
  /\ documents_table (database r.1) = documents_table (database w)
  /\ (publishes (database r.1) = publishes (database w)
      \/ exists record, publishes (database r.1) = publishes (database w) ++ [record]).
Proof.
  cbn zeta. unfold serve.
  repeat match goal with
         | |- context [match ?x with _ => _ end] =>
             lazymatch x with
             | published_documents _ _ => fail
             | _ => destruct x eqn:?
             end
         | |- context [if ?x then _ else _] => destruct x eqn:?
         end;
    try (split_and!; try done; by left).
  all: destruct (published_documents _ _) eqn:?;
    [split_and!; try done; by left | apply publish_selected_tables].
Qed.

(** ** The archive *)

Lemma zip_file_names (n d : string) (zip : Archive) (n' : string) :
  n' ∈ (zip_file n d zip).*1 <-> n' = n \/ n' ∈ zip.*1.
Proof.
  induction zip as [|[n0 d0] zip IH]; cbn.
  - rewrite list_elem_of_singleton, elem_of_nil. tauto.
  - destruct (String.eqb_spec n0 n) as [->|Hne]; cbn.
    + rewrite !elem_of_cons. tauto.
    + rewrite !elem_of_cons, IH. tauto.
Qed.

Lemma zip_file_NoDup (n d : string) (zip : Archive) :
  NoDup zip.*1 -> NoDup (zip_file n d zip).*1.
Proof.
  induction zip as [|[n0 d0] zip IH]; cbn; intros Hnd.
  - apply NoDup_singleton.
  - apply NoDup_cons in Hnd as [Hn0 Hnd].
    destruct (String.eqb_spec n0 n) as [->|Hne]; cbn.
    + by apply NoDup_cons.
    + apply NoDup_cons. split; [|by apply IH].
      rewrite zip_file_names. intros [?|?]; done.
Qed.

Lemma zip_file_elem (n d : string) (zip : Archive) : (n, d) ∈ zip_file n d zip.
Proof.
  induction zip as [|[n0 d0] zip IH]; cbn; [left|].
  destruct (String.eqb_spec n0 n) as [->|Hne]; [left | by right].
Qed.

Lemma zip_file_length (n d : string) (zip : Archive) :
  length (zip_file n d zip) <= S (length zip).
Proof.
  induction zip as [|[n0 d0] zip IH]; cbn; [lia|].
  destruct (String.eqb n0 n); cbn; lia.
Qed.

Lemma zip_file_length2 (n d n' d' : string) (zip : Archive) :
  length (zip_file n d (zip_file n' d' zip)) <= S (S (length zip)).
Proof.
  pose proof (zip_file_length n d (zip_file n' d' zip)).
  pose proof (zip_file_length n' d' zip). lia.
Qed.

Lemma zip_fold {X} (f g : X -> string) (l : list X) :
  forall zip : Archive,
    let out := foldl (fun zip x => zip_file (f x) (g x) zip) zip l in
    (NoDup zip.*1 -> NoDup out.*1)
    /\ (forall n, n ∈ out.*1 <-> n ∈ zip.*1 \/ exists x, x ∈ l /\ n = f x)
    /\ length out <= length zip + length l.
Proof.
  induction l as [|x l IH]; intros zip; cbn zeta.
  - cbn. split_and!; [done| |lia]. intros n. split; [by left|].
    intros [?|(x & Hx & _)]; [done|]. by apply elem_of_nil in Hx.
  - cbn [foldl]. destruct (IH (zip_file (f x) (g x) zip)) as (Hnd & Hnames & Hlen).
    split_and!.
    + intros H. by apply Hnd, zip_file_NoDup.
    + intros n. rewrite Hnames, zip_file_names. split.
      * intros [[->|?]|(y & Hy & ->)]; [right|by left|right].
        -- exists x. split; [left|done].
        -- exists y. split; [by right|done].
      * intros [?|(y & Hy & ->)]; [left; by right|].
        apply elem_of_cons in Hy as [->|Hy]; [left; by left|].
        right. by exists y.
    + pose proof (zip_file_length (f x) (g x) zip). cbn [length]. lia.
Qed.

(** X18: the archive of a run has no two files of the same name; its
    files are [styles.css], [index.html] when there is a document, and
    one page [<slug>.html] for each slug; the stylesheet is the default
    one, and there are at most two files more than documents. *)
Theorem bundle_files (regex_replace : RegexReplace) (defaultStyles : string)
    (project_name : string) (docs : list Document) :
  let zip := bundle regex_replace defaultStyles project_name docs in
  NoDup zip.*1
  /\ (forall n, n ∈ zip.*1 <->
        n = "styles.css" \/ (docs <> [] /\ n = "index.html")
        \/ exists i d, docs !! i = Some d /\ n = slug_of i (title d) +:+ ".html")
  /\ ("styles.css", defaultStyles) ∈ zip
  /\ length zip <= length docs + 2.
Proof.
  cbn zeta. unfold bundle.
  set (docsWithSlugs := imap (fun index d => (d, slug_of index (title d))) docs).
  set (navDocs := _ <$> docsWithSlugs).
  destruct (zip_fold (fun ds : Document * string => ds.2 +:+ ".html")
              (fun ds => page regex_replace defaultStyles project_name navDocs ds.1)
              docsWithSlugs []) as (Hnd & Hnames & Hlen).
  cbn zeta in *.
  set (pages := foldl (fun (zip : Archive) (x : Document * string) =>
                         zip_file (x.2 +:+ ".html")
                           (page regex_replace defaultStyles project_name navDocs x.1)
                           zip) [] docsWithSlugs) in *.
  assert (Hpages : forall n, n ∈ pages.*1 <->
            exists i d, docs !! i = Some d /\ n = slug_of i (title d) +:+ ".html").
  { intros n. rewrite Hnames. split.
    - intros [H|(ds & Hds & ->)]; [by apply elem_of_nil in H|].
      apply elem_of_lookup_imap in Hds as (i & d & -> & Hd). by exists i, d.
    - intros (i & d & Hd & ->). right. exists (d, slug_of i (title d)).
      split; [|done]. unfold docsWithSlugs.
      by apply (elem_of_lookup_imap_2 (fun index d => (d, slug_of index (title d)))). }
  assert (Hlen' : length pages <= length docs).
  { unfold docsWithSlugs in Hlen. rewrite length_imap in Hlen. cbn in Hlen. lia. }
  specialize (Hnd ltac:(constructor)).
  destruct docs as [|d0 docs]; cbn [docsWithSlugs imap] in *.
  - split_and!.
    + by apply zip_file_NoDup.
    + intros n. rewrite zip_file_names, Hpages. split.
      * intros [?|?]; [by left | by right; right].
      * intros [?|[[? _]|?]]; [by left | done | by right].
    + apply zip_file_elem.
    + pose proof (zip_file_length "styles.css" defaultStyles pages). lia.
  - split_and!.
    + by apply zip_file_NoDup, zip_file_NoDup.
    + intros n. rewrite !zip_file_names, Hpages. split.
      * intros [?|[?|?]]; [by left | right; by left | by right; right].
      * intros [?|[[_ ?]|?]]; [by left | right; by left | by right; right].
    + apply zip_file_elem.
    + eapply Nat.le_trans; [apply zip_file_length2|].
      change (length (d0 :: docs)) with (S (length docs)) in Hlen' |- *. lia.
Qed.

(** ** The bucket *)

Lemma upload_elem (path : string) (a : Archive) (b : Bucket) :
  (path, a) ∈ upload path a b.
Proof.
  induction b as [|[p x] b IH]; cbn; [left|].
  destruct (String.eqb_spec p path); [left | by right].
Qed.

Lemma upload_keeps (path path' : string) (a a' : Archive) (b : Bucket) :
  path' <> path -> (path', a') ∈ b -> (path', a') ∈ upload path a b.
Proof.
  intros Hne. induction b as [|[p x] b IH]; cbn; intros Hin;
    [by apply elem_of_nil in Hin|].
  apply elem_of_cons in Hin as [E|Hin].
  - injection E as <- <-.
    destruct (String.eqb_spec path' path); [done|left].
  - destruct (String.eqb_spec p path); right; [done | by apply IH].
Qed.

Lemma append_cancel_l (p a b : string) : p +:+ a = p +:+ b -> a = b.
Proof.
  induction p as [|c p IH]; [done|]. intros E.
  change (String c (p +:+ a) = String c (p +:+ b)) in E.
  injection E as E. by apply IH.
Qed.

Lemma list_ascii_of_append (a b : string) :
  String.list_ascii_of_string (a +:+ b)
  = String.list_ascii_of_string a ++ String.list_ascii_of_string b.
Proof.
  induction a as [|c a IH]; [done|].
  change (String.list_ascii_of_string (String c a +:+ b))
    with (c :: String.list_ascii_of_string (a +:+ b)).
  by rewrite IH.
Qed.

Lemma append_cancel_r (a b s : string) : a +:+ s = b +:+ s -> a = b.
Proof.
  intros E. apply (f_equal String.list_ascii_of_string) in E.
  rewrite !list_ascii_of_append in E. apply app_inv_tail in E.
  apply (f_equal String.string_of_list_ascii) in E.
  by rewrite !String.string_of_list_ascii_of_string in E.
Qed.

(** X19: two runs for a project at different times store their archives
    under different paths, and the bucket holds both afterwards. *)
Theorem publish_versions_kept (regex_replace : RegexReplace)
    (defaultStyles : string) (o1 o2 : Outcomes) (w : World)
    (user1 user2 : string) (project : Project) (template1 template2 : string)
    (docs1 docs2 : list Document) :
  bundle_error o1 = None -> upload_error o1 = None ->
  bundle_error o2 = None -> upload_error o2 = None ->
  date_now o1 <> date_now o2 ->
  let r1 := publish_selected regex_replace defaultStyles o1 w user1 project
              template1 docs1 in
  let r2 := publish_selected regex_replace defaultStyles o2 r1.1 user2 project
              template2 docs2 in
  let path o := proj_id project +:+ "/" +:+ ("v" +:+ pretty (date_now o))
                +:+ "/site.zip" in
  path o1 <> path o2
  /\ (path o1, bundle regex_replace defaultStyles (name project) docs1)
       ∈ published_sites r2.1
  /\ (path o2, bundle regex_replace defaultStyles (name project) docs2)
       ∈ published_sites r2.1.
Proof.
  intros Hb1 Hu1 Hb2 Hu2 Hnow r1 r2 path.
  assert (Hpath : path o1 <> path o2).
  { unfold path. intros E. apply append_cancel_l in E. cbn in E.
    injection E as E. apply append_cancel_r in E.
    apply Hnow. by apply (inj pretty). }
  assert (H1 : published_sites r1.1
               = upload (path o1)
                   (bundle regex_replace defaultStyles (name project) docs1)
                   (published_sites w)).
  { subst r1. unfold publish_selected. rewrite Hb1, Hu1.
    by destruct (insert_error o1). }
  assert (H2 : published_sites r2.1
               = upload (path o2)
                   (bundle regex_replace defaultStyles (name project) docs2)
                   (published_sites r1.1)).
  { subst r2. unfold publish_selected. rewrite Hb2, Hu2.
    by destruct (insert_error o2). }
  split_and!; [done| |].
  - rewrite H2, H1. apply upload_keeps; [done|]. apply upload_elem.
  - rewrite H2. apply upload_elem.
Qed.

Lemma publish_versions_kept_witness :
  let o1 := sample_outcomes None in
  let o2 := mkOutcomes (Some "u1") None 1700000000001 None None
              (fun path => path) None "pub2" in
  "p1/v1700000000000/site.zip" <> "p1/v1700000000001/site.zip".
Proof.
  intros o1 o2.
  destruct (publish_versions_kept (fun _ _ _ s => s) "" o1 o2 sample_world
              "u1" "u1" (mkProject "p1" "Docs" None "docs" "u1") "default" "default"
              [] [] eq_refl eq_refl eq_refl eq_refl) as (H & _).
  - cbn. lia.
  - exact H.
Defined.

(** ** The dialog and the function select the same documents *)

Lemma insert_sorted_head {A} (key : A -> Z) (x : A) (l : list A) :
  Forall (fun z => (key x <= key z)%Z) l -> insert_sorted key x l = x :: l.
Proof.
  destruct l as [|y l]; [done|]. intros H. apply Forall_cons in H as [H _].
  cbn. by destruct (Z.leb_spec (key x) (key y)); [|lia].
Qed.

Lemma filter_insert_sorted {A} (key : A -> Z) (f : A -> bool) (x : A) (l : list A) :
  StronglySorted (fun a b => (key a <= key b)%Z) l ->
  List.filter f (insert_sorted key x l)
  = if f x then insert_sorted key x (List.filter f l) else List.filter f l.
Proof.
  induction l as [|y l IH]; intros Hs.
  - cbn. by destruct (f x).
  - apply StronglySorted_inv in Hs as [Hl Hy]. cbn [insert_sorted].
    destruct (Z.leb_spec (key x) (key y)) as [Hxy|Hxy].
    + change (List.filter f (x :: y :: l))
        with (if f x then x :: List.filter f (y :: l) else List.filter f (y :: l)).
      destruct (f x); [|done].
      symmetry. apply insert_sorted_head.
      assert (Hall : Forall (fun z => (key x <= key z)%Z) (y :: l)).
      { constructor; [done|]. eapply Forall_impl; [exact Hy|]. cbn. lia. }
      rewrite Forall_forall in Hall. apply Forall_forall. intros z Hz.
      apply Hall. apply list_elem_of_In in Hz. apply list_elem_of_In.
      by apply filter_In in Hz as [Hz _].
    + cbn [List.filter]. rewrite (IH Hl).
      destruct (f y), (f x); try done.
      cbn [insert_sorted]. by destruct (Z.leb_spec (key x) (key y)); [lia|].
Qed.

Lemma filter_sort_by {A} (key : A -> Z) (f : A -> bool) (l : list A) :
  List.filter f (sort_by key l) = sort_by key (List.filter f l).
Proof.
  induction l as [|x l IH]; [done|].
  rewrite sort_by_cons, filter_insert_sorted by apply sort_by_sorted.
  cbn [List.filter]. destruct (f x); by rewrite IH.
Qed.

Lemma list_filter_bool {A} (P : A -> Prop) `{!forall x, Decision (P x)}
    (l : list A) :
  filter P l = List.filter (fun x => bool_decide (P x)) l.
Proof.
  induction l as [|x l IH]; [done|]. rewrite filter_cons, IH.
  cbn [List.filter].
  destruct (decide (P x)) as [HP|HP];
    [rewrite bool_decide_eq_true_2 by done
    |rewrite bool_decide_eq_false_2 by done]; done.
Qed.

Lemma filter_filter_bool {A} (f g : A -> bool) (l : list A) :
  List.filter g (List.filter f l) = List.filter (fun x => f x && g x) l.
Proof.
  induction l as [|x l IH]; [done|]. cbn.
  destruct (f x); cbn; [|done]. destruct (g x); by rewrite IH.
Qed.



(** * More on projects and members *)

Lemma List_filter_sublist {A} (f : A -> bool) (l : list A) :
  List.filter f l `sublist_of` l.
Proof.
  induction l as [|x l IH]; [done|]. cbn.
  destruct (f x); [by apply sublist_skip | by apply sublist_cons].
Qed.

Lemma NoDup_fmap_List_filter {A B} (g : A -> B) (f : A -> bool) (l : list A) :
  NoDup (g <$> l) -> NoDup (g <$> List.filter f l).
Proof.
  intros Hnd. apply (sublist_NoDup _ _ Hnd), fmap_sublist, List_filter_sublist.
Qed.

Lemma elem_of_List_filter {A} (f : A -> bool) (l : list A) (x : A) :
  x ∈ List.filter f l <-> x ∈ l /\ f x = true.
Proof. rewrite !list_elem_of_In. apply filter_In. Qed.

Lemma existsb_false {A} (f : A -> bool) (l : list A) :
  existsb f l = false -> forall x, x ∈ l -> f x = false.
Proof.
  intros Hex x Hx. destruct (f x) eqn:E; [|done].
  assert (existsb f l = true); [|congruence].
  apply existsb_exists. exists x. split; [by apply list_elem_of_In | done].
Qed.

Lemma NoDup_snoc_fresh {A B} (g : A -> B) (l : list A) (x : A) :
  NoDup (g <$> l) -> (forall y, y ∈ l -> g y <> g x) -> NoDup (g <$> l ++ [x]).
Proof.
  intros Hnd Hfresh. rewrite fmap_app. apply NoDup_app.
  split_and!; [done| |apply NoDup_singleton].
  intros b Hb Hb'. cbn in Hb'. apply list_elem_of_singleton in Hb' as ->.
  apply list_elem_of_fmap in Hb as (y & Hy & Hin). by apply (Hfresh y).
Qed.

Lemma set_role_rows (hit : ProjectMember -> bool) (r : MemberRole)
    (rows : list ProjectMember) {B} (g : ProjectMember -> B) :
  (forall m, g (set_role r m) = g m) ->
  g <$> ((fun m => if hit m then set_role r m else m) <$> rows) = g <$> rows.
Proof.
  intros Hg. rewrite <- list_fmap_compose. apply list_fmap_ext.
  intros i m _. cbn. by destruct (hit m).
Qed.

Lemma step_consistent (db : Database) (op : MemberOp) :
  db_consistent db -> db_consistent (step db op).
Proof.
  intros (Hp & Hs & Hm & Hpair & Hfk). destruct op; cbn [step].
  - (* CreateProject *)
    unfold insert_project.
    destruct (existsb _ (projects db)) eqn:Hex1; [done|].
    destruct (existsb _ (project_members db)) eqn:Hex2; [done|].
    cbn [orb fst]. unfold db_consistent. cbn [projects project_members].
    pose proof (existsb_false _ _ Hex1) as Hfresh1.
    pose proof (existsb_false _ _ Hex2) as Hfresh2.
    split_and!.
    + apply NoDup_snoc_fresh; [done|]. intros y Hy E.
      specialize (Hfresh1 y Hy). cbn beta in Hfresh1. cbn in E.
      by rewrite (bool_decide_eq_true_2 _ E) in Hfresh1.
    + apply NoDup_snoc_fresh; [done|]. intros y Hy E.
      specialize (Hfresh1 y Hy). cbn beta in Hfresh1. cbn in E.
      by rewrite (bool_decide_eq_true_2 (slug y = pslug) E), orb_true_r in Hfresh1.
    + apply NoDup_snoc_fresh; [done|]. intros y Hy E.
      specialize (Hfresh2 y Hy). cbn beta in Hfresh2. cbn in E.
      by rewrite (bool_decide_eq_true_2 _ E) in Hfresh2.
    + apply NoDup_snoc_fresh; [done|]. intros y Hy E.
      specialize (Hfresh2 y Hy). cbn beta in Hfresh2. cbn in E. injection E as E1 E2.
      by rewrite (bool_decide_eq_true_2 _ E1), (bool_decide_eq_true_2 _ E2),
        orb_true_r in Hfresh2.
    + intros m Hin. rewrite fmap_app. apply elem_of_app.
      apply elem_of_app in Hin as [Hin|Hin]; [left; by apply Hfk|right].
      apply list_elem_of_singleton in Hin as ->. cbn. left.
  - (* DeleteProject *)
    unfold delete_project.
    destruct (has_project_access db projectId uid owner); [|done].
    cbn [fst]. unfold db_consistent. cbn [projects project_members].
    split_and!; try by apply NoDup_fmap_List_filter.
    intros m Hin. apply elem_of_List_filter in Hin as [Hin Hkeep].
    apply negb_true_iff, bool_decide_eq_false in Hkeep.
    specialize (Hfk m Hin). apply list_elem_of_fmap in Hfk as (p & Hid & Hpin).
    apply list_elem_of_fmap. exists p. split; [done|].
    apply elem_of_List_filter. split; [done|].
    apply negb_true_iff, bool_decide_eq_false. congruence.
  - (* AddMember *)
    unfold insert_member.
    destruct (can_insert_member db uid _) eqn:Hcan; [|done]. cbn [negb].
    destruct (existsb _ (project_members db)) eqn:Hex; [done|].
    cbn [fst]. unfold db_consistent. cbn [projects project_members with_members].
    pose proof (existsb_false _ _ Hex) as Hfresh.
    split_and!; try done.
    + apply NoDup_snoc_fresh; [done|]. intros y Hy E.
      specialize (Hfresh y Hy). cbn beta in Hfresh. cbn in E.
      by rewrite (bool_decide_eq_true_2 _ E) in Hfresh.
    + apply NoDup_snoc_fresh; [done|]. intros y Hy E.
      specialize (Hfresh y Hy). cbn beta in Hfresh. cbn in E. injection E as E1 E2.
      by rewrite (bool_decide_eq_true_2 _ E1), (bool_decide_eq_true_2 _ E2),
        orb_true_r in Hfresh.
    + intros m Hin.
      apply elem_of_app in Hin as [Hin|Hin]; [by apply Hfk|].
      apply list_elem_of_singleton in Hin as ->. cbn [mem_project_id].
      unfold can_insert_member in Hcan. cbn [mem_project_id] in Hcan.
      apply owner_access_row in Hcan as (m & Hin & <- & _). by apply Hfk.
  - (* UpdateMemberRole *)
    rewrite updateMemberRole_db. unfold update_member_role.
    destruct (existsb _ _); [done|].
    cbn [fst]. unfold db_consistent. cbn [projects project_members with_members].
    rewrite !set_role_rows by done. split_and!; try done.
    intros m Hin. apply list_elem_of_fmap in Hin as (m0 & -> & Hin).
    specialize (Hfk m0 Hin). by destruct (_ && _).
  - (* RemoveMember *)
    unfold removeMember, delete_member. cbn [fst].
    unfold db_consistent. cbn [projects project_members with_members].
    split_and!; try done; try by apply NoDup_fmap_List_filter.
    intros m Hin. apply elem_of_List_filter in Hin as [Hin _]. by apply Hfk.
  - (* LeaveProject *)
    unfold leaveProject, delete_membership. cbn [fst].
    unfold db_consistent. cbn [projects project_members with_members].
    split_and!; try done; try by apply NoDup_fmap_List_filter.
    intros m Hin. apply elem_of_List_filter in Hin as [Hin _]. by apply Hfk.
Qed.

(** X21: from the empty database, after any sequence of project and
    membership requests, project ids, project slugs and member ids are
    distinct, no user is twice a member of a project, and every member
    row belongs to a project that exists. *)
Theorem run_consistent (ops : list MemberOp) : db_consistent (run ops empty_db).
Proof.
  assert (H : forall db, db_consistent db -> db_consistent (run ops db)).
  { induction ops as [|op ops IH]; intros db Hdb; [done|].
    cbn. apply IH. by apply step_consistent. }
  apply H. unfold db_consistent. cbn.
  split_and!; try apply NoDup_nil_2.
  intros m Hm. by apply elem_of_nil in Hm.
Qed.

Lemma List_filter_fmap_same {A} (sel : A -> bool) (g : A -> A) (l : list A) :
  (forall x, g x = x \/ (sel x = false /\ sel (g x) = false)) ->
  List.filter sel (g <$> l) = List.filter sel l.
Proof.
  intros Hg. induction l as [|x l IH]; [done|]. cbn. rewrite IH.
  destruct (Hg x) as [->|[-> ->]]; done.
Qed.

Lemma List_filter_filter_same {A} (sel keep : A -> bool) (l : list A) :
  (forall x, sel x = true -> keep x = true) ->
  List.filter sel (List.filter keep l) = List.filter sel l.
Proof.
  intros Hk. induction l as [|x l IH]; [done|]. cbn.
  destruct (sel x) eqn:Hx.
  - rewrite (Hk x Hx). cbn. by rewrite Hx, IH.
  - destruct (keep x); cbn; by rewrite ?Hx, IH.
Qed.

Lemma others_in_project (p uid : string) (m : ProjectMember) :
  others_in p uid m = true -> mem_project_id m = p /\ user_id m <> uid.
Proof.
  unfold others_in. intros H. apply andb_true_iff in H as [H1 H2].
  apply bool_decide_eq_true in H1. apply negb_true_iff, bool_decide_eq_false in H2.
  done.
Qed.

Lemma others_not_deletable (db : Database) (p uid : string) (m : ProjectMember) :
  has_project_access db p uid owner = false ->
  others_in p uid m = true -> can_delete_member db uid m = false.
Proof.
  intros Hacc Hm. apply others_in_project in Hm as [Hp Hu].
  unfold can_delete_member. rewrite Hp, Hacc.
  by rewrite (bool_decide_eq_false_2 (user_id m = uid)).
Qed.

(** X22: a request of a user who is not an owner of a project changes no
    other user's membership of that project: the rows of the other
    members are afterwards what they were. *)
Theorem step_spares_other_members (db : Database) (op : MemberOp) (p : string) :
  has_project_access db p (op_user op) owner = false ->
  List.filter (others_in p (op_user op)) (project_members (step db op))
  = List.filter (others_in p (op_user op)) (project_members db).
Proof.
  intros Hacc. destruct op; cbn [step op_user] in *.
  - (* CreateProject *)
    unfold insert_project. destruct (_ || _); [done|].
    cbn [fst project_members]. rewrite List.filter_app. cbn [List.filter].
    unfold others_in at 2. cbn [user_id].
    rewrite (bool_decide_eq_true_2 (uid = uid)) by done.
    by rewrite andb_false_r, app_nil_r.
  - (* DeleteProject *)
    unfold delete_project.
    destruct (has_project_access db projectId uid owner) eqn:Hown; [|done].
    cbn [fst project_members]. apply List_filter_filter_same.
    intros m Hm. apply others_in_project in Hm as [Hp _].
    apply negb_true_iff, bool_decide_eq_false. congruence.
  - (* AddMember *)
    unfold insert_member.
    destruct (can_insert_member db uid _) eqn:Hcan; [|done]. cbn [negb].
    destruct (existsb _ _); [done|].
    cbn [fst project_members with_members]. rewrite List.filter_app.
    cbn [List.filter]. unfold others_in at 2. cbn [mem_project_id].
    unfold can_insert_member in Hcan. cbn [mem_project_id] in Hcan.
    rewrite (bool_decide_eq_false_2 (projectId = p)) by congruence.
    by rewrite app_nil_r.
  - (* UpdateMemberRole *)
    rewrite updateMemberRole_db. unfold update_member_role.
    destruct (existsb _ _); [done|].
    cbn [fst project_members with_members]. apply List_filter_fmap_same.
    intros m. destruct (bool_decide (mem_id m = memberId)); [|by left]. cbn [andb].
    destruct (can_update_member db uid m) eqn:Hcan; [right|by left].
    unfold can_update_member in Hcan. apply andb_true_iff in Hcan as [Hcan _].
    unfold others_in. cbn [set_role mem_project_id].
    by rewrite (bool_decide_eq_false_2 (mem_project_id m = p)) by congruence.
  - (* RemoveMember *)
    unfold removeMember, delete_member. cbn [fst project_members with_members].
    apply List_filter_filter_same. intros m Hm.
    by rewrite (others_not_deletable db p uid m Hacc Hm), andb_false_r.
  - (* LeaveProject *)
    unfold leaveProject, delete_membership.
    cbn [fst project_members with_members].
    apply List_filter_filter_same. intros m Hm.
    by rewrite (others_not_deletable db p uid m Hacc Hm), andb_false_r.
Qed.

Lemma step_spares_other_members_witness :
  let db := mkDb [mkProject "p1" "Docs" None "docs" "u1"]
                 [mkMember "m1" "p1" "u1" owner (Some "u1");
                  mkMember "m2" "p1" "u2" editor (Some "u1");
                  mkMember "m3" "p1" "u3" viewer (Some "u1")] [] [] in
  List.filter (others_in "p1" "u2")
    (project_members (step db (RemoveMember "u2" "m3")))
  = List.filter (others_in "p1" "u2") (project_members db).
Proof.
  intros db.
  apply (step_spares_other_members db (RemoveMember "u2" "m3") "p1").
  reflexivity.
Defined.

(** X23: the rights on a document follow the role in its project: who
    may write may read; a viewer may read and nothing else; a user who
    is not a member may do nothing; an editor or owner may read,
    update and delete, and insert under the own name only. *)
Theorem document_rights_by_role (db : Database) (uid : string) (d : Document) :
  (can_update_document db uid d = true -> can_select_document db uid d = true)
  /\ can_delete_document db uid d = can_update_document db uid d
  /\ (can_insert_document db uid d = true ->
        can_update_document db uid d = true /\ created_by d = uid)
  /\ match member_role db (project_id d) uid with
     | None =>
         can_select_document db uid d = false
         /\ can_update_document db uid d = false
         /\ can_insert_document db uid d = false
     | Some viewer =>
         can_select_document db uid d = true
         /\ can_update_document db uid d = false
         /\ can_insert_document db uid d = false
     | Some _ =>
         can_select_document db uid d = true
         /\ can_update_document db uid d = true
         /\ can_insert_document db uid d = bool_decide (uid = created_by d)
     end.
Proof.
  unfold can_select_document, can_update_document, can_delete_document,
    can_insert_document, has_project_access.
  destruct (member_role db (project_id d) uid) as [[]|]; cbn;
    split_and!; try done.
  - intros H. by apply bool_decide_eq_true in H.
  - intros H. by apply bool_decide_eq_true in H.
Qed.

(** * An authorised publish request goes through *)

Lemma List_filter_key_singleton {A B} `{!EqDecision B} (g : A -> B)
    (l : list A) (x : A) :
  NoDup (g <$> l) -> x ∈ l ->
  List.filter (fun y => bool_decide (g y = g x)) l = [x].
Proof.
  induction l as [|y l IH]; intros Hnd Hx; [by apply elem_of_nil in Hx|].
  rewrite fmap_cons in Hnd. apply NoDup_cons in Hnd as [Hy Hnd]. cbn.
  apply elem_of_cons in Hx as [->|Hx].
  - rewrite bool_decide_eq_true_2 by done. f_equal.
    clear IH. induction l as [|z l IH]; [done|]. cbn.
    rewrite fmap_cons in Hy, Hnd. apply not_elem_of_cons in Hy as [Hne Hy].
    apply NoDup_cons in Hnd as [_ Hnd].
    rewrite bool_decide_eq_false_2 by done. by apply IH.
  - rewrite bool_decide_eq_false_2; [by apply IH|].
    intros E. apply Hy. rewrite E. by apply list_elem_of_fmap_2.
Qed.

Lemma member_rows_single (db : Database) (projectId user : string)
    (m : ProjectMember) :
  NoDup ((fun m => (mem_project_id m, user_id m)) <$> project_members db) ->
  find (fun m => bool_decide (mem_project_id m = projectId)
                 && bool_decide (user_id m = user)) (project_members db) = Some m ->
  List.filter (fun m => bool_decide (mem_project_id m = projectId)
                        && bool_decide (user_id m = user)) (project_members db)
  = [m].
Proof.
  intros Hnd Hfind. apply find_some in Hfind as [Hin Hm].
  apply andb_true_iff in Hm as [H1 H2]. apply bool_decide_eq_true in H1, H2.
  rewrite <- (List_filter_key_singleton
                (fun m => (mem_project_id m, user_id m)) _ m Hnd)
    by (by apply list_elem_of_In).
  apply List.filter_ext. intros y. cbn. subst.
  destruct (decide (mem_project_id y = mem_project_id m)) as [E1|E1];
    destruct (decide (user_id y = user_id m)) as [E2|E2].
  - rewrite !bool_decide_eq_true_2; [done|congruence|done|done].
  - rewrite (bool_decide_eq_false_2 (user_id y = user_id m)) by done.
    rewrite andb_false_r. symmetry. apply bool_decide_eq_false_2. congruence.
  - rewrite (bool_decide_eq_false_2 (mem_project_id y = mem_project_id m)) by done.
    symmetry. apply bool_decide_eq_false_2. congruence.
  - rewrite (bool_decide_eq_false_2 (mem_project_id y = mem_project_id m)) by done.
    symmetry. apply bool_decide_eq_false_2. congruence.
Qed.

(** X24: in a consistent database, a request with an authorization
    header from a signed-in editor or owner of an existing project that
    has published documents is answered with a success when the
    document query, the archive and the upload go through, and the
    archive of those documents is then in the bucket. *)
Theorem serve_completes (regex_replace : RegexReplace) (defaultStyles : string)
    (o : Outcomes) (w : World) (req : Request)
    (header projectId user : string) (template : option string) :
  db_consistent (database w) ->
  is_options req = false -> authorization req = Some header ->
  json req = inr (Some projectId, template) -> projectId <> "" ->
  token_user o = Some user ->
  has_project_access (database w) projectId user editor = true ->
  published_documents w projectId <> [] ->
  docs_error o = None -> bundle_error o = None -> upload_error o = None ->
  let r := serve regex_replace defaultStyles o w req in
  is_success r.2 = true /\ status r.2 = 200
  /\ exists project,
       project ∈ projects (database w) /\ proj_id project = projectId
       /\ (projectId +:+ "/" +:+ ("v" +:+ pretty (date_now o)) +:+ "/site.zip",
           bundle regex_replace defaultStyles (name project)
             (published_documents w projectId))
          ∈ published_sites r.1.
Proof.
  intros (Hp & _ & _ & Hpair & Hfk) Hopt Hauth Hjson Hne Huser Hacc Hdocs
    Hde Hbe Hue r.
  subst r. unfold serve. rewrite Hopt, Hauth, Hjson. cbn [or_null].
  destruct (String.eqb_spec projectId "") as [|_]; [done|].
  rewrite Huser.
  unfold has_project_access, member_role in Hacc.
  destruct (find _ (project_members (database w))) as [m|] eqn:Hfind; [|done].
  cbn in Hacc.
  rewrite (member_rows_single (database w) projectId user m Hpair Hfind).
  cbn [single]. rewrite Hacc.
  assert (Hm : mem_project_id m = projectId).
  { apply find_some in Hfind as [_ Hm]. apply andb_true_iff in Hm as [Hm _].
    by apply bool_decide_eq_true in Hm. }
  pose proof Hfind as Hin. apply find_some in Hin as [Hin _].
  apply list_elem_of_In, Hfk in Hin. rewrite Hm in Hin.
  apply list_elem_of_fmap in Hin as (project & Hid & Hpin).
  assert (Hrows : List.filter (fun p => bool_decide (proj_id p = projectId))
                              (projects (database w)) = [project]).
  { rewrite Hid. by apply (List_filter_key_singleton proj_id). }
  rewrite Hrows. cbn [single]. rewrite Hde.
  destruct (published_documents w projectId) as [|d docs] eqn:Hsel; [done|].
  unfold publish_selected. rewrite Hbe, Hue.
  assert (Hup : forall b, (projectId +:+ "/" +:+ ("v" +:+ pretty (date_now o))
                           +:+ "/site.zip",
                           bundle regex_replace defaultStyles (name project) (d :: docs))
                          ∈ upload (proj_id project +:+ "/"
                                    +:+ ("v" +:+ pretty (date_now o)) +:+ "/site.zip")
                              (bundle regex_replace defaultStyles (name project)
                                 (d :: docs)) b).
  { intros b. rewrite <- Hid. apply upload_elem. }
  destruct (insert_error o); cbn [fst snd is_success body status published_sites];
    (split_and!; [done|done|]); exists project; split_and!; try done; apply Hup.
Qed.

Lemma serve_completes_witness :
  is_success (serve (fun _ _ _ s => s) "" (sample_outcomes None) sample_world
                sample_request).2 = true.
Proof.
  assert (Hdb : db_consistent (database sample_world)).
  { unfold db_consistent. cbn. split_and!; try apply NoDup_singleton.
    intros m Hm. apply list_elem_of_singleton in Hm as ->. cbn. left. }
  assert (Hne : "p1" <> "") by discriminate.
  assert (Hdocs : published_documents sample_world "p1" <> []) by discriminate.
  exact (proj1 (serve_completes (fun _ _ _ s => s) "" (sample_outcomes None)
                  sample_world sample_request "Bearer t" "p1" "u1" None
                  Hdb eq_refl eq_refl eq_refl Hne eq_refl eq_refl Hdocs
                  eq_refl eq_refl eq_refl)).
Defined.
